(** * Retail data-warehouse ETL: incremental loading, SCD-2 and quality gate

    A shallow embedding of the incremental-load subsystem of the retail ETL
    pipeline: the watermark store ([watermark_manager.py]), the incremental
    loader with its record validator ([incremental_load.py]), the Type-2
    customer dimension loaders ([load_customer_multisource.py],
    [load_customer_scd.py]), the script that loads the sales facts
    ([load_fact_sales_incremental.py]) and the z-score anomaly check of
    [advanced_data_quality.py].

    Conventions of the embedding.
    - A timestamp is an integer number of seconds, a date an integer number
      of days; [date_of] is the pandas [.dt.date] / [Timestamp.date()].
    - SQL tables are lists of rows in storage order.  A DataFrame row is a
      finite map from column names to cells; a DataFrame also records the
      dtype of every column, which is what [select_dtypes] looks at.
    - Numbers that pandas holds as floats are rationals: only their sign and
      exact arithmetic are used.
    - Python exceptions raised by the database driver are decided by a fault
      plan of the environment; the loaders are state transformers that
      return either a value or the raised exception. *)

From Stdlib Require Import ZArith QArith Qround Bool List Lia Sorted.
From Stdlib Require Import Reals Qreals Lra Psatz.
From stdpp Require Import gmap strings list fin_maps sorting.

Local Open Scope string_scope.
Local Open Scope list_scope.
Local Open Scope Z_scope.

(* ===================================================================== *)
(** ** Cells, rows and data frames *)
(* ===================================================================== *)

(** A cell of a DataFrame or of a SQL row.  [Null] stands for [None], [NaN],
    [NaT] and SQL [NULL]. *)
Inductive cell : Type :=
  | Null
  | Num (q : Q)
  | Str (s : string)
  | Ts (t : Z).

(** The coarse pandas dtype of a column. *)
Inductive dtype : Type := DNumber | DObject | DDatetime.

Abbreviation Row := (gmap string cell).

Record DataFrame : Type := mkDataFrame {
  columns : list (string * dtype);
  rows : list Row
}.

Definition col_names (df : DataFrame) : list string := (columns df).*1.

(** [col in df.columns] *)
Definition has_column (df : DataFrame) (col : string) : bool :=
  bool_decide (col ∈ col_names df).

(** [row[col]]; a label that the row does not carry reads as a missing
    value. *)
Definition cell_at (r : Row) (col : string) : cell := default Null (r !! col).

(** [df[mask]]: the rows selected by a boolean mask, in order. *)
Definition select (mask : Row -> bool) (df : DataFrame) : DataFrame :=
  mkDataFrame (columns df) (List.filter mask (rows df)).

(** [len(df)] *)
Definition len (df : DataFrame) : Z := Z.of_nat (length (rows df)).

Definition seconds_per_day : Z := 86400.

(** [Timestamp.date()] *)
Definition date_of (t : Z) : Z := t / seconds_per_day.

(** The timestamp held by a cell, if any ([NaT] otherwise). *)
Definition ts_of (c : cell) : option Z :=
  match c with Ts t => Some t | _ => None end.

(** [series > last]: comparisons with a missing value are [False]. *)
Definition ts_gt (c : cell) (last : Z) : bool :=
  match ts_of c with Some t => last <? t | None => false end.

(** [series.dt.date > last_date] *)
Definition date_gt (c : cell) (last_date : Z) : bool :=
  match ts_of c with Some t => last_date <? date_of t | None => false end.

(** [series.max()], skipping missing values; [None] when nothing is left. *)
Definition opt_max (a : option Z) (t : Z) : option Z :=
  match a with Some m => Some (Z.max m t) | None => Some t end.

Definition ts_max (col : string) (df : DataFrame) : option Z :=
  fold_left
    (fun acc r => match ts_of (cell_at r col) with
                  | Some t => opt_max acc t
                  | None => acc
                  end)
    (rows df) None.

(** [df.sort_values(col)]: ascending, missing values last.  The sort is an
    insertion sort, which keeps the order of equal timestamps. *)
Definition ts_le (col : string) (a b : Row) : bool :=
  match ts_of (cell_at a col), ts_of (cell_at b col) with
  | Some x, Some y => x <=? y
  | Some _, None => true
  | None, Some _ => false
  | None, None => true
  end.

Fixpoint insert_sorted (col : string) (r : Row) (l : list Row) : list Row :=
  match l with
  | [] => [r]
  | x :: l' => if ts_le col r x && negb (ts_le col x r)
               then r :: x :: l'
               else x :: insert_sorted col r l'
  end.

Definition sort_rows (col : string) (l : list Row) : list Row :=
  fold_left (fun acc r => insert_sorted col r acc) l [].

Definition sort_values (col : string) (df : DataFrame) : DataFrame :=
  mkDataFrame (columns df) (sort_rows col (rows df)).

(* ===================================================================== *)
(** ** Watermark store ([watermark_manager.py]) *)
(* ===================================================================== *)

Module WatermarkManager.

(** One row of [etl_watermark].  The two counters are columns that are
    never NULL, so the [or 0] of the reader is the identity on them; the
    column [updated_at], which nothing reads, is left out. *)
Record WatermarkRow : Type := mkWatermarkRow {
  table_name : string;
  source_system : option string;
  last_loaded_timestamp : option Z;
  last_loaded_date : option Z;
  last_invoice_number : option string;
  records_processed : Z;
  records_rejected : Z
}.

(** The dictionary returned by [get_last_watermark]. *)
Record Watermark : Type := mkWatermark {
  timestamp : option Z;
  date : option Z;
  invoice : option string;
  wm_records_processed : Z;
  wm_records_rejected : Z
}.

(** Python truthiness of the optional [source_system] argument: [None] and
    the empty string both take the branch without a source. *)
Definition truthy_source (src : option string) : option string :=
  match src with
  | Some s => if bool_decide (s = "") then None else Some s
  | None => None
  end.

(** [WHERE table_name = :tname AND source_system = :src] *)
Definition matches_pair (tname src : string) (w : WatermarkRow) : bool :=
  bool_decide (table_name w = tname) &&
  bool_decide (source_system w = Some src).

(** [WHERE table_name = :tname] *)
Definition matches_table (tname : string) (w : WatermarkRow) : bool :=
  bool_decide (table_name w = tname).

(** [a] sorts strictly before [b] under
    [ORDER BY last_loaded_timestamp DESC]; PostgreSQL puts NULL first in a
    descending order. *)
Definition desc_before (a b : option Z) : bool :=
  match a, b with
  | None, None => false
  | None, Some _ => true
  | Some _, None => false
  | Some x, Some y => y <? x
  end.

(** [ORDER BY last_loaded_timestamp DESC LIMIT 1]; among equal keys the
    row that is stored first is returned. *)
Fixpoint first_desc (best : WatermarkRow) (l : list WatermarkRow)
  : WatermarkRow :=
  match l with
  | [] => best
  | w :: l' =>
      if desc_before (last_loaded_timestamp w) (last_loaded_timestamp best)
      then first_desc w l'
      else first_desc best l'
  end.

Definition fetchone_desc (l : list WatermarkRow) : option WatermarkRow :=
  match l with
  | [] => None
  | w :: l' => Some (first_desc w l')
  end.

Definition to_dict (w : WatermarkRow) : Watermark :=
  {| timestamp := last_loaded_timestamp w;
     date := last_loaded_date w;
     invoice := last_invoice_number w;
     wm_records_processed := records_processed w;
     wm_records_rejected := records_rejected w |}.

Definition get_last_watermark (store : list WatermarkRow)
    (tname : string) (src : option string) : option Watermark :=
  match truthy_source src with
  | Some s => to_dict <$> head (List.filter (matches_pair tname s) store)
  | None => to_dict <$> fetchone_desc (List.filter (matches_table tname) store)
  end.

(** [COALESCE(:new, old)] *)
Definition coalesce {A : Type} (new old : option A) : option A :=
  match new with Some x => Some x | None => old end.

(** The [SET] clause of the [UPDATE]. *)
Definition set_row (new_timestamp new_date : option Z)
    (invoice_number : option string) (proc rej : Z)
    (w : WatermarkRow) : WatermarkRow :=
  {| table_name := table_name w;
     source_system := source_system w;
     last_loaded_timestamp := coalesce new_timestamp (last_loaded_timestamp w);
     last_loaded_date := coalesce new_date (last_loaded_date w);
     last_invoice_number := coalesce invoice_number (last_invoice_number w);
     records_processed := records_processed w + proc;
     records_rejected := records_rejected w + rej |}.

(** [update_watermark]: a single [UPDATE] statement; rows that do not
    match the [WHERE] clause are left alone and no row is ever added. *)
Definition update_watermark (store : list WatermarkRow)
    (tname : string) (src : option string)
    (new_timestamp new_date : option Z) (invoice_number : option string)
    (proc rej : Z) : list WatermarkRow :=
  let hit :=
    match truthy_source src with
    | Some s => matches_pair tname s
    | None => matches_table tname
    end in
  map (fun w => if hit w
                then set_row new_timestamp new_date invoice_number proc rej w
                else w)
      store.

End WatermarkManager.

(* ===================================================================== *)
(** ** Database state, exceptions and the loader monad *)
(* ===================================================================== *)

(** The statements a loader sends to the database (and the validation
    step), as far as the environment may make them fail. *)
Inductive db_op : Type :=
  | OpSelectWatermark
  | OpValidate
  | OpAppend (table : string)
  | OpQuarantine
  | OpUpsert (table : string)
  | OpUpdateWatermark.

Inductive exn : Type :=
  | KeyError (col : string)
  | ValueError (col : string)
  | DatabaseError (op : db_op).

(** What a run cannot control: which operations fail, and the clock. *)
Record Env : Type := mkEnv {
  fault : db_op -> bool;
  now : Z
}.

(** The warehouse: the data tables by name and the watermark table. *)
Record DB : Type := mkDB {
  tables : gmap string (list Row);
  etl_watermark : list WatermarkManager.WatermarkRow
}.

Inductive outcome (A : Type) : Type :=
  | Ok (a : A)
  | Raised (e : exn).
Arguments Ok {A} a.
Arguments Raised {A} e.

(** A computation reads and writes the database and either returns or
    raises; what was committed before the exception stays committed. *)
Definition M (A : Type) : Type := DB -> outcome A * DB.

Definition ret {A : Type} (a : A) : M A := fun db => (Ok a, db).

Definition raise {A : Type} (e : exn) : M A := fun db => (Raised e, db).

Definition bind {A B : Type} (c : M A) (k : A -> M B) : M B :=
  fun db => match c db with
            | (Ok a, db') => k a db'
            | (Raised e, db') => (Raised e, db')
            end.

Notation "'do' x <- c ;; k" := (bind c (fun x => k))
  (at level 10, x name, c at level 99, k at level 200, only parsing).
Notation "'do' ' p <- c ;; k" := (bind c (fun x => match x with p => k end))
  (at level 10, p pattern, c at level 99, k at level 200, only parsing).
Notation "'run' c ;; k" := (bind c (fun _ => k))
  (at level 10, c at level 99, k at level 200, only parsing).

(** An operation that the environment may fail before it has any effect. *)
Definition attempt {A : Type} (env : Env) (op : db_op) (c : M A) : M A :=
  if fault env op then raise (DatabaseError op) else c.

(** [DataFrame.to_sql(table, if_exists='append')] *)
Definition to_sql (env : Env) (table : string) (df : DataFrame) : M unit :=
  attempt env (OpAppend table)
    (fun db => (Ok tt,
                mkDB (<[table := (tables db !!! table) ++ rows df]> (tables db))
                     (etl_watermark db))).

(** A call of [WatermarkManager.get_last_watermark]. *)
Definition call_get_last_watermark (env : Env) (tname : string)
    (src : option string) : M (option WatermarkManager.Watermark) :=
  attempt env OpSelectWatermark
    (fun db => (Ok (WatermarkManager.get_last_watermark (etl_watermark db) tname src), db)).

(** A call of [WatermarkManager.update_watermark]: [engine.begin()] commits
    the [UPDATE] or, on an exception, rolls it back. *)
Definition call_update_watermark (env : Env) (tname : string) (src : option string)
    (new_timestamp new_date : option Z) (invoice_number : option string)
    (proc rej : Z) : M unit :=
  attempt env OpUpdateWatermark
    (fun db => (Ok tt,
                mkDB (tables db)
                     (WatermarkManager.update_watermark (etl_watermark db) tname src
                        new_timestamp new_date invoice_number proc rej))).

(* ===================================================================== *)
(** ** Strings: [str.lower()] and [sub in s] *)
(* ===================================================================== *)

Definition lower_ascii (c : Ascii.ascii) : Ascii.ascii :=
  let n := Ascii.N_of_ascii c in
  if ((65 <=? n) && (n <=? 90))%N then Ascii.ascii_of_N (n + 32) else c.

Fixpoint lower (s : string) : string :=
  match s with
  | EmptyString => EmptyString
  | String c s' => String (lower_ascii c) (lower s')
  end.

Fixpoint contains (sub s : string) : bool :=
  String.prefix sub s ||
  match s with
  | EmptyString => false
  | String _ s' => contains sub s'
  end.

(* ===================================================================== *)
(** ** Incremental loader ([incremental_load.py]) *)
(* ===================================================================== *)

Module IncrementalLoader.

Import WatermarkManager.

(** *** Record validator *)

Definition critical_cols : gmap string (list string) :=
  list_to_map
    [ ("fact_sales",
        ["time_key"; "customer_key"; "product_key"; "store_key";
         "quantity"; "unit_price"]);
      ("dim_product", ["product_key"; "product_name"]);
      ("dim_customer", ["customer_key"; "customer_name"]);
      ("dim_store", ["store_key"; "store_name"]) ].

(** [critical_cols.get(table_name, [])] *)
Definition _get_critical_columns (table_name : string) : list string :=
  default [] (critical_cols !! table_name).

(** [series.isnull()] *)
Definition isnull (c : cell) : bool :=
  match c with Null => true | _ => false end.

(** [series < 0] on a numeric column; a missing value compares false. *)
Definition negative (c : cell) : bool :=
  match c with Num q => negb (Qle_bool 0 q) | _ => false end.

(** ['amount' in col.lower() or 'quantity' in col.lower()
     or 'price' in col.lower()] *)
Definition amount_like (col : string) : bool :=
  contains "amount" (lower col) || contains "quantity" (lower col)
  || contains "price" (lower col).

(** [df.select_dtypes(include=['number']).columns] *)
Definition numeric_columns (df : DataFrame) : list string :=
  (List.filter (fun cd => match cd.2 with DNumber => true | _ => false end)
               (columns df)).*1.

(** One turn of the loop over the critical columns. *)
Definition null_step (df : DataFrame) (valid_mask : Row -> bool)
    (col : string) : Row -> bool :=
  if has_column df col then
    let null_mask := fun r => isnull (cell_at r col) in
    if existsb null_mask (rows df)
    then fun r => valid_mask r && negb (null_mask r)
    else valid_mask
  else valid_mask.

(** One turn of the loop over the numeric columns. *)
Definition negative_step (df : DataFrame) (valid_mask : Row -> bool)
    (col : string) : Row -> bool :=
  if amount_like col then
    let negative_mask := fun r => negative (cell_at r col) in
    if existsb negative_mask (rows df)
    then fun r => valid_mask r && negb (negative_mask r)
    else valid_mask
  else valid_mask.

Definition valid_mask (df : DataFrame) (table_name : string) : Row -> bool :=
  let m0 := fun _ : Row => true in
  let m1 := fold_left (null_step df) (_get_critical_columns table_name) m0 in
  fold_left (negative_step df) (numeric_columns df) m1.

(** [_validate_records]: [(valid_df, rejected_df)] *)
Definition _validate_records (df : DataFrame) (table_name : string)
  : DataFrame * DataFrame :=
  let m := valid_mask df table_name in
  (select m df, select (fun r => negb (m r)) df).

(** *** Quarantine *)

Definition opt_str (s : option string) : cell :=
  match s with Some x => Str x | None => Null end.

Definition tag_rejected (env : Env) (table_name : string)
    (source_system : option string) (r : Row) : Row :=
  <["rejection_reason" := Str "Validation failed"]>
    (<["source_system" := opt_str source_system]>
       (<["source_table" := Str table_name]>
          (<["rejection_timestamp" := Ts (now env)]> r))).

(** [_log_rejected_records]: the write is wrapped in its own
    [try/except], which logs the error and returns. *)
Definition _log_rejected_records (env : Env) (rejected_df : DataFrame)
    (table_name : string) (source_system : option string) : M unit :=
  if len rejected_df =? 0 then ret tt
  else if fault env OpQuarantine then ret tt
  else fun db =>
    (Ok tt,
     mkDB (<["etl_rejected_records" :=
              (tables db !!! "etl_rejected_records")
              ++ map (tag_rejected env table_name source_system)
                     (rows rejected_df)]> (tables db))
          (etl_watermark db)).

(** *** Selecting the new records *)

(** [df[col]]: a [KeyError] when the frame has no such column. *)
Definition require_column (df : DataFrame) (col : string) : M unit :=
  if has_column df col then ret tt else raise (KeyError col).

Definition after_timestamp (col : string) (last : Z) (df : DataFrame)
  : DataFrame := select (fun r => ts_gt (cell_at r col) last) df.

Definition after_date (col : string) (last_date : Z) (df : DataFrame)
  : DataFrame := select (fun r => date_gt (cell_at r col) last_date) df.

(** The first branch of [load_fact_sales_incremental] (lines 51-66). *)
Definition new_records_fact (watermark : option Watermark)
    (source_df : DataFrame) (timestamp_column : string) : M DataFrame :=
  match watermark with
  | Some {| timestamp := Some last_timestamp |} =>
      run require_column source_df timestamp_column ;;
      ret (after_timestamp timestamp_column last_timestamp source_df)
  | Some {| timestamp := None; date := Some last_date |} =>
      run require_column source_df timestamp_column ;;
      ret (after_date timestamp_column last_date source_df)
  | _ => ret source_df
  end.

(** The first branch of [load_dimension_incremental] (lines 149-157). *)
Definition new_records_dimension (watermark : option Watermark)
    (source_df : DataFrame) (timestamp_column : string) : M DataFrame :=
  match watermark with
  | Some {| timestamp := Some last_timestamp |} =>
      ret (after_timestamp timestamp_column last_timestamp source_df)
  | _ => ret source_df
  end.

(** *** Fact mode *)

Record FactStats : Type := mkFactStats {
  inserted : Z;
  rejected : Z;
  total : Z
}.

Definition validate (env : Env) (df : DataFrame) (table_name : string)
  : M (DataFrame * DataFrame) :=
  attempt env OpValidate (ret (_validate_records df table_name)).

(** [load_fact_sales_incremental]; the enclosing
    [try: ... except Exception: log; raise] re-raises what it caught, so
    it is the computation itself. *)
Definition load_fact_sales_incremental (env : Env) (source_df : DataFrame)
    (source_system : option string) (timestamp_column : string)
  : M FactStats :=
  let table_name := "fact_sales" in
  do watermark <- call_get_last_watermark env table_name source_system ;;
  do new_records <- new_records_fact watermark source_df timestamp_column ;;
  if len new_records =? 0 then ret (mkFactStats 0 0 0)
  else
    run require_column new_records timestamp_column ;;
    let new_records := sort_values timestamp_column new_records in
    do '(valid_records, rejected_records) <-
         validate env new_records table_name ;;
    let records_rejected := len rejected_records in
    do records_inserted <-
         (if 0 <? len valid_records
          then run to_sql env table_name valid_records ;;
               ret (len valid_records)
          else ret 0) ;;
    run (if 0 <? records_rejected
         then _log_rejected_records env rejected_records table_name
                source_system
         else ret tt) ;;
    let new_timestamp := ts_max timestamp_column source_df in
    let new_date := date_of <$> new_timestamp in
    run call_update_watermark env table_name source_system new_timestamp
          new_date None records_inserted records_rejected ;;
    ret (mkFactStats records_inserted records_rejected (len new_records)).

(** *** Dimension mode *)

(** SQL [=] between two values: never true on [NULL]. *)
Definition sql_eq (a b : cell) : bool :=
  match a, b with
  | Num x, Num y => Qeq_bool x y
  | Str x, Str y => bool_decide (x = y)
  | Ts x, Ts y => x =? y
  | _, _ => false
  end.

(** [WHERE {unique_key} = :{unique_key}] *)
Definition key_matches (unique_key : string) (key : cell) (r : Row) : bool :=
  sql_eq (cell_at r unique_key) key.

(** [SELECT COUNT( * ) ... WHERE ...] *)
Definition count_where (p : Row -> bool) (table : list Row) : Z :=
  Z.of_nat (length (List.filter p table)).

(** [UPDATE ... SET col = :col, ... WHERE ...]: every column of the
    incoming row except the key is written over the stored value. *)
Definition overwrite (unique_key : string) (row r : Row) : Row :=
  delete unique_key row ∪ r.

(** The body of the loop of [_upsert_dimension], on the table and the two
    counters [(inserted_count, updated_count)]. *)
Definition upsert_row (unique_key : string)
    (st : list Row * (Z * Z)) (row : Row) : list Row * (Z * Z) :=
  let '(table, (inserted_count, updated_count)) := st in
  let key := cell_at row unique_key in
  let exists_ := count_where (key_matches unique_key key) table in
  if 0 <? exists_ then
    (map (fun r => if key_matches unique_key key r
                   then overwrite unique_key row r else r) table,
     (inserted_count, updated_count + 1))
  else
    (table ++ [row], (inserted_count + 1, updated_count)).

Definition upsert_rows (unique_key : string) (table : list Row)
    (df_rows : list Row) : list Row * (Z * Z) :=
  fold_left (upsert_row unique_key) df_rows (table, (0, 0)).

(** [_upsert_dimension]: all statements run on one connection that is
    committed once, after the loop, so a failure leaves the table as it
    was.  A frame without rows sends no statement at all. *)
Definition _upsert_dimension (env : Env) (df : DataFrame)
    (table_name unique_key : string) : M (Z * Z) :=
  match rows df with
  | [] => ret (0, 0)
  | _ =>
      run require_column df unique_key ;;
      attempt env (OpUpsert table_name)
        (fun db =>
           match tables db !! table_name with
           | None => (Raised (DatabaseError (OpUpsert table_name)), db)
           | Some table =>
               let '(table', counts) := upsert_rows unique_key table (rows df) in
               (Ok counts,
                mkDB (<[table_name := table']> (tables db)) (etl_watermark db))
           end)
  end.

Record DimStats : Type := mkDimStats {
  dim_inserted : Z;
  dim_updated : Z;
  dim_rejected : Z
}.

Definition load_dimension_incremental (env : Env) (source_df : DataFrame)
    (table_name timestamp_column unique_key : string)
    (source_system : option string) : M DimStats :=
  run (if has_column source_df timestamp_column then ret tt
       else raise (ValueError timestamp_column)) ;;
  do watermark <- call_get_last_watermark env table_name source_system ;;
  do new_records <-
       new_records_dimension watermark source_df timestamp_column ;;
  if len new_records =? 0 then ret (mkDimStats 0 0 0)
  else
    let new_records := sort_values timestamp_column new_records in
    do '(valid_records, rejected_records) <-
         validate env new_records table_name ;;
    do '(inserted, updated) <-
         _upsert_dimension env valid_records table_name unique_key ;;
    let records_rejected := len rejected_records in
    run (if 0 <? records_rejected
         then _log_rejected_records env rejected_records table_name
                source_system
         else ret tt) ;;
    let new_timestamp := ts_max timestamp_column source_df in
    let new_date := date_of <$> new_timestamp in
    run call_update_watermark env table_name source_system new_timestamp
          new_date None (inserted + updated) records_rejected ;;
    ret (mkDimStats inserted updated records_rejected).

End IncrementalLoader.

(* ===================================================================== *)
(** ** The customer dimension, Type-2 history *)
(* ===================================================================== *)

(** ['9999-12-31'], the expiry date of an open row, in days. *)
Definition sentinel_expiry : Z := 2932896.

(** One row of [dim_customer]. *)
Record DimCustomerRow : Type := mkDimCustomerRow {
  customer_key : Z;
  customer_id : Z;
  customer_name : option string;
  city : option string;
  state : option string;
  email : option string;
  phone : option string;
  postal_code : option string;
  age_group : option string;
  customer_segment : option string;
  loyalty_tier : option string;
  registration_date : option Z;
  effective_date : Z;
  expiry_date : Z;
  is_current : bool;
  dim_source_system : option string;
  last_updated_source : option string
}.

(** [WHERE customer_id = :cid AND is_current = TRUE] *)
Definition current_of (cid : Z) (r : DimCustomerRow) : bool :=
  (customer_id r =? cid) && is_current r.

(** [SELECT ... WHERE customer_id = :cid AND is_current = TRUE] followed by
    [fetchone()]. *)
Definition fetch_current (cid : Z) (table : list DimCustomerRow)
  : option DimCustomerRow :=
  head (List.filter (current_of cid) table).

Definition close_row (today : Z) (r : DimCustomerRow) : DimCustomerRow :=
  {| customer_key := customer_key r; customer_id := customer_id r;
     customer_name := customer_name r; city := city r; state := state r;
     email := email r; phone := phone r; postal_code := postal_code r;
     age_group := age_group r; customer_segment := customer_segment r;
     loyalty_tier := loyalty_tier r; registration_date := registration_date r;
     effective_date := effective_date r;
     expiry_date := today; is_current := false;
     dim_source_system := dim_source_system r;
     last_updated_source := last_updated_source r |}.

(** [UPDATE dim_customer SET expiry_date = :exp, is_current = FALSE
     WHERE customer_key = :ck] *)
Definition expire (today ck : Z) (table : list DimCustomerRow)
  : list DimCustomerRow :=
  map (fun r => if customer_key r =? ck then close_row today r else r) table.

(** The surrogate key of an inserted row comes from the database (a serial
    column): the least key above all the stored ones. *)
Definition next_key (table : list DimCustomerRow) : Z :=
  1 + fold_right Z.max 0 (map customer_key table).

(** A value that the loops read from a row of a frame: [None] (the frame
    has no such column and [row.get] answers [None]), a string, or the
    float [NaN] that pandas puts where a value is missing, as a left merge
    does in every column of the right frame for a row without partner. *)
Inductive pyval : Type :=
  | PyNone
  | PyNaN
  | PyStr (s : string).

(** Python [a != b] between a value fetched from the database ([None] for
    [NULL], or a string) and a value read from a frame: [NaN] differs from
    every value. *)
Definition differs (a : option string) (b : pyval) : bool :=
  match b with
  | PyNone => bool_decide (a ≠ None)
  | PyNaN => true
  | PyStr s => bool_decide (a ≠ Some s)
  end.

(** What a text column holds after a value was bound to a parameter of an
    [INSERT].  What it holds for the float [NaN] is decided by the adapter
    of the driver and by the database (the text ['NaN'], or [NULL]); the
    loops are modelled for every answer [nan_text]. *)
Definition stored (nan_text : option string) (v : pyval) : option string :=
  match v with
  | PyNone => None
  | PyNaN => nan_text
  | PyStr s => Some s
  end.

(** The running totals [(rows_inserted, rows_updated, rows_skipped)]. *)
Record ScdCounts : Type := mkScdCounts {
  rows_inserted : Z;
  rows_updated : Z;
  rows_skipped : Z
}.

Module LoadCustomerMultisource.

(** A row of [merged_customers], as the loop reads it with [row[...]] and
    [row.get(...)]. *)
Record MergedCustomer : Type := mkMergedCustomer {
  m_customer_id : Z;
  m_state : pyval;
  m_source_system : pyval;
  m_customer_name : pyval;
  m_email : pyval;
  m_phone : pyval;
  m_city : pyval;
  m_postal_code : pyval;
  m_age_group : pyval;
  m_customer_segment : pyval;
  m_loyalty_tier : pyval;
  m_registration_date : option Z
}.

(** The row written by the [INSERT] statement (both occurrences are the
    same statement with the same parameters). *)
Definition new_row (nan_text : option string) (today ck : Z)
    (row : MergedCustomer) : DimCustomerRow :=
  {| customer_key := ck;
     customer_id := m_customer_id row;
     customer_name := stored nan_text (m_customer_name row);
     city := stored nan_text (m_city row);
     state := stored nan_text (m_state row);
     email := stored nan_text (m_email row);
     phone := stored nan_text (m_phone row);
     postal_code := stored nan_text (m_postal_code row);
     age_group := stored nan_text (m_age_group row);
     customer_segment := stored nan_text (m_customer_segment row);
     loyalty_tier := stored nan_text (m_loyalty_tier row);
     registration_date := m_registration_date row;
     effective_date := today;
     expiry_date := sentinel_expiry;
     is_current := true;
     dim_source_system := stored nan_text (m_source_system row);
     last_updated_source := stored nan_text (m_source_system row) |}.

Definition insert_customer (nan_text : option string) (today : Z)
    (row : MergedCustomer) (table : list DimCustomerRow)
  : list DimCustomerRow :=
  table ++ [new_row nan_text today (next_key table) row].

(** [changed = (result[1] != country or result[2] != email
                or result[3] != segment)] *)
Definition changed (result : DimCustomerRow) (row : MergedCustomer) : bool :=
  differs (state result) (m_state row)
  || differs (email result) (m_email row)
  || differs (customer_segment result) (m_customer_segment row).

(** The body of the loop over [merged_customers]. *)
Definition scd_step (nan_text : option string) (today : Z)
    (st : list DimCustomerRow * ScdCounts) (row : MergedCustomer)
  : list DimCustomerRow * ScdCounts :=
  let '(table, n) := st in
  match fetch_current (m_customer_id row) table with
  | None =>
      (insert_customer nan_text today row table,
       mkScdCounts (rows_inserted n + 1) (rows_updated n) (rows_skipped n))
  | Some result =>
      if changed result row then
        (insert_customer nan_text today row
           (expire today (customer_key result) table),
         mkScdCounts (rows_inserted n) (rows_updated n + 1) (rows_skipped n))
      else
        (table,
         mkScdCounts (rows_inserted n) (rows_updated n) (rows_skipped n + 1))
  end.

(** The whole loop, from zeroed counters. *)
Definition scd_load (nan_text : option string) (today : Z)
    (merged_customers : list MergedCustomer) (table : list DimCustomerRow)
  : list DimCustomerRow * ScdCounts :=
  fold_left (scd_step nan_text today) merged_customers
    (table, mkScdCounts 0 0 0).

End LoadCustomerMultisource.

Module LoadCustomerScd.

(** [INSERT ... VALUES (:cid, 'Unknown', NULL, :state, :eff,
    '9999-12-31', TRUE)]: the other columns take their default, NULL. *)
Definition new_row (nan_text : option string) (today ck cid : Z)
    (country : pyval) : DimCustomerRow :=
  {| customer_key := ck;
     customer_id := cid;
     customer_name := Some "Unknown";
     city := None;
     state := stored nan_text country;
     email := None; phone := None; postal_code := None; age_group := None;
     customer_segment := None; loyalty_tier := None;
     registration_date := None;
     effective_date := today;
     expiry_date := sentinel_expiry;
     is_current := true;
     dim_source_system := None;
     last_updated_source := None |}.

Definition insert_customer (nan_text : option string) (today cid : Z)
    (country : pyval) (table : list DimCustomerRow) : list DimCustomerRow :=
  table ++ [new_row nan_text today (next_key table) cid country].

(** The body of the loop over [customers]: rows [(CustomerID, Country)]. *)
Definition scd_step (nan_text : option string) (today : Z)
    (table : list DimCustomerRow) (row : Z * pyval)
  : list DimCustomerRow :=
  let '(cid, country) := row in
  match fetch_current cid table with
  | None => insert_customer nan_text today cid country table
  | Some result =>
      if differs (state result) country
      then insert_customer nan_text today cid country
             (expire today (customer_key result) table)
      else table
  end.

Definition scd_load (nan_text : option string) (today : Z)
    (customers : list (Z * pyval)) (table : list DimCustomerRow)
  : list DimCustomerRow :=
  fold_left (scd_step nan_text today) customers table.

End LoadCustomerScd.

(* ===================================================================== *)
(** ** Calendar: the year and the [%Y%m%d] key of a date *)
(* ===================================================================== *)

(** The civil date [(year, month, day)] of a day number counted from
    1970-01-01, in the proleptic Gregorian calendar of [datetime.date]. *)
Definition civil_from_days (days : Z) : Z * Z * Z :=
  let z := days + 719468 in
  let era := z / 146097 in
  let doe := z - era * 146097 in
  let yoe := (doe - doe / 1460 + doe / 36524 - doe / 146096) / 365 in
  let y := yoe + era * 400 in
  let doy := doe - (365 * yoe + yoe / 4 - yoe / 100) in
  let mp := (5 * doy + 2) / 153 in
  let d := doy - (153 * mp + 2) / 5 + 1 in
  let m := if mp <? 10 then mp + 3 else mp - 9 in
  (if m <=? 2 then y + 1 else y, m, d).

(** [date.year] *)
Definition year_of (days : Z) : Z := (civil_from_days days).1.1.

(** [int(ts.strftime('%Y%m%d'))] *)
Definition yyyymmdd (t : Z) : Z :=
  let '(y, m, d) := civil_from_days (date_of t) in y * 10000 + m * 100 + d.

(* ===================================================================== *)
(** ** The fact loading script ([load_fact_sales_incremental.py]) *)
(* ===================================================================== *)

Module LoadFactSales.

(** A line of the retail extract, after [read_csv] and [to_datetime]
    with [errors='coerce']. *)
Record RetailRow : Type := mkRetailRow {
  InvoiceNo : string;
  StockCode : string;
  Quantity : Z;
  InvoiceDate : option Z;
  UnitPrice : Q;
  CustomerID : option Z;
  Country : string
}.

(** A row handed to [to_sql('fact_sales', ...)]. *)
Record FactRow : Type := mkFactRow {
  f_customer_key : Z;
  f_product_key : Z;
  f_store_key : Z;
  time_key : Z;
  quantity_sold : Z;
  sales_amount : Q;
  discount_amount : Q
}.

(** The part of the warehouse the script reads and writes. *)
Record Warehouse : Type := mkWarehouse {
  dim_product : list (string * Z);
  dim_customer : list DimCustomerRow;
  dim_store : list (string * Z);
  fact_sales : list FactRow;
  etl_rejected_records : list Row;
  watermarks : list WatermarkManager.WatermarkRow
}.

(** What the script prints. *)
Inductive message : Type :=
  | MsgLastLoadedDate (d : option Z)
  | MsgLoadingAfter (d : Z)
  | MsgNoNewRecords
  | MsgNewRecords (n : Z)
  | MsgLoadedKeys (products customers stores : Z)
  | MsgPrepared (n : Z)
  | MsgLoaded (n : Z)
  | MsgWatermarkUpdated (d : Z) (max_invoice : string).

(** [dict(pairs)]: a later pair replaces an earlier one with its key. *)
Definition dict `{Countable K} {V : Type} (pairs : list (K * V)) : gmap K V :=
  fold_left (fun m kv => <[kv.1 := kv.2]> m) pairs ∅.

(** [SELECT customer_id, customer_key FROM dim_customer
     WHERE is_current = TRUE] *)
Definition current_customers (table : list DimCustomerRow) : list (Z * Z) :=
  map (fun r => (customer_id r, customer_key r)) (List.filter is_current table).

(** The cleaning of lines 32-34. *)
Definition cleaned (r : RetailRow) : bool :=
  match CustomerID r, InvoiceDate r with
  | Some _, Some _ => 0 <? Quantity r
  | _, _ => false
  end.

Definition invoice_day (r : RetailRow) : option Z := date_of <$> InvoiceDate r.

(** [df['InvoiceDate'].dt.date > last_date] *)
Definition after_day (last_date : Z) (r : RetailRow) : bool :=
  match invoice_day r with Some d => last_date <? d | None => false end.

(** The rows that are left of the extract at line 40. *)
Definition new_rows (last_date : option Z) (extract : list RetailRow)
  : list RetailRow :=
  let df := List.filter cleaned extract in
  match last_date with
  | Some d => if 1900 <? year_of d then List.filter (after_day d) df else df
  | None => df
  end.

(** The body of the loop that builds [fact_rows]: [None] is the
    [continue]. *)
Definition fact_row (product_map : gmap string Z) (customer_map : gmap Z Z)
    (store_map : gmap string Z) (row : RetailRow) : option FactRow :=
  match CustomerID row, InvoiceDate row with
  | Some cid, Some t =>
      match product_map !! StockCode row, customer_map !! cid,
            store_map !! Country row with
      | Some pk, Some ck, Some sk =>
          Some {| f_customer_key := ck;
                  f_product_key := pk;
                  f_store_key := sk;
                  time_key := yyyymmdd t;
                  quantity_sold := Quantity row;
                  sales_amount := inject_Z (Quantity row) * UnitPrice row;
                  discount_amount := 0 |}
      | _, _, _ => None
      end
  | _, _ => None
  end.

Definition fact_rows (product_map : gmap string Z) (customer_map : gmap Z Z)
    (store_map : gmap string Z) (df : list RetailRow) : list FactRow :=
  omap (fact_row product_map customer_map store_map) df.

(** [series.max()] over dates and over invoice numbers (strings compare
    by code points). *)
Definition max_day (df : list RetailRow) : option Z :=
  fold_left (fun acc r => match invoice_day r with
                          | Some d => opt_max acc d
                          | None => acc
                          end) df None.

Definition str_max (a b : string) : string := if String.leb a b then b else a.

Definition max_invoice (df : list RetailRow) : option string :=
  fold_left (fun acc r => match acc with
                          | Some m => Some (str_max m (InvoiceNo r))
                          | None => Some (InvoiceNo r)
                          end) df None.

(** [load_fact_sales_incremental()], on the extract that was read. *)
Definition load_fact_sales_incremental (extract : list RetailRow)
    (w : Warehouse) : Warehouse * list message :=
  let watermark :=
    WatermarkManager.get_last_watermark (watermarks w) "fact_sales"
      (Some "RETAIL_OLTP") in
  let last_date := watermark ≫= WatermarkManager.date in
  let df := new_rows last_date extract in
  let log1 :=
    MsgLastLoadedDate last_date ::
    match last_date with
    | Some d => if 1900 <? year_of d then [MsgLoadingAfter d] else []
    | None => []
    end in
  match df with
  | [] => (w, log1 ++ [MsgNoNewRecords])
  | _ =>
      let product_map := dict (dim_product w) in
      let customer_map := dict (current_customers (dim_customer w)) in
      let store_map := dict (dim_store w) in
      let rows_ := fact_rows product_map customer_map store_map df in
      let log2 :=
        log1 ++ [MsgNewRecords (Z.of_nat (length df));
                 MsgLoadedKeys (Z.of_nat (size product_map))
                               (Z.of_nat (size customer_map))
                               (Z.of_nat (size store_map));
                 MsgPrepared (Z.of_nat (length rows_))] in
      match rows_ with
      | [] => (w, log2)
      | _ =>
          let store' :=
            WatermarkManager.update_watermark (watermarks w) "fact_sales"
              (Some "RETAIL_OLTP") None (max_day df) (max_invoice df)
              (Z.of_nat (length rows_)) 0 in
          (mkWarehouse (dim_product w) (dim_customer w) (dim_store w)
                       (fact_sales w ++ rows_) (etl_rejected_records w) store',
           log2 ++ [MsgLoaded (Z.of_nat (length rows_))]
                ++ match max_day df, max_invoice df with
                   | Some d, Some i => [MsgWatermarkUpdated d i]
                   | _, _ => []
                   end)
      end
  end.

End LoadFactSales.

(* ===================================================================== *)
(** ** Statistical anomaly detection ([advanced_data_quality.py]) *)
(* ===================================================================== *)

Module AdvancedDataQuality.

Inductive status : Type := PASS | WARNING | FAIL.

(** The dictionary returned by [detect_numerical_anomalies]. *)
Inductive result : Type :=
  | Skip (reason : string)
  | Report (total_records : Z) (anomaly_count : Z) (anomaly_percentage : Q)
           (st : status).

(** [self.quality_results] *)
Record QualityResults : Type := mkQualityResults {
  checks_passed : Z;
  checks_failed : Z;
  checks_warning : Z;
  details : list result
}.

Definition Qsum (l : list Q) : Q := fold_right Qplus (0 # 1)%Q l.

Definition count (l : list Q) : Q := inject_Z (Z.of_nat (length l)).

(** [np.mean(values)] *)
Definition mean (values : list Q) : Q := (Qsum values / count values)%Q.

(** The square of [np.std(values)]: the population variance. *)
Definition variance (values : list Q) : Q :=
  let m := mean values in
  (Qsum (map (fun v => (v - m) * (v - m)) values) / count values)%Q.

(** [np.abs((v - mean_val) / std_val) > z_threshold], for a standard
    deviation that is not zero.  The standard deviation is the positive
    square root of the variance, so the test is decided on the squares:
    a negative threshold is exceeded by every score, and otherwise
    [|v - mean| / std > z] exactly when [(v - mean)^2 > z^2 * std^2]. *)
Definition is_anomaly (mean_val var_val z_threshold v : Q) : bool :=
  if negb (Qle_bool 0 z_threshold) then true
  else negb (Qle_bool ((v - mean_val) * (v - mean_val))
                      (z_threshold * z_threshold * var_val)).

(** [round(x, 2)]: to the nearest hundredth, halves to the even one. *)
Definition round_half_even (x : Q) : Z :=
  let f := Qfloor x in
  match ((x - inject_Z f) ?= (1 # 2))%Q with
  | Lt => f
  | Gt => f + 1
  | Eq => if Z.even f then f else f + 1
  end.

Definition round2 (x : Q) : Q := (round_half_even (x * 100) # 100)%Q.

(** ['PASS' if p < 1 else 'WARNING' if p < 5 else 'FAIL'] *)
Definition band (anomaly_percentage : Q) : status :=
  if negb (Qle_bool 1 anomaly_percentage) then PASS
  else if negb (Qle_bool 5 anomaly_percentage) then WARNING
  else FAIL.

Definition record_result (r : result) (q : QualityResults) : QualityResults :=
  match r with
  | Report _ _ _ PASS =>
      mkQualityResults (checks_passed q + 1) (checks_failed q)
                       (checks_warning q) (details q ++ [r])
  | Report _ _ _ WARNING =>
      mkQualityResults (checks_passed q) (checks_failed q)
                       (checks_warning q + 1) (details q ++ [r])
  | Report _ _ _ FAIL =>
      mkQualityResults (checks_passed q) (checks_failed q + 1)
                       (checks_warning q) (details q ++ [r])
  | Skip _ => q
  end.

(** [detect_numerical_anomalies], on the non-null values of the column. *)
Definition detect_numerical_anomalies (values : list Q) (z_threshold : Q)
    (q : QualityResults) : result * QualityResults :=
  match values with
  | [] => (Skip "No data", q)
  | _ =>
      let mean_val := mean values in
      let var_val := variance values in
      if Qeq_bool var_val 0 then (Skip "No variation in data", q)
      else
        let anomalies := List.filter (is_anomaly mean_val var_val z_threshold) values in
        let anomaly_count := Z.of_nat (length anomalies) in
        let anomaly_percentage :=
          (inject_Z anomaly_count / count values * 100)%Q in
        let r := Report (Z.of_nat (length values)) anomaly_count
                        (round2 anomaly_percentage) (band anomaly_percentage) in
        (r, record_result r q)
  end.

End AdvancedDataQuality.

(* ===================================================================== *)
(** ** Vocabulary of the statements *)
(* ===================================================================== *)

(** Lines 72-116 of [load_fact_sales_incremental] as a computation of its
    own: what a run does once it holds a non-empty batch of new records. *)
Definition fact_load_tail (env : Env) (source_df : DataFrame)
    (source_system : option string) (timestamp_column : string)
    (new_records : DataFrame) : M IncrementalLoader.FactStats :=
  let sorted := sort_values timestamp_column new_records in
  do '(valid_records, rejected_records) <-
       IncrementalLoader.validate env sorted "fact_sales" ;;
  let records_rejected := len rejected_records in
  do records_inserted <-
       (if 0 <? len valid_records
        then run to_sql env "fact_sales" valid_records ;;
             ret (len valid_records)
        else ret 0) ;;
  run (if 0 <? records_rejected
       then IncrementalLoader._log_rejected_records env rejected_records
              "fact_sales" source_system
       else ret tt) ;;
  run call_update_watermark env "fact_sales" source_system
        (ts_max timestamp_column source_df)
        (date_of <$> ts_max timestamp_column source_df) None
        records_inserted records_rejected ;;
  ret (IncrementalLoader.mkFactStats records_inserted records_rejected
         (len sorted)).


(** The order on nullable timestamps and dates: NULL is below everything. *)
Definition opt_le (a b : option Z) : Prop :=
  match a, b with
  | None, _ => True
  | Some x, Some y => x <= y
  | Some _, None => False
  end.

(** The stored date is not later than the day of the stored timestamp. *)
Definition date_not_ahead (wm : WatermarkManager.Watermark) : Prop :=
  forall t d, WatermarkManager.timestamp wm = Some t ->
              WatermarkManager.date wm = Some d -> d <= date_of t.

Section Rejection.

Variable df : DataFrame.




End Rejection.

(** An environment in which nothing fails. *)
Definition no_faults (t : Z) : Env := mkEnv (fun _ => false) t.

(** A sequence of successful fact-mode loads for one source and one
    timestamp column, with the statistics that each load returned. *)
Inductive fact_loads (src : option string) (col : string)
  : DB -> list IncrementalLoader.FactStats -> DB -> Prop :=
  | fact_loads_nil db : fact_loads src col db [] db
  | fact_loads_cons env df db stats db1 l db2 :
      IncrementalLoader.load_fact_sales_incremental env df src col db
        = (Ok stats, db1) ->
      fact_loads src col db1 l db2 ->
      fact_loads src col db (stats :: l) db2.

Definition sum_inserted (l : list IncrementalLoader.FactStats) : Z :=
  fold_right (fun s acc => IncrementalLoader.inserted s + acc) 0 l.

Definition sum_rejected (l : list IncrementalLoader.FactStats) : Z :=
  fold_right (fun s acc => IncrementalLoader.rejected s + acc) 0 l.

(** A frame with the single column [col], holding the given timestamps. *)
Definition frame_of (col : string) (ts : list Z) : DataFrame :=
  mkDataFrame [(col, DDatetime)] (map (fun t => {[ col := Ts t ]}) ts).

(** At most one row per customer is current. *)
Definition one_current (table : list DimCustomerRow) : Prop :=
  forall cid, (length (List.filter (current_of cid) table) <= 1)%nat.

(* ===================================================================== *)
(** ** Sample data *)
(* ===================================================================== *)

Module Samples.

Import WatermarkManager.

(** A watermark row as it is seeded before the first load. *)
Definition seeded : list WatermarkRow :=
  [mkWatermarkRow "fact_sales" (Some "RETAIL_OLTP") None None None 0 0].

Definition oltp : option string := Some "RETAIL_OLTP".

(** Two sales, at seconds 100 and 200. *)
Definition sales : DataFrame := frame_of "transaction_date" [100; 200].

(** One sale on day 2 and one on day 3. *)
Definition sales_day2 : DataFrame := frame_of "InvoiceDate" [172800].
Definition sales_day3 : DataFrame := frame_of "InvoiceDate" [259200].

(** The append to [fact_sales] fails; nothing else does. *)
Definition append_fails : Env :=
  mkEnv (fun op => match op with OpAppend _ => true | _ => false end) 0.

(** A sales frame with a null key, a negative price and a clean row. *)
Definition mixed_sales : DataFrame :=
  mkDataFrame
    [("customer_key", DNumber); ("unit_price", DNumber);
     ("transaction_date", DDatetime)]
    [ {[ "customer_key" := Null; "unit_price" := Num (-(5 # 1));
         "transaction_date" := Ts 100 ]};
      {[ "customer_key" := Num (7 # 1); "unit_price" := Num (-(1 # 2));
         "transaction_date" := Ts 200 ]};
      {[ "customer_key" := Num (8 # 1); "unit_price" := Num (3 # 1);
         "transaction_date" := Ts 300 ]} ].

(** A product feed with one product changed on day 3, and a watermark
    that only has a date, day 5. *)
Definition product_feed : DataFrame :=
  mkDataFrame
    [("product_key", DNumber); ("product_name", DObject);
     ("modified_date", DDatetime)]
    [ {[ "product_key" := Num (1 # 1); "product_name" := Str "Mug";
         "modified_date" := Ts 259200 ]} ].

Definition date_only : list WatermarkRow :=
  [mkWatermarkRow "dim_product" oltp None (Some 5) None 0 0].

(** A customer table in the generic row format, and the same customer
    with another state. *)
Definition customer_ca : Row :=
  {[ "customer_id" := Num (1 # 1); "state" := Str "CA";
     "updated_at" := Ts 100 ]}.

Definition customer_ny : Row :=
  {[ "customer_id" := Num (1 # 1); "state" := Str "NY";
     "updated_at" := Ts 200 ]}.

Definition customer_feed : DataFrame :=
  mkDataFrame
    [("customer_id", DNumber); ("state", DObject); ("updated_at", DDatetime)]
    [customer_ny].

(** The customer K1 of the scenario, current, in California. *)
Definition k1_ca : DimCustomerRow :=
  {| customer_key := 1; customer_id := 1; customer_name := Some "Unknown";
     city := None; state := Some "CA"; email := None; phone := None;
     postal_code := None; age_group := None; customer_segment := None;
     loyalty_tier := None; registration_date := None;
     effective_date := 10; expiry_date := sentinel_expiry;
     is_current := true; dim_source_system := oltp;
     last_updated_source := oltp |}.

Definition k1_incoming (st : string) : LoadCustomerMultisource.MergedCustomer :=
  LoadCustomerMultisource.mkMergedCustomer 1 (PyStr st) (PyStr "RETAIL_OLTP")
    (PyStr "Unknown") PyNone PyNone PyNone PyNone PyNone PyNone PyNone None.

(** The same customer with a demographics row that has no email: pandas
    reads the empty field as [NaN], and [reconcile_customer_data] gives
    the row the source [RETAIL_OLTP]. *)
Definition k1_without_email : LoadCustomerMultisource.MergedCustomer :=
  LoadCustomerMultisource.mkMergedCustomer 1 (PyStr "CA")
    (PyStr "RETAIL_OLTP") (PyStr "Ann") PyNaN (PyStr "555-0100")
    (PyStr "Fresno") (PyStr "93650") (PyStr "25-34") (PyStr "Gold")
    (PyStr "Silver") (Some 100).

(** An extract line and a warehouse that resolves its keys. *)
Definition line (stock : string) (day : Z) : LoadFactSales.RetailRow :=
  LoadFactSales.mkRetailRow "536365" stock 6 (Some (day * seconds_per_day))
    (255 # 100) (Some 1) "United Kingdom".

Definition warehouse (store : list WatermarkRow) : LoadFactSales.Warehouse :=
  LoadFactSales.mkWarehouse [("85123A", 11)] [k1_ca] [("United Kingdom", 21)]
    [] [] store.



End Samples.

(* ===================================================================== *)
(** ** Vocabulary of the further statements *)
(* ===================================================================== *)

(** The tables after [to_sql] appended rows to one of them. *)
Definition appended (table : string) (new_rows : list Row)
    (tabs : gmap string (list Row)) : gmap string (list Row) :=
  <[table := (tabs !!! table) ++ new_rows]> tabs.

(** The tables after the valid records of a fact load were appended
    (nothing is sent for an empty frame). *)
Definition with_valid (valid : DataFrame) (tabs : gmap string (list Row))
  : gmap string (list Row) :=
  if 0 <? len valid then appended "fact_sales" (rows valid) tabs else tabs.

(** The tables after the rejected records were quarantined, when there are
    some and the write does not fail. *)
Definition with_rejected (env : Env) (table_name : string)
    (source_system : option string) (rejected : DataFrame)
    (tabs : gmap string (list Row)) : gmap string (list Row) :=
  if (0 <? len rejected) && negb (fault env OpQuarantine)
  then appended "etl_rejected_records"
         (map (IncrementalLoader.tag_rejected env table_name source_system)
              (rows rejected)) tabs
  else tabs.

(** Ascending timestamps, missing ones last. *)
Definition ts_sorted (col : string) (l : list Row) : Prop :=
  StronglySorted (fun a b => ts_le col a b = true) l.

(** Two environments that agree on everything but the quarantine write. *)
Definition same_but_quarantine (env env' : Env) : Prop :=
  now env' = now env
  /\ forall op, op <> OpQuarantine -> fault env' op = fault env op.

(* ===================================================================== *)
(** ** Further sample data *)
(* ===================================================================== *)

Module MoreSamples.

Import WatermarkManager Samples.

(** Watermarks of two tables for the same source. *)
Definition two_tables : list WatermarkRow := seeded ++ date_only.

(** A watermark that is already at second 300. *)
Definition at_300 : list WatermarkRow :=
  [mkWatermarkRow "fact_sales" oltp (Some 300) (Some 0) None 2 0].

(** The quarantine write fails; nothing else does. *)
Definition quarantine_fails : Env :=
  mkEnv (fun op => match op with OpQuarantine => true | _ => false end) 0.

(** The upsert fails; nothing else does. *)
Definition upsert_fails : Env :=
  mkEnv (fun op => match op with OpUpsert _ => true | _ => false end) 0.


End MoreSamples.

(* ===================================================================== *)
(** ** The queries of the incremental loader ([incremental_load.py]) *)
(* ===================================================================== *)

(** [try: c  except Exception as e: handler(e)] *)
Definition try_except {A : Type} (c : M A) (handler : exn -> M A) : M A :=
  fun db => match c db with
            | (Ok a, db') => (Ok a, db')
            | (Raised e, db') => handler e db'
            end.

Module LoaderQueries.

Import WatermarkManager IncrementalLoader.

(** [check_for_new_data] (lines 347-371): the pair
    [(has_new_data, count)]. *)
Definition check_for_new_data (env : Env) (source_df : DataFrame)
    (table_name timestamp_column : string) (source_system : option string)
  : M (bool * Z) :=
  try_except
    (do watermark <- call_get_last_watermark env table_name source_system ;;
     match watermark with
     | Some {| timestamp := Some last_timestamp |} =>
         run require_column source_df timestamp_column ;;
         let new_records :=
           after_timestamp timestamp_column last_timestamp source_df in
         ret (0 <? len new_records, len new_records)
     | _ => ret (true, len source_df)
     end)
    (fun _ => ret (false, 0)).

(** The dictionary returned by [get_load_statistics]. *)
Record LoadStatistics : Type := mkLoadStatistics {
  stat_table_name : string;
  stat_source_system : option string;
  stat_last_loaded_timestamp : option Z;
  stat_last_loaded_date : option Z;
  total_records_processed : Z;
  total_records_rejected : Z
}.

(** [get_load_statistics] (lines 373-398), for a table that is named. *)
Definition get_load_statistics (env : Env) (table_name : string)
    (source_system : option string) : M (option LoadStatistics) :=
  try_except
    (do watermark <- call_get_last_watermark env table_name source_system ;;
     match watermark with
     | Some wm =>
         ret (Some {| stat_table_name := table_name;
                      stat_source_system := source_system;
                      stat_last_loaded_timestamp := timestamp wm;
                      stat_last_loaded_date := date wm;
                      total_records_processed := wm_records_processed wm;
                      total_records_rejected := wm_records_rejected wm |})
     | None => ret None
     end)
    (fun _ => ret None).

End LoaderQueries.

(* ===================================================================== *)
(** ** More checks of the quality gate ([advanced_data_quality.py]) *)
(* ===================================================================== *)

Definition upper_ascii (c : Ascii.ascii) : Ascii.ascii :=
  let n := Ascii.N_of_ascii c in
  if ((97 <=? n) && (n <=? 122))%N then Ascii.ascii_of_N (n - 32) else c.

(** [str.upper()] *)
Fixpoint upper (s : string) : string :=
  match s with
  | EmptyString => EmptyString
  | String c s' => String (upper_ascii c) (upper s')
  end.

(** Two values that [DISTINCT], [GROUP BY] and the join keys of
    [DataFrame.merge] take for one: equal, or both missing. *)
Definition same_value (a b : cell) : bool :=
  match a, b with
  | Null, Null => true
  | _, _ => IncrementalLoader.sql_eq a b
  end.

Module QualityChecks.

Import IncrementalLoader.

Abbreviation status := AdvancedDataQuality.status.
Abbreviation PASS := AdvancedDataQuality.PASS.
Abbreviation WARNING := AdvancedDataQuality.WARNING.
Abbreviation FAIL := AdvancedDataQuality.FAIL.

(** A table as the checks see it: the columns the inspector lists, with
    the names of their types, and the rows. *)
Record Table : Type := mkTable {
  t_columns : list (string * string);
  t_rows : list Row
}.

(** [SELECT col FROM table]; [None] stands for the exception that a
    table or a column that does not exist raises. *)
Definition column (db : gmap string Table) (table col : string)
  : option (list cell) :=
  match db !! table with
  | Some t =>
      if bool_decide (col ∈ (t_columns t).*1)
      then Some (map (fun r => cell_at r col) (t_rows t))
      else None
  | None => None
  end.

(** The dictionaries the checks return. *)
Inductive report : Type :=
  | Error
  | TableNotFound
  | ReferentialIntegrity (relationship : string) (orphaned_records : Z)
      (sample_orphaned_keys : list cell) (st : status)
  | SchemaValidation (table : string) (expected_columns actual_columns : Z)
      (missing_columns extra_columns : list string)
      (type_mismatches : list (string * string * string)) (st : status)
  | DuplicateDetection (table : string) (unique_columns : list string)
      (duplicate_groups : Z) (sample_duplicates : list (list cell * Z))
      (st : status).

(** [self.quality_results], with the reports of these checks as its
    details. *)
Record QualityResults : Type := mkQualityResults {
  checks_passed : Z;
  checks_failed : Z;
  checks_warning : Z;
  details : list report
}.

Definition status_of (r : report) : option status :=
  match r with
  | Error => None
  | TableNotFound => Some FAIL
  | ReferentialIntegrity _ _ _ st => Some st
  | SchemaValidation _ _ _ _ _ _ st => Some st
  | DuplicateDetection _ _ _ _ st => Some st
  end.

Definition is_error (r : report) : bool :=
  match r with Error => true | _ => false end.

Definition has_status (st : status) (r : report) : bool :=
  match status_of r, st with
  | Some PASS, PASS | Some WARNING, WARNING | Some FAIL, FAIL => true
  | _, _ => false
  end.

(** How many of the reports have the status. *)
Definition count_status (st : status) (results : list report) : Z :=
  Z.of_nat (length (List.filter (has_status st) results)).

(** [self.quality_results['checks_...'] += 1] *)
Definition counted (st : status) (q : QualityResults) : QualityResults :=
  match st with
  | PASS => mkQualityResults (checks_passed q + 1) (checks_failed q)
              (checks_warning q) (details q)
  | WARNING => mkQualityResults (checks_passed q) (checks_failed q)
                 (checks_warning q + 1) (details q)
  | FAIL => mkQualityResults (checks_passed q) (checks_failed q + 1)
              (checks_warning q) (details q)
  end.

(** [self.quality_results['details'].append(result)] *)
Definition appended_detail (r : report) (q : QualityResults)
  : QualityResults :=
  mkQualityResults (checks_passed q) (checks_failed q) (checks_warning q)
    (details q ++ [r]).

(** *** Referential integrity *)

(** [SELECT DISTINCT]: the values in the order of their first
    occurrence (SQL promises no order). *)
Fixpoint distinct (keys : list cell) : list cell :=
  match keys with
  | [] => []
  | k :: keys' =>
      k :: List.filter (fun x => negb (same_value k x)) (distinct keys')
  end.

(** The foreign keys of the rows of
    [f LEFT JOIN d ON f.fk = d.pk WHERE d.pk IS NULL]: a fact row
    without a partner is joined once, to an all-[NULL] dimension row; a
    fact row with partners is joined to rows whose key is not [NULL]. *)
Definition orphaned (fact_keys dim_keys : list cell) : list cell :=
  List.filter (fun k => negb (existsb (sql_eq k) dim_keys)) fact_keys.

Definition check_referential_integrity (db : gmap string Table)
    (fact_table dim_table fact_fk dim_pk : string) (q : QualityResults)
  : report * QualityResults :=
  match column db fact_table fact_fk, column db dim_table dim_pk with
  | Some fact_keys, Some dim_keys =>
      let orphaned_count :=
        Z.of_nat (length (orphaned fact_keys dim_keys)) in
      let samples :=
        if 0 <? orphaned_count
        then take 10 (distinct (orphaned fact_keys dim_keys))
        else [] in
      let st := if orphaned_count =? 0 then PASS else FAIL in
      let result :=
        ReferentialIntegrity
          (fact_table +:+ "." +:+ fact_fk +:+ " -> "
             +:+ dim_table +:+ "." +:+ dim_pk)
          orphaned_count samples st in
      (result, appended_detail result (counted st q))
  | _, _ => (Error, q)
  end.

Definition relationships : list (string * string * string * string) :=
  [ ("fact_sales", "dim_customer", "customer_key", "customer_key");
    ("fact_sales", "dim_product", "product_key", "product_key");
    ("fact_sales", "dim_store", "store_key", "store_key");
    ("fact_sales", "dim_time", "time_key", "time_key") ].

Definition check_all_referential_integrity (db : gmap string Table)
    (q : QualityResults) : list report * QualityResults :=
  fold_left
    (fun '(results, q) '(fact, dim, fk, pk) =>
       let '(result, q') := check_referential_integrity db fact dim fk pk q in
       (results ++ [result], q'))
    relationships ([], q).

(** *** Schema validation *)

(** [expected_type not in actual_type and actual_type not in
    expected_type], negated. *)
Definition type_matches (expected actual : string) : bool :=
  contains (upper expected) (upper actual)
  || contains (upper actual) (upper expected).

(** [{col['name']: str(col['type']) for col in actual_columns}] *)
Definition col_dict (cols : list (string * string)) : gmap string string :=
  fold_left (fun m c => <[c.1 := c.2]> m) cols ∅.

Definition validate_schema (db : gmap string Table) (table_name : string)
    (expected_columns : gmap string string) (q : QualityResults)
  : report * QualityResults :=
  match db !! table_name with
  | None => (TableNotFound, counted FAIL q)
  | Some t =>
      let actual_col_dict := col_dict (t_columns t) in
      let missing_columns :=
        elements (dom expected_columns ∖ dom actual_col_dict) in
      let extra_columns :=
        elements (dom actual_col_dict ∖ dom expected_columns) in
      let type_mismatches :=
        omap (fun col_name =>
                let expected_type := upper (expected_columns !!! col_name) in
                let actual_type := upper (actual_col_dict !!! col_name) in
                if negb (contains expected_type actual_type)
                   && negb (contains actual_type expected_type)
                then Some (col_name, expected_type, actual_type)
                else None)
             (elements (dom expected_columns ∩ dom actual_col_dict)) in
      let st :=
        match missing_columns, type_mismatches with
        | [], [] => PASS
        | _, _ => FAIL
        end in
      let result :=
        SchemaValidation table_name (Z.of_nat (size expected_columns))
          (Z.of_nat (size actual_col_dict)) missing_columns extra_columns
          type_mismatches st in
      (result, appended_detail result (counted st q))
  end.

(** *** Duplicate detection *)

Definition key_of (unique_columns : list string) (r : Row) : list cell :=
  map (cell_at r) unique_columns.

Fixpoint same_key (a b : list cell) : bool :=
  match a, b with
  | [], [] => true
  | x :: a', y :: b' => same_value x y && same_key a' b'
  | _, _ => false
  end.

(** [GROUP BY ... COUNT( * )]: one more row in the group of its key. *)
Fixpoint add_to_groups (k : list cell) (groups : list (list cell * Z))
  : list (list cell * Z) :=
  match groups with
  | [] => [(k, 1)]
  | (k', n) :: groups' =>
      if same_key k' k then (k', n + 1) :: groups'
      else (k', n) :: add_to_groups k groups'
  end.

Definition group_by (keys : list (list cell)) : list (list cell * Z) :=
  fold_left (fun groups k => add_to_groups k groups) keys [].

(** [ORDER BY COUNT( * ) DESC]; groups of one size stay in the order
    they have (SQL promises none). *)
Fixpoint insert_desc (g : list cell * Z) (l : list (list cell * Z))
  : list (list cell * Z) :=
  match l with
  | [] => [g]
  | h :: l' => if h.2 <? g.2 then g :: h :: l' else h :: insert_desc g l'
  end.

Definition order_desc (l : list (list cell * Z)) : list (list cell * Z) :=
  fold_right insert_desc [] l.

(** The rows the query of [check_duplicates] returns. *)
Definition duplicates_query (unique_columns : list string)
    (table_rows : list Row) : list (list cell * Z) :=
  take 10
    (order_desc
       (List.filter (fun g => 1 <? g.2)
          (group_by (map (key_of unique_columns) table_rows)))).

Definition check_duplicates (db : gmap string Table) (table_name : string)
    (unique_columns : list string) (q : QualityResults)
  : report * QualityResults :=
  match db !! table_name, unique_columns with
  | Some t, _ :: _ =>
      if forallb (fun c => bool_decide (c ∈ (t_columns t).*1)) unique_columns
      then
        let duplicates := duplicates_query unique_columns (t_rows t) in
        let duplicate_count := Z.of_nat (length duplicates) in
        let st := if duplicate_count =? 0 then PASS else FAIL in
        let result :=
          DuplicateDetection table_name unique_columns duplicate_count
            (take 5 duplicates) st in
        (result, appended_detail result (counted st q))
      else (Error, q)
  | _, _ => (Error, q)
  end.

End QualityChecks.

(** The key columns of the warehouse of the fact script, as the orphan
    query reads them. *)
Definition keys_of {A : Type} (key : A -> Z) (table : list A) : list cell :=
  map (fun a => Num (inject_Z (key a))) table.

(** No two values of the list are the same for [DISTINCT]. *)
Definition all_different (l : list cell) : Prop :=
  StronglySorted (fun a b => same_value a b = false) l.

(* ===================================================================== *)
(** ** Reconciling the two customer sources
       ([load_customer_multisource.py]) *)
(* ===================================================================== *)

Module ReconcileCustomers.

Import IncrementalLoader.

(** The dtype of a column, if the frame has it. *)
Definition dtype_at (df : DataFrame) (col : string) : option dtype :=
  snd <$> List.find (fun c => bool_decide (c.1 = col)) (columns df).

Definition same_dtype (a b : dtype) : bool :=
  match a, b with
  | DNumber, DNumber | DObject, DObject | DDatetime, DDatetime => true
  | _, _ => false
  end.

(** *** [left.merge(right, on=on, how='left', suffixes=...)] *)

(** The columns, the key apart, that the two frames share. *)
Definition overlap (on : string) (left right : DataFrame) : list string :=
  List.filter (fun c => negb (bool_decide (c = on))
                        && bool_decide (c ∈ col_names right))
              (col_names left).

Definition suffixed (suffix : string) (shared : list string) (c : string)
  : string :=
  if bool_decide (c ∈ shared) then c +:+ suffix else c.

Definition without_key (on : string) (cols : list (string * dtype))
  : list (string * dtype) :=
  List.filter (fun c => negb (bool_decide (c.1 = on))) cols.

Definition merged_columns (on lsuffix rsuffix : string)
    (left right : DataFrame) : list (string * dtype) :=
  let shared := overlap on left right in
  map (fun c => (suffixed lsuffix shared c.1, c.2)) (columns left)
  ++ map (fun c => (suffixed rsuffix shared c.1, c.2))
         (without_key on (columns right)).

(** The cells of one side of a merged row, under their new labels. *)
Definition relabel (suffix : string) (shared cols : list string)
    (value : string -> cell) : Row :=
  list_to_map (map (fun c => (suffixed suffix shared c, value c)) cols).

(** A left row joined to a right row, or to none. *)
Definition joined (on lsuffix rsuffix : string) (left right : DataFrame)
    (l : Row) (r : option Row) : Row :=
  let shared := overlap on left right in
  relabel lsuffix shared (col_names left) (cell_at l)
  ∪ relabel rsuffix shared (without_key on (columns right)).*1
      (match r with
       | Some r => cell_at r
       | None => fun _ => Null
       end).

(** The right rows with the key of a left row, in their order. *)
Definition partners (on : string) (right : DataFrame) (l : Row) : list Row :=
  List.filter (fun r => same_value (cell_at l on) (cell_at r on)) (rows right).

(** The left merge: the left rows in their order, each joined to its
    partners, or kept alone with missing values on the right.  A key
    column that one frame lacks is a [KeyError], key columns of two
    kinds a [ValueError]. *)
Definition merge_left (on lsuffix rsuffix : string)
    (left right : DataFrame) : outcome DataFrame :=
  match dtype_at left on, dtype_at right on with
  | Some a, Some b =>
      if same_dtype a b then
        Ok (mkDataFrame
              (merged_columns on lsuffix rsuffix left right)
              (flat_map
                 (fun l =>
                    match partners on right l with
                    | [] => [joined on lsuffix rsuffix left right l None]
                    | rs => map (fun r => joined on lsuffix rsuffix left
                                            right l (Some r)) rs
                    end)
                 (rows left)))
      else Raised (ValueError on)
  | _, _ => Raised (KeyError on)
  end.

(** *** [reconcile_customer_data] *)

(** An entry of [reconciliation_log]. *)
Record Conflict : Type := mkConflict {
  c_customer_id : cell;
  field_name : string;
  source1_value : cell;
  source2_value : cell;
  resolved_value : cell;
  resolution_rule : string
}.

(** [pd.notna(v)] *)
Definition notna (c : cell) : bool := negb (isnull c).

(** [row.get(label, default)] on a row of [df] *)
Definition get (df : DataFrame) (row : Row) (label : string)
    (default : cell) : cell :=
  if has_column df label then cell_at row label else default.

(** [a != b] for a value [a] that is not missing. *)
Definition differs_from (a b : cell) : bool := negb (sql_eq a b).

(** The body of the loop over [merged.iterrows()]. *)
Definition conflict_of (merged : DataFrame) (row : Row) : option Conflict :=
  if notna (get merged row "Country" Null)
     && notna (get merged row "city" Null)
  then
    if differs_from (cell_at row "Country")
         (get merged row "state_oltp" (cell_at row "Country"))
    then Some {| c_customer_id := cell_at row "customer_id";
                 field_name := "country";
                 source1_value := get merged row "state_oltp" Null;
                 source2_value := cell_at row "Country";
                 resolved_value := cell_at row "Country";
                 resolution_rule := "OLTP_PRIORITY_RECENT_TRANSACTION" |}
    else None
  else None.

(** [df[name] = df.apply(value, axis=1)]: a new column goes last, an
    old one keeps its place. *)
Definition assign (name : string) (dt : dtype) (value : Row -> cell)
    (df : DataFrame) : DataFrame :=
  mkDataFrame
    (if has_column df name
     then map (fun c => if bool_decide (c.1 = name) then (name, dt) else c)
              (columns df)
     else columns df ++ [(name, dt)])
    (map (fun r => <[name := value r]> r) (rows df)).

(** [df[name] = df[name].fillna(v)] *)
Definition fillna (name : string) (v : cell) (df : DataFrame) : DataFrame :=
  mkDataFrame (columns df)
    (map (fun r => if isnull (cell_at r name) then <[name := v]> r else r)
         (rows df)).

Definition reconcile_customer_data (oltp_data demographics_data : DataFrame)
  : outcome (DataFrame * list Conflict) :=
  match merge_left "customer_id" "_oltp" "_demo" oltp_data
          demographics_data with
  | Raised e => Raised e
  | Ok merged =>
      let reconciliation_log := omap (conflict_of merged) (rows merged) in
      let merged1 :=
        assign "state" DObject
          (fun x => if notna (get merged x "Country" Null)
                    then cell_at x "Country"
                    else get merged x "state_oltp" Null)
          merged in
      if has_column merged1 "customer_name" then
        let merged2 := fillna "customer_name" (Str "Unknown") merged1 in
        let merged3 :=
          assign "source_system" DObject
            (fun x => if notna (get merged2 x "email" Null)
                      then Str "MULTI_SOURCE" else Str "RETAIL_OLTP")
            merged2 in
        Ok (merged3, reconciliation_log)
      else Raised (KeyError "customer_name")
  end.

End ReconcileCustomers.

(** Sample data for the quality gate and for the reconciliation. *)
Module GateSamples.

Import QualityChecks.

(** Two sales of one day, the second for a customer that the dimension
    does not have. *)
Definition shop : gmap string Table :=
  {[ "fact_sales" :=
       mkTable [("customer_key", "INTEGER"); ("time_key", "INTEGER")]
         [ {[ "customer_key" := Num (1 # 1);
              "time_key" := Num (20240101 # 1) ]};
           {[ "customer_key" := Num (7 # 1);
              "time_key" := Num (20240101 # 1) ]} ];
     "dim_customer" :=
       mkTable [("customer_key", "INTEGER"); ("state", "VARCHAR(50)")]
         [ {[ "customer_key" := Num (1 # 1); "state" := Str "CA" ]} ] ]}.

Definition no_results : QualityResults := mkQualityResults 0 0 0 [].

(** Two customers seen in the sales, and the demographics of the first
    one. *)
Definition customers_oltp : DataFrame :=
  mkDataFrame [("customer_id", DNumber); ("Country", DObject)]
    [ {[ "customer_id" := Num (1 # 1); "Country" := Str "United Kingdom" ]};
      {[ "customer_id" := Num (2 # 1); "Country" := Str "France" ]} ].

Definition df_demo : DataFrame :=
  mkDataFrame
    [("customer_id", DNumber); ("customer_name", DObject);
     ("email", DObject); ("city", DObject); ("state", DObject)]
    [ {[ "customer_id" := Num (1 # 1); "customer_name" := Str "Ann";
         "email" := Str "ann@example.org"; "city" := Str "Dover";
         "state" := Str "Kent" ]} ].

End GateSamples.

(* ===================================================================== *)
(** ** Substrings *)
(* ===================================================================== *)

Section Substrings.

Lemma prefix_spec sub s :
  String.prefix sub s = true <-> exists b, s = String.append sub b.
Proof.
  revert s. induction sub as [|c sub IH]; intros s; simpl.
  - split; [intros _; by exists s|intros _; by destruct s].
  - destruct s as [|c' s]; [split; [done|by intros [? ?]]|].
    simpl. destruct (Ascii.ascii_dec c c') as [->|Hne].
    + rewrite IH. split; intros [b Hb]; exists b; [by rewrite Hb|].
      by injection Hb.
    + split; [done|]. intros [b Hb]. injection Hb as -> _. done.
Qed.

(** [contains sub s] is Python's [sub in s]. *)
Lemma contains_spec sub s :
  contains sub s = true
  <-> exists a b, s = String.append a (String.append sub b).
Proof.
  induction s as [|c s IH]; cbn [contains]; rewrite orb_true_iff, prefix_spec.
  - split.
    + intros [[b Hb]|?]; [|done]. by exists EmptyString, b.
    + intros (a&b&Hab). left. destruct a; [by exists b|done].
  - rewrite IH. split.
    + intros [[b Hb]|(a&b&Hab)].
      * by exists EmptyString, b.
      * exists (String c a), b. simpl. by rewrite Hab.
    + intros (a&b&Hab). destruct a as [|c' a]; simpl in Hab.
      * left. by exists b.
      * right. injection Hab as _ ->. by exists a, b.
Qed.

(** A column is amount-like when its lower-cased name has [amount],
    [quantity] or [price] as a substring. *)
Lemma amount_like_spec col :
  IncrementalLoader.amount_like col = true
  <-> exists word a b,
        word ∈ ["amount"; "quantity"; "price"]
        /\ lower col = String.append a (String.append word b).
Proof.
  unfold IncrementalLoader.amount_like.
  rewrite !orb_true_iff, !contains_spec. split.
  - intros [[(a&b&H)|(a&b&H)]|(a&b&H)].
    + exists "amount", a, b. split; [|done]. by left.
    + exists "quantity", a, b. split; [|done]. right. by left.
    + exists "price", a, b. split; [|done]. right. right. by left.
  - intros (word&a&b&Hw&H).
    apply elem_of_cons in Hw as [->|Hw]; [left; left; by exists a, b|].
    apply elem_of_cons in Hw as [->|Hw]; [left; right; by exists a, b|].
    apply list_elem_of_singleton in Hw as ->. right. by exists a, b.
Qed.

End Substrings.
(* ===================================================================== *)
(** ** Lists: masks and their two sides *)
(* ===================================================================== *)

Section Masks.

Context {A : Type}.
Implicit Types (p : A -> bool) (l : list A).

Lemma filter_split_perm p l :
  List.filter p l ++ List.filter (fun x => negb (p x)) l ≡ₚ l.
Proof.
  induction l as [|x l IH]; simpl; [done|].
  destruct (p x); simpl.
  - by f_equiv.
  - rewrite <- Permutation_middle. by f_equiv.
Qed.

Lemma filter_split_length p l :
  (length (List.filter p l) + length (List.filter (fun x => negb (p x)) l)
   = length l)%nat.
Proof.
  rewrite <- length_app. apply Permutation_length, filter_split_perm.
Qed.

Lemma elem_of_filter_bool p l x :
  x ∈ List.filter p l <-> x ∈ l /\ p x = true.
Proof. rewrite !list_elem_of_In. apply filter_In. Qed.

Lemma existsb_false_elem p l x :
  existsb p l = false -> x ∈ l -> p x = false.
Proof.
  intros He Hx. destruct (p x) eqn:Hp; [|done].
  rewrite <- He. symmetry. apply existsb_exists.
  exists x. split; [by apply list_elem_of_In|done].
Qed.

End Masks.

(* ===================================================================== *)
(** ** The record validator *)
(* ===================================================================== *)

Section Validator.

Import IncrementalLoader.

Variable df : DataFrame.








End Validator.

(* ===================================================================== *)
(** ** Selecting the new records *)
(* ===================================================================== *)

Section NewRecords.

Import IncrementalLoader.

Lemma len_zero df : (len df =? 0) = true <-> rows df = [].
Proof.
  unfold len. rewrite Z.eqb_eq. destruct (rows df); simpl; [done|].
  split; [lia|done].
Qed.

Lemma len_nonneg df : 0 <= len df.
Proof. unfold len. lia. Qed.

Lemma len_pos df : (0 <? len df) = true <-> rows df <> [].
Proof.
  unfold len. rewrite Z.ltb_lt. destruct (rows df); simpl; [|split; [done|lia]].
  split; [lia|done].
Qed.

Lemma ts_gt_spec c last :
  ts_gt c last = true <-> exists t, c = Ts t /\ last < t.
Proof.
  unfold ts_gt. destruct c; simpl; try (split; [done|by intros (?&?&?)]).
  rewrite Z.ltb_lt. split; [eauto|]. by intros (?&[= <-]&?).
Qed.

Lemma date_gt_spec c last_date :
  date_gt c last_date = true <-> exists t, c = Ts t /\ last_date < date_of t.
Proof.
  unfold date_gt. destruct c; simpl; try (split; [done|by intros (?&?&?)]).
  rewrite Z.ltb_lt. split; [eauto|]. by intros (?&[= <-]&?).
Qed.

Lemma elem_of_after_timestamp col last df r :
  r ∈ rows (after_timestamp col last df)
  <-> r ∈ rows df /\ exists t, cell_at r col = Ts t /\ last < t.
Proof.
  unfold after_timestamp, select; simpl.
  by rewrite elem_of_filter_bool, ts_gt_spec.
Qed.

Lemma elem_of_after_date col last_date df r :
  r ∈ rows (after_date col last_date df)
  <-> r ∈ rows df /\ exists t, cell_at r col = Ts t /\ last_date < date_of t.
Proof.
  unfold after_date, select; simpl.
  by rewrite elem_of_filter_bool, date_gt_spec.
Qed.

(** Selecting the new records never touches the database. *)
Lemma new_records_fact_db wm df col db res db' :
  new_records_fact wm df col db = (res, db') -> db' = db.
Proof.
  unfold new_records_fact, require_column, bind, ret, raise.
  destruct wm as [[[t|] [d|] ? ? ?]|]; destruct (has_column df col);
    by intros [= <- <-].
Qed.

Lemma new_records_dimension_db wm df col db res db' :
  new_records_dimension wm df col db = (res, db') -> db' = db.
Proof.
  unfold new_records_dimension, ret.
  destruct wm as [[[t|] ? ? ? ?]|]; by intros [= <- <-].
Qed.

(** The rows of a selection are rows of the source. *)
Lemma new_records_fact_incl wm df col db new r :
  new_records_fact wm df col db = (Ok new, db) ->
  r ∈ rows new -> r ∈ rows df.
Proof.
  unfold new_records_fact, require_column, bind, ret, raise.
  destruct wm as [[[t|] [d|] ? ? ?]|]; destruct (has_column df col);
    intros [= <-]; try done.
  all: try by intros [? _]%elem_of_after_timestamp.
  all: by intros [? _]%elem_of_after_date.
Qed.

Lemma new_records_fact_columns wm df col db new :
  new_records_fact wm df col db = (Ok new, db) -> columns new = columns df.
Proof.
  unfold new_records_fact, require_column, bind, ret, raise.
  destruct wm as [[[t|] [d|] ? ? ?]|]; destruct (has_column df col);
    by intros [= <-].
Qed.

End NewRecords.

(* ===================================================================== *)
(** ** The maximum of a timestamp column *)
(* ===================================================================== *)

Section TsMax.

Variable col : string.

Let step (acc : option Z) (r : Row) : option Z :=
  match ts_of (cell_at r col) with
  | Some t => opt_max acc t
  | None => acc
  end.

Lemma fold_ts_max_ge l m :
  exists m', fold_left step l (Some m) = Some m' /\ m <= m'
             /\ forall r t, r ∈ l -> cell_at r col = Ts t -> t <= m'.
Proof.
  revert m. induction l as [|x l IH]; intros m; simpl.
  - exists m. split_and!; [done|lia|]. intros r t Hr. by apply elem_of_nil in Hr.
  - unfold step at 2. destruct (ts_of (cell_at x col)) as [tx|] eqn:Hx; simpl.
    + destruct (IH (Z.max m tx)) as (m'&->&Hle&Hall). exists m'.
      split_and!; [done|lia|]. intros r t [->|Hr]%elem_of_cons Ht.
      * rewrite Ht in Hx. simpl in Hx. injection Hx as ->. lia.
      * by eapply Hall.
    + destruct (IH m) as (m'&->&Hle&Hall). exists m'.
      split_and!; [done|lia|]. intros r t [->|Hr]%elem_of_cons Ht.
      * rewrite Ht in Hx. done.
      * by eapply Hall.
Qed.

(** As soon as one row carries a timestamp, the maximum exists and bounds
    every timestamp of the column. *)
Lemma ts_max_bound df r0 t0 :
  r0 ∈ rows df -> cell_at r0 col = Ts t0 ->
  exists m, ts_max col df = Some m
            /\ forall r t, r ∈ rows df -> cell_at r col = Ts t -> t <= m.
Proof.
  unfold ts_max. fold step. generalize (rows df) as l.
  induction l as [|x l IH]; intros Hr Ht.
  - by apply elem_of_nil in Hr.
  - simpl. unfold step at 2.
    destruct (ts_of (cell_at x col)) as [tx|] eqn:Hx; simpl.
    + destruct (fold_ts_max_ge l tx) as (m&->&Hle&Hall). exists m.
      split; [done|]. intros r t [->|Hin]%elem_of_cons Hc.
      * rewrite Hc in Hx. simpl in Hx. injection Hx as ->. lia.
      * by eapply Hall.
    + apply elem_of_cons in Hr as [->|Hr].
      * rewrite Ht in Hx. done.
      * destruct (IH Hr Ht) as (m&->&Hall). exists m. split; [done|].
        intros r t [->|Hin]%elem_of_cons Hc.
        -- rewrite Hc in Hx. done.
        -- by eapply Hall.
Qed.

End TsMax.

Lemma date_of_mono a b : a <= b -> date_of a <= date_of b.
Proof. intros H. unfold date_of, seconds_per_day. by apply Z.div_le_mono. Qed.

(* ===================================================================== *)
(** ** The outcomes of a fact-mode load *)
(* ===================================================================== *)

Section FactLoad.

Import IncrementalLoader.

Variables (env : Env) (source_df : DataFrame) (source_system : option string)
          (timestamp_column : string).

Let load := load_fact_sales_incremental env source_df source_system
              timestamp_column.

Let watermark_of (db : DB) :=
  WatermarkManager.get_last_watermark (etl_watermark db) "fact_sales"
    source_system.

Let advance (db : DB) (ins rej : Z) :=
  WatermarkManager.update_watermark (etl_watermark db) "fact_sales"
    source_system (ts_max timestamp_column source_df)
    (date_of <$> ts_max timestamp_column source_df) None ins rej.

(** A run of [_log_rejected_records] leaves the watermark table alone and
    never raises. *)
Lemma log_rejected_ok rejected_df tname src db :
  exists db', _log_rejected_records env rejected_df tname src db = (Ok tt, db')
              /\ etl_watermark db' = etl_watermark db.
Proof.
  unfold _log_rejected_records, ret.
  destruct (len rejected_df =? 0); [by eexists|].
  destruct (fault env OpQuarantine); by eexists.
Qed.

Lemma len_sort_values col df : len (sort_values col df) = len df.
Proof.
  unfold len, sort_values, sort_rows; simpl. f_equal.
  rewrite <- (Nat.add_0_r (length (rows df))).
  change 0%nat with (length (@nil Row)).
  generalize (@nil Row). induction (rows df) as [|x l IH]; intros acc; simpl.
  - done.
  - rewrite IH. assert (length (insert_sorted col x acc) = S (length acc)) as ->; [|lia].
    induction acc as [|y acc IHa]; simpl; [done|].
    destruct (_ && _); simpl; [done|]. by rewrite IHa.
Qed.

Lemma load_unfold db :
  load db =
  if fault env OpSelectWatermark
  then (Raised (DatabaseError OpSelectWatermark), db)
  else match new_records_fact (watermark_of db) source_df timestamp_column db with
       | (Ok new_records, db1) =>
           if len new_records =? 0 then (Ok (mkFactStats 0 0 0), db1)
           else if has_column new_records timestamp_column
                then fact_load_tail env source_df source_system timestamp_column new_records db1
                else (Raised (KeyError timestamp_column), db1)
       | (Raised e, db1) => (Raised e, db1)
       end.
Proof.
  unfold load, load_fact_sales_incremental, call_get_last_watermark, attempt,
    bind, raise.
  destruct (fault env OpSelectWatermark); [done|]. simpl.
  fold (watermark_of db).
  destruct (new_records_fact _ _ _ db) as [[new|e] db1]; [|done].
  destruct (len new =? 0); [done|].
  unfold require_column, ret, raise.
  destruct (has_column new timestamp_column); [|done].
  unfold fact_load_tail, bind. rewrite len_sort_values. done.
Qed.

(** The three ways the tail of a run can end. *)
Lemma finish_cases new_records db :
  let '(valid_records, rejected_records) :=
    _validate_records (sort_values timestamp_column new_records) "fact_sales" in
  let ins := if 0 <? len valid_records then len valid_records else 0 in
  let rej := len rejected_records in
  if fault env OpValidate
  then fact_load_tail env source_df source_system timestamp_column new_records db = (Raised (DatabaseError OpValidate), db)
  else if (0 <? len valid_records) && fault env (OpAppend "fact_sales")
  then fact_load_tail env source_df source_system timestamp_column new_records db = (Raised (DatabaseError (OpAppend "fact_sales")), db)
  else exists db1,
      etl_watermark db1 = etl_watermark db
      /\ if fault env OpUpdateWatermark
         then fact_load_tail env source_df source_system timestamp_column new_records db = (Raised (DatabaseError OpUpdateWatermark), db1)
         else fact_load_tail env source_df source_system timestamp_column new_records db
              = (Ok (mkFactStats ins rej (len new_records)),
                 mkDB (tables db1) (advance db ins rej)).
Proof.
  destruct (_validate_records _ _) as [valid rejected] eqn:Hv.
  unfold fact_load_tail, validate, attempt, bind, raise, ret.
  destruct (fault env OpValidate); [done|]. rewrite Hv.
  unfold to_sql, attempt, bind, raise, ret.
  destruct (0 <? len valid) eqn:Hlen; simpl.
  - destruct (fault env (OpAppend "fact_sales")); [done|]. simpl.
    set (db0 := mkDB _ _).
    destruct (0 <? len rejected).
    + destruct (log_rejected_ok rejected "fact_sales" source_system db0)
        as (db1&->&Hwm).
      exists db1. split; [done|].
      unfold call_update_watermark, attempt, raise.
      destruct (fault env OpUpdateWatermark); [done|].
      rewrite len_sort_values. unfold advance. by rewrite Hwm.
    + exists db0. split; [done|].
      unfold call_update_watermark, attempt, raise.
      destruct (fault env OpUpdateWatermark); [done|].
      by rewrite len_sort_values.
  - destruct (0 <? len rejected).
    + destruct (log_rejected_ok rejected "fact_sales" source_system db)
        as (db1&->&Hwm).
      exists db1. split; [done|].
      unfold call_update_watermark, attempt, raise.
      destruct (fault env OpUpdateWatermark); [done|].
      rewrite len_sort_values. unfold advance. by rewrite Hwm.
    + exists db. split; [done|].
      unfold call_update_watermark, attempt, raise.
      destruct (fault env OpUpdateWatermark); [done|].
      rewrite len_sort_values. by destruct db.
Qed.

End FactLoad.

(* ===================================================================== *)
(** ** Reading the watermark back after an update *)
(* ===================================================================== *)

Section WatermarkFacts.

Import WatermarkManager.

Variables (tname : string) (nts nd : option Z) (ninv : option string)
          (proc rej : Z).

Let upd := set_row nts nd ninv proc rej.

Lemma matches_pair_set_row s w :
  matches_pair tname s (upd w) = matches_pair tname s w.
Proof. done. Qed.


Lemma filter_map_hit (hit : WatermarkRow -> bool) store :
  (forall w, hit (upd w) = hit w) ->
  List.filter hit (map (fun w => if hit w then upd w else w) store)
  = map upd (List.filter hit store).
Proof.
  intros Hhit. induction store as [|w store IH]; simpl; [done|].
  destruct (hit w) eqn:Hw.
  - rewrite Hhit, Hw. simpl. by rewrite IH.
  - by rewrite Hw.
Qed.


(** With a source named, the row that is read back is the row that was
    read before, updated. *)
Lemma get_update_pair store s wm :
  s <> "" ->
  get_last_watermark store tname (Some s) = Some wm ->
  get_last_watermark (update_watermark store tname (Some s) nts nd ninv proc rej)
    tname (Some s)
  = Some {| timestamp := coalesce nts (timestamp wm);
            date := coalesce nd (date wm);
            invoice := coalesce ninv (invoice wm);
            wm_records_processed := wm_records_processed wm + proc;
            wm_records_rejected := wm_records_rejected wm + rej |}.
Proof.
  intros Hs. unfold get_last_watermark, update_watermark, truthy_source.
  rewrite bool_decide_eq_false_2 by done.
  rewrite filter_map_hit by apply matches_pair_set_row.
  destruct (List.filter _ store) as [|w l]; simpl; [done|].
  by intros [= <-].
Qed.



End WatermarkFacts.

(* ===================================================================== *)
(** ** Fact mode: failures, idempotence, monotonicity *)
(* ===================================================================== *)

Section FactLoadClaims.

Import IncrementalLoader.

(** Whatever way a run ends, it either raised and left the watermark
    table alone, or it found nothing new and left the database alone, or
    it advanced the watermark with its own counts. *)
Lemma load_fact_outcome env df src col db :
  let out := load_fact_sales_incremental env df src col db in
  let wm := WatermarkManager.get_last_watermark (etl_watermark db)
              "fact_sales" src in
  (exists e, out.1 = Raised e /\ etl_watermark out.2 = etl_watermark db)
  \/ (fault env OpSelectWatermark = false
      /\ exists new, new_records_fact wm df col db = (Ok new, db)
         /\ ((rows new = [] /\ out = (Ok (mkFactStats 0 0 0), db))
             \/ (rows new <> [] /\ has_column df col = true
                 /\ exists ins rej,
                     out.1 = Ok (mkFactStats ins rej (len new))
                     /\ 0 <= ins /\ 0 <= rej
                     /\ etl_watermark out.2
                        = WatermarkManager.update_watermark (etl_watermark db)
                            "fact_sales" src (ts_max col df)
                            (date_of <$> ts_max col df) None ins rej))).
Proof.
  intros out wm. subst out. rewrite load_unfold. fold wm.
  destruct (fault env OpSelectWatermark); [left; by eexists|].
  destruct (new_records_fact wm df col db) as [[new|e] db1] eqn:Hnew;
    pose proof (new_records_fact_db _ _ _ _ _ _ Hnew) as ->;
    [|left; by eexists].
  destruct (len new =? 0) eqn:Hlen.
  { right. split; [done|]. exists new. split; [done|]. left.
    by apply len_zero in Hlen. }
  assert (Hne : rows new <> []).
  { intros H%len_zero. congruence. }
  destruct (has_column new col) eqn:Hcol; [|left; by eexists].
  pose proof (finish_cases env df src col new db) as Hfin.
  destruct (_validate_records _ _) as [valid rejected].
  destruct (fault env OpValidate).
  { rewrite Hfin. left. by eexists. }
  destruct (_ && _).
  { rewrite Hfin. left. by eexists. }
  destruct Hfin as (db1&Hwm&Hfin).
  destruct (fault env OpUpdateWatermark); rewrite Hfin.
  { left. by eexists. }
  right. split; [done|]. exists new. split; [done|]. right.
  split; [done|]. split.
  { unfold has_column, col_names in *.
    by rewrite <- (new_records_fact_columns _ _ _ _ _ Hnew). }
  eexists _, _. split; [done|]. split_and!; [|apply len_nonneg|done].
  destruct (0 <? len valid); [apply len_nonneg|done].
Qed.

(** C8. A fact-mode load never swallows an exception of the validation,
    of the append to [fact_sales] or of the watermark update, and a run
    that raises leaves the watermark table exactly as it found it. *)
Theorem fact_load_failure_keeps_watermark env df src col db :
  let out := load_fact_sales_incremental env df src col db in
  let wm := WatermarkManager.get_last_watermark (etl_watermark db)
              "fact_sales" src in
  (forall e, out.1 = Raised e -> etl_watermark out.2 = etl_watermark db)
  /\ (forall new valid rejected,
        fault env OpSelectWatermark = false ->
        new_records_fact wm df col db = (Ok new, db) ->
        rows new <> [] -> has_column new col = true ->
        _validate_records (sort_values col new) "fact_sales" = (valid, rejected) ->
        (fault env OpValidate = true ->
           out = (Raised (DatabaseError OpValidate), db))
        /\ (fault env OpValidate = false -> rows valid <> [] ->
            fault env (OpAppend "fact_sales") = true ->
            out = (Raised (DatabaseError (OpAppend "fact_sales")), db))
        /\ (fault env OpValidate = false ->
            (rows valid <> [] -> fault env (OpAppend "fact_sales") = false) ->
            fault env OpUpdateWatermark = true ->
            out.1 = Raised (DatabaseError OpUpdateWatermark)
            /\ etl_watermark out.2 = etl_watermark db)).
Proof.
  intros out wm. split.
  - intros e He.
    destruct (load_fact_outcome env df src col db) as [(e'&_&Hwm)|(_&new&_&H)];
      [done|]. fold out in H.
    destruct H as [[_ H]|(_&_&ins&rej&H&_)]; rewrite H in He; done.
  - intros new valid rejected Hsel Hnew Hne Hcol Hv.
    subst out. rewrite load_unfold. fold wm. rewrite Hsel, Hnew.
    destruct (len new =? 0) eqn:Hlen; [by apply len_zero in Hlen|].
    rewrite Hcol.
    pose proof (finish_cases env df src col new db) as Hfin. rewrite Hv in Hfin.
    split_and!.
    + intros Hf. by rewrite Hf in Hfin.
    + intros Hf Hvalid Ha. rewrite Hf, Ha in Hfin.
      apply len_pos in Hvalid. by rewrite Hvalid in Hfin.
    + intros Hf Ha Hu. rewrite Hf, Hu in Hfin.
      destruct (0 <? len valid) eqn:Hl.
      * apply len_pos in Hl. rewrite (Ha Hl) in Hfin.
        destruct Hfin as (db1&Hwm&->). done.
      * destruct Hfin as (db1&Hwm&->). done.
Qed.


End FactLoadClaims.

Section Monotone.

Import IncrementalLoader.
Import WatermarkManager.

Lemma opt_le_refl a : opt_le a a.
Proof. destruct a; simpl; [lia|done]. Qed.

Lemma opt_le_trans a b c : opt_le a b -> opt_le b c -> opt_le a c.
Proof. destruct a, b, c; simpl; try done; lia. Qed.

(** One successful load, seen through the watermark of its source. *)
Lemma fact_load_step env df s col db stats db' wm :
  s <> "" ->
  load_fact_sales_incremental env df (Some s) col db = (Ok stats, db') ->
  get_last_watermark (etl_watermark db) "fact_sales" (Some s) = Some wm ->
  exists wm',
    get_last_watermark (etl_watermark db') "fact_sales" (Some s) = Some wm'
    /\ opt_le (timestamp wm) (timestamp wm')
    /\ invoice wm' = invoice wm
    /\ wm_records_processed wm' = wm_records_processed wm + inserted stats
    /\ wm_records_rejected wm' = wm_records_rejected wm + rejected stats
    /\ 0 <= inserted stats /\ 0 <= rejected stats
    /\ (date_not_ahead wm ->
        opt_le (date wm) (date wm') /\ date_not_ahead wm').
Proof.
  intros Hs Hload Hwm.
  destruct (load_fact_outcome env df (Some s) col db)
    as [(e&He&_)|(Hsel&new&Hnew&H)].
  { by rewrite Hload in He. }
  rewrite Hwm in Hnew. rewrite Hload in H.
  destruct H as [[Hnil [= -> ->]]|(Hne&Hcol&ins&rej&[= ->]&Hins&Hrej&Hstore)].
  { exists wm. simpl. split_and!; try done; try lia; try apply opt_le_refl.
    intros Hahead. split; [apply opt_le_refl|done]. }
  simpl in Hstore. rewrite Hstore.
  rewrite (get_update_pair "fact_sales" _ _ None ins rej _ s wm Hs Hwm).
  eexists. split; [done|]. simpl.
  destruct (ts_max col df) as [m|] eqn:Hm; simpl.
  2:{ split_and!; try done; try lia; try apply opt_le_refl.
      intros Hahead. split; [apply opt_le_refl|done]. }
  (* a new record and the bound that the maximum puts on it *)
  destruct (rows new) as [|r0 l0] eqn:Hrows; [done|].
  assert (Hr0 : r0 ∈ rows new) by (rewrite Hrows; by left).
  assert (Hr0df : r0 ∈ rows df) by (by eapply new_records_fact_incl).
  assert (Hbound : forall t, cell_at r0 col = Ts t -> t <= m).
  { intros t Ht. destruct (ts_max_bound col df r0 t Hr0df Ht) as (m'&Hm'&Hb).
    rewrite Hm in Hm'. injection Hm' as <-. by eapply Hb. }
  assert (Hnew_ahead : date_not_ahead
                         {| timestamp := Some m; date := Some (date_of m);
                            invoice := invoice wm;
                            wm_records_processed := wm_records_processed wm + ins;
                            wm_records_rejected := wm_records_rejected wm + rej |}).
  { intros ? ? [= <-] [= <-]. lia. }
  destruct wm as [[T|] [D|] i p r]; simpl in *;
    unfold new_records_fact, require_column, bind, ret, raise in Hnew;
    try rewrite Hcol in Hnew; injection Hnew as <-.
  - apply elem_of_after_timestamp in Hr0 as (_&t&Ht&Hlt).
    specialize (Hbound t Ht). pose proof (date_of_mono T m).
    split_and!; try done; try lia.
    intros Hahead. specialize (Hahead T D eq_refl eq_refl).
    split; [lia|done].
  - apply elem_of_after_timestamp in Hr0 as (_&t&Ht&Hlt).
    specialize (Hbound t Ht).
    split_and!; try done; try lia.
  - apply elem_of_after_date in Hr0 as (_&t&Ht&Hlt).
    specialize (Hbound t Ht). pose proof (date_of_mono t m).
    split_and!; try done; try lia.
    intros _. split; [lia|done].
  - split_and!; try done; try lia.
Qed.

(** C6, amended. Along any sequence of successful fact-mode loads for a
    named source, seen through the watermark of that source: the
    timestamp never decreases, the natural key is left as it was and the
    two counters grow by exactly the counts that the loads returned,
    whatever the stored date is; and the date never decreases provided
    it was not ahead of the timestamp at the start (it then never gets
    ahead). *)
Theorem watermark_monotone s col db l db' wm :
  s <> "" ->
  fact_loads (Some s) col db l db' ->
  get_last_watermark (etl_watermark db) "fact_sales" (Some s) = Some wm ->
  exists wm',
    get_last_watermark (etl_watermark db') "fact_sales" (Some s) = Some wm'
    /\ opt_le (timestamp wm) (timestamp wm')
    /\ invoice wm' = invoice wm
    /\ wm_records_processed wm' = wm_records_processed wm + sum_inserted l
    /\ wm_records_rejected wm' = wm_records_rejected wm + sum_rejected l
    /\ wm_records_processed wm <= wm_records_processed wm'
    /\ wm_records_rejected wm <= wm_records_rejected wm'
    /\ (date_not_ahead wm ->
        opt_le (date wm) (date wm') /\ date_not_ahead wm').
Proof.
  intros Hs Hloads. revert wm.
  induction Hloads as [db|env df db stats db1 l db2 Hload Hloads IH];
    intros wm Hwm.
  - exists wm. simpl. split_and!; try done; try lia; try apply opt_le_refl.
    intros Hahead. split; [apply opt_le_refl|done].
  - destruct (fact_load_step _ _ _ _ _ _ _ _ Hs Hload Hwm)
      as (wm1&Hwm1&Hts1&Hi1&Hp1&Hr1&Hins&Hrej&Hdate1).
    destruct (IH wm1 Hwm1)
      as (wm2&Hwm2&Hts2&Hi2&Hp2&Hr2&Hpp&Hrr&Hdate2).
    exists wm2. simpl. split_and!; try done; try lia.
    + by eapply opt_le_trans.
    + congruence.
    + intros Hahead. destruct (Hdate1 Hahead) as [Hd1 Hahead1].
      destruct (Hdate2 Hahead1) as [Hd2 Hahead2].
      split; [by eapply opt_le_trans|done].
Qed.

End Monotone.

(* ===================================================================== *)
(** ** Type-2 history of the customer dimension *)
(* ===================================================================== *)

Section Scd.

Implicit Types (table : list DimCustomerRow) (r : DimCustomerRow).

(** What the database stores for a [NaN] parameter. *)
Variable nan_text : option string.

Lemma fetch_current_none cid table :
  fetch_current cid table = None -> List.filter (current_of cid) table = [].
Proof. unfold fetch_current. by destruct (List.filter _ table). Qed.

(** The row that was fetched is a current row of the customer and a row
    of the table. *)
Lemma fetch_current_some cid table r :
  fetch_current cid table = Some r ->
  r ∈ table /\ customer_id r = cid /\ is_current r = true.
Proof.
  unfold fetch_current. intros Hhead.
  assert (Hin : r ∈ List.filter (current_of cid) table).
  { destruct (List.filter _ table); [done|]. injection Hhead as ->. by left. }
  apply elem_of_filter_bool in Hin as [Hin [? ?]%andb_true_iff].
  split_and!; [done|lia|done].
Qed.

Lemma filter_current_app cid table r :
  List.filter (current_of cid) (table ++ [r])
  = List.filter (current_of cid) table ++ (if current_of cid r then [r] else []).
Proof. by rewrite List.filter_app. Qed.

(** Closing rows never makes a row current. *)
Lemma expire_current_le today ck cid table :
  (length (List.filter (current_of cid) (expire today ck table))
   <= length (List.filter (current_of cid) table))%nat.
Proof.
  unfold expire. induction table as [|r table IH]; simpl; [done|].
  destruct (customer_key r =? ck).
  - unfold current_of at 1. simpl. rewrite andb_false_r.
    destruct (current_of cid r); simpl; lia.
  - destruct (current_of cid r); simpl; lia.
Qed.

(** Once the fetched row is closed, its customer has no current row
    left, provided it had one at most. *)
Lemma expire_fetched today cid table r :
  (length (List.filter (current_of cid) table) <= 1)%nat ->
  fetch_current cid table = Some r ->
  List.filter (current_of cid) (expire today (customer_key r) table) = [].
Proof.
  unfold fetch_current, expire.
  induction table as [|x table IH]; simpl; [done|].
  destruct (current_of cid x) eqn:Hx; simpl.
  - intros Hlen [= ->]. rewrite Z.eqb_refl.
    unfold current_of at 1. simpl. rewrite andb_false_r.
    assert (Hnil : List.filter (current_of cid) table = []).
    { destruct (List.filter _ table); [done|simpl in Hlen; lia]. }
    clear -Hnil. induction table as [|y table IH]; simpl in *; [done|].
    destruct (current_of cid y) eqn:Hy; [done|].
    destruct (customer_key y =? customer_key r); simpl.
    + unfold current_of at 1. simpl. rewrite andb_false_r. by apply IH.
    + rewrite Hy. by apply IH.
  - intros Hlen Hhead. specialize (IH Hlen Hhead).
    destruct (customer_key x =? customer_key r); simpl.
    + unfold current_of at 1. simpl. by rewrite andb_false_r.
    + by rewrite Hx.
Qed.

(** Adding a current row for a customer that has none keeps the
    invariant. *)
Lemma one_current_insert table r :
  one_current table ->
  List.filter (current_of (customer_id r)) table = [] ->
  one_current (table ++ [r]).
Proof.
  intros Hinv Hnil cid. rewrite filter_current_app, length_app.
  destruct (current_of cid r) eqn:Hr; simpl; [|specialize (Hinv cid); lia].
  apply andb_true_iff in Hr as [Hid%Z.eqb_eq _]. subst cid.
  rewrite Hnil. simpl. lia.
Qed.

Lemma one_current_expire today ck table :
  one_current table -> one_current (expire today ck table).
Proof.
  intros Hinv cid. pose proof (expire_current_le today ck cid table).
  specialize (Hinv cid). lia.
Qed.

Lemma multisource_step_one_current today table n row :
  one_current table ->
  one_current (LoadCustomerMultisource.scd_step nan_text today (table, n) row).1.
Proof.
  intros Hinv. unfold LoadCustomerMultisource.scd_step.
  destruct (fetch_current _ table) as [result|] eqn:Hf.
  - destruct (LoadCustomerMultisource.changed result row); simpl; [|done].
    apply one_current_insert; [by apply one_current_expire|]. simpl.
    by apply expire_fetched.
  - simpl. apply one_current_insert; [done|]. simpl.
    by apply fetch_current_none.
Qed.

Lemma scd_step_one_current today table row :
  one_current table ->
  one_current (LoadCustomerScd.scd_step nan_text today table row).
Proof.
  intros Hinv. unfold LoadCustomerScd.scd_step. destruct row as [cid country].
  destruct (fetch_current cid table) as [result|] eqn:Hf.
  - destruct (differs (state result) country); [|done].
    apply one_current_insert; [by apply one_current_expire|]. simpl.
    by apply expire_fetched.
  - apply one_current_insert; [done|]. simpl. by apply fetch_current_none.
Qed.

(** C4. Both Type-2 loops keep the invariant that a customer has at most
    one current row: each of their operations does (the insert of a new
    customer, the expiry and insert on a change, the skip), and so does
    any sequence of them. *)
Theorem scd_exclusivity today table :
  one_current table ->
  (forall n row,
      one_current (LoadCustomerMultisource.scd_step nan_text today (table, n) row).1)
  /\ (forall row, one_current (LoadCustomerScd.scd_step nan_text today table row))
  /\ (forall merged_customers,
      one_current (LoadCustomerMultisource.scd_load nan_text today merged_customers table).1)
  /\ (forall customers,
      one_current (LoadCustomerScd.scd_load nan_text today customers table)).
Proof.
  intros Hinv. split_and!.
  - intros. by apply multisource_step_one_current.
  - intros. by apply scd_step_one_current.
  - intros l. unfold LoadCustomerMultisource.scd_load.
    generalize (mkScdCounts 0 0 0) as n. revert table Hinv.
    induction l as [|row l IH]; intros table Hinv n; [done|].
    cbn [fold_left].
    pose proof (multisource_step_one_current today table n row Hinv) as Hstep.
    destruct (LoadCustomerMultisource.scd_step nan_text today (table, n) row) as [t' n'].
    by apply IH.
  - intros l. unfold LoadCustomerScd.scd_load. revert table Hinv.
    induction l as [|row l IH]; intros table Hinv; simpl; [done|].
    apply IH. by apply scd_step_one_current.
Qed.


(** Without [NaN], [!=] is the inequality of the stored values. *)
Lemma differs_stored a v :
  v <> PyNaN -> differs a v = bool_decide (a ≠ stored nan_text v).
Proof.
  intros Hv. destruct v; [|by destruct Hv|]; simpl; by apply bool_decide_ext.
Qed.

Lemma differs_stored_same v : v <> PyNaN -> differs (stored nan_text v) v = false.
Proof.
  intros Hv. rewrite differs_stored by done.
  by apply bool_decide_eq_false_2; intros ?.
Qed.

(** The step on a customer that has a current row: a row that is not
    changed is skipped; a changed row closes the fetched row and appends
    one current, open-ended row with the incoming values. *)
Lemma scd_step_postcondition today table n row result :
  fetch_current (LoadCustomerMultisource.m_customer_id row) table = Some result ->
  let out := LoadCustomerMultisource.scd_step nan_text today (table, n) row in
  (LoadCustomerMultisource.changed result row = false ->
   out = (table, mkScdCounts (rows_inserted n) (rows_updated n)
                             (rows_skipped n + 1)))
  /\ (LoadCustomerMultisource.changed result row = true ->
      let added := LoadCustomerMultisource.new_row nan_text today
                     (next_key (expire today (customer_key result) table))
                     row in
      out = (expire today (customer_key result) table ++ [added],
             mkScdCounts (rows_inserted n) (rows_updated n + 1)
                         (rows_skipped n))
      /\ close_row today result ∈ out.1
      /\ (forall r, r ∈ table -> customer_key r <> customer_key result ->
                    r ∈ out.1)
      /\ length out.1 = S (length table)).
Proof.
  intros Hf out. subst out. unfold LoadCustomerMultisource.scd_step.
  rewrite Hf. split; intros ->; [done|].
  unfold LoadCustomerMultisource.insert_customer. cbv zeta.
  apply fetch_current_some in Hf as (Hin&_&_). split_and!; [done| | |].
  - apply elem_of_app. left. unfold expire. apply list_elem_of_fmap.
    exists result. by rewrite Z.eqb_refl.
  - intros r Hr Hne. apply elem_of_app. left. unfold expire.
    apply list_elem_of_fmap. exists r.
    by rewrite (proj2 (Z.eqb_neq _ _) Hne).
  - simpl. rewrite length_app. unfold expire. rewrite length_map. simpl. lia.
Qed.

End Scd.

(* ===================================================================== *)
(** ** Dimension mode: the upsert *)
(* ===================================================================== *)

Section Upsert.

Import IncrementalLoader.

Variable unique_key : string.

Lemma overwrite_key row r :
  cell_at (overwrite unique_key row r) unique_key = cell_at r unique_key.
Proof.
  unfold cell_at, overwrite.
  by rewrite lookup_union_r by apply lookup_delete_eq.
Qed.

Lemma overwrite_column row r col c :
  col <> unique_key -> row !! col = Some c ->
  cell_at (overwrite unique_key row r) col = c.
Proof.
  intros Hne Hc. unfold cell_at, overwrite.
  rewrite (lookup_union_Some_l _ _ _ c); [done|].
  by rewrite lookup_delete_ne.
Qed.

Lemma overwrite_absent row r col :
  row !! col = None ->
  cell_at (overwrite unique_key row r) col = cell_at r col.
Proof.
  intros Hc. unfold cell_at, overwrite. rewrite lookup_union_r; [done|].
  destruct (decide (unique_key = col)) as [->|Hne].
  - apply lookup_delete_eq.
  - by rewrite lookup_delete_ne.
Qed.

Lemma key_matches_overwrite k row r :
  key_matches unique_key k (overwrite unique_key row r)
  = key_matches unique_key k r.
Proof. unfold key_matches. by rewrite overwrite_key. Qed.

Lemma count_where_nonneg p (table : list Row) : 0 <= count_where p table.
Proof. unfold count_where. lia. Qed.

Lemma upsert_row_count k st row :
  count_where (key_matches unique_key k) st.1
  <= count_where (key_matches unique_key k) (upsert_row unique_key st row).1.
Proof.
  destruct st as [table [ins upd]]. unfold upsert_row.
  destruct (0 <? _); simpl.
  - unfold count_where. apply Nat2Z.inj_le. apply Nat.eq_le_incl.
    induction table as [|r table IH]; simpl; [done|].
    destruct (key_matches unique_key (cell_at row unique_key) r);
      rewrite ?key_matches_overwrite;
      destruct (key_matches unique_key k r); simpl; by rewrite IH.
  - unfold count_where. rewrite List.filter_app, length_app. lia.
Qed.

Lemma upsert_rows_count k table df_rows :
  count_where (key_matches unique_key k) table
  <= count_where (key_matches unique_key k)
       (upsert_rows unique_key table df_rows).1.
Proof.
  unfold upsert_rows. generalize (0, 0) as n. revert table.
  induction df_rows as [|row l IH]; intros table n; [done|].
  cbn [fold_left].
  pose proof (upsert_row_count k (table, n) row) as Hstep.
  destruct (upsert_row unique_key (table, n) row) as [t' n'].
  specialize (IH t' n'). simpl in *. lia.
Qed.

(** C2, amended. The dimension write is an upsert in place: when stored
    rows carry the key of the incoming row, each of them gets every other
    column of the incoming row written over its own, no row is added and
    the row counts as updated; otherwise the incoming row is appended and
    counts as inserted.  Either way no row is removed: for every key the
    number of stored rows never decreases. *)
Theorem dimension_upsert_in_place table ins upd row :
  let key := cell_at row unique_key in
  let out := upsert_row unique_key (table, (ins, upd)) row in
  (0 < count_where (key_matches unique_key key) table ->
     out.2 = (ins, upd + 1)
     /\ length out.1 = length table
     /\ forall r, r ∈ table ->
          if key_matches unique_key key r
          then overwrite unique_key row r ∈ out.1
               /\ cell_at (overwrite unique_key row r) unique_key
                  = cell_at r unique_key
               /\ forall col c, col <> unique_key -> row !! col = Some c ->
                    cell_at (overwrite unique_key row r) col = c
          else r ∈ out.1)
  /\ (count_where (key_matches unique_key key) table = 0 ->
      out = (table ++ [row], (ins + 1, upd)))
  /\ (forall k df_rows,
        count_where (key_matches unique_key k) table
        <= count_where (key_matches unique_key k)
             (upsert_rows unique_key table df_rows).1).
Proof.
  intros key out. subst out. unfold upsert_row. fold key. split_and!.
  - intros Hpos. rewrite (proj2 (Z.ltb_lt _ _) Hpos). simpl.
    split_and!; [done|by rewrite length_map|].
    intros r Hr. destruct (key_matches unique_key key r) eqn:Hk.
    + split_and!.
      * apply list_elem_of_fmap. exists r. by rewrite Hk.
      * apply overwrite_key.
      * intros col c. apply overwrite_column.
    + apply list_elem_of_fmap. exists r. by rewrite Hk.
  - intros ->. done.
  - intros k df_rows. apply upsert_rows_count.
Qed.

End Upsert.

(* ===================================================================== *)
(** ** The filter on the watermark, by mode *)
(* ===================================================================== *)

Section Filter.

Import IncrementalLoader.
Import WatermarkManager.

(** Fact mode keeps the rows after the timestamp watermark; with a date
    watermark only, the rows of a later day; without either, every row. *)
Lemma new_records_fact_spec wm df col db :
  has_column df col = true ->
  exists new,
    new_records_fact wm df col db = (Ok new, db)
    /\ columns new = columns df
    /\ match wm with
       | Some {| timestamp := Some last |} =>
           (forall r, r ∈ rows new
                      <-> r ∈ rows df /\ exists t, cell_at r col = Ts t /\ last < t)
           /\ (forall r, cell_at r col = Ts last -> r ∉ rows new)
       | Some {| timestamp := None; date := Some last_date |} =>
           forall r, r ∈ rows new
                     <-> r ∈ rows df
                         /\ exists t, cell_at r col = Ts t /\ last_date < date_of t
       | _ => new = df
       end.
Proof.
  intros Hcol. unfold new_records_fact, require_column, bind, ret.
  destruct wm as [[[last|] [d|] ? ? ?]|]; rewrite ?Hcol;
    eexists; (split; [done|]); (split; [done|]); try done.
  - split; [apply elem_of_after_timestamp|].
    intros r Hr (_&t&Ht&Hlt)%elem_of_after_timestamp.
    rewrite Hr in Ht. injection Ht as <-. lia.
  - split; [apply elem_of_after_timestamp|].
    intros r Hr (_&t&Ht&Hlt)%elem_of_after_timestamp.
    rewrite Hr in Ht. injection Ht as <-. lia.
  - apply elem_of_after_date.
Qed.

(** Dimension mode keeps the rows after the timestamp watermark and,
    without one, every row: a date watermark is not looked at. *)
Lemma new_records_dimension_spec wm df col db :
  exists new,
    new_records_dimension wm df col db = (Ok new, db)
    /\ columns new = columns df
    /\ match wm with
       | Some {| timestamp := Some last |} =>
           forall r, r ∈ rows new
                     <-> r ∈ rows df /\ exists t, cell_at r col = Ts t /\ last < t
       | _ => new = df
       end.
Proof.
  unfold new_records_dimension, ret.
  destruct wm as [[[last|] ? ? ? ?]|];
    eexists; (split; [done|]); (split; [done|]); try done.
  apply elem_of_after_timestamp.
Qed.

End Filter.

(* ===================================================================== *)
(** ** The fact loading script: foreign keys *)
(* ===================================================================== *)

Section FactKeys.

Import LoadFactSales.

Lemma dict_fold_lookup `{Countable K} {V : Type} (pairs : list (K * V))
    (m : gmap K V) k v :
  fold_left (fun m kv => <[kv.1 := kv.2]> m) pairs m !! k = Some v ->
  (k, v) ∈ pairs \/ m !! k = Some v.
Proof.
  revert m. induction pairs as [|[k' v'] l IH]; intros m; simpl; [by right|].
  intros [Hin|Hm]%IH.
  - left. by right.
  - destruct (decide (k' = k)) as [->|Hne].
    + rewrite lookup_insert_eq in Hm. injection Hm as ->. left. by left.
    + rewrite lookup_insert_ne in Hm by done. by right.
Qed.

(** A key found in a lookup map comes from a row of the table. *)
Lemma dict_lookup `{Countable K} {V : Type} (pairs : list (K * V)) k v :
  dict pairs !! k = Some v -> (k, v) ∈ pairs.
Proof.
  unfold dict. intros [Hin|Hm]%dict_fold_lookup; [done|].
  by rewrite lookup_empty in Hm.
Qed.

Lemma current_customers_lookup table cid ck :
  dict (current_customers table) !! cid = Some ck ->
  exists r, r ∈ table /\ is_current r = true
            /\ customer_id r = cid /\ customer_key r = ck.
Proof.
  intros Hin%dict_lookup. unfold current_customers in Hin.
  apply list_elem_of_fmap in Hin as (r&[= -> ->]&Hr).
  apply elem_of_filter_bool in Hr as [Hr Hc]. by exists r.
Qed.

Lemma fact_row_some pm cm sm row f :
  fact_row pm cm sm row = Some f ->
  exists cid t,
    CustomerID row = Some cid /\ InvoiceDate row = Some t
    /\ pm !! StockCode row = Some (f_product_key f)
    /\ cm !! cid = Some (f_customer_key f)
    /\ sm !! Country row = Some (f_store_key f)
    /\ time_key f = yyyymmdd t
    /\ quantity_sold f = Quantity row.
Proof.
  unfold fact_row.
  destruct (CustomerID row) as [cid|]; [|done].
  destruct (InvoiceDate row) as [t|]; [|done].
  destruct (pm !! StockCode row) as [pk|]; [|done].
  destruct (cm !! cid) as [ck|] eqn:Hck; [|done].
  destruct (sm !! Country row) as [sk|]; [|done].
  intros [= <-]. exists cid, t. by split_and!.
Qed.

Lemma fact_row_none pm cm sm row cid :
  CustomerID row = Some cid ->
  pm !! StockCode row = None \/ cm !! cid = None \/ sm !! Country row = None ->
  fact_row pm cm sm row = None.
Proof.
  unfold fact_row. intros ->. destruct (InvoiceDate row); [|done].
  destruct (pm !! StockCode row), (cm !! cid), (sm !! Country row);
    intros [?|[?|?]]; done.
Qed.

(** The rows that a run appends and what else it touches. *)
Lemma script_effects extract w :
  let out := load_fact_sales_incremental extract w in
  let wm := WatermarkManager.get_last_watermark (watermarks w) "fact_sales"
              (Some "RETAIL_OLTP") in
  let df := new_rows (wm ≫= WatermarkManager.date) extract in
  fact_sales out.1
  = fact_sales w
    ++ fact_rows (dict (dim_product w))
         (dict (current_customers (dim_customer w))) (dict (dim_store w)) df
  /\ etl_rejected_records out.1 = etl_rejected_records w
  /\ dim_product out.1 = dim_product w
  /\ dim_customer out.1 = dim_customer w
  /\ dim_store out.1 = dim_store w.
Proof.
  intros out wm df. subst out. unfold load_fact_sales_incremental.
  fold wm. fold df.
  destruct df as [|r0 l0] eqn:Hdf.
  { simpl. by rewrite app_nil_r. }
  destruct (fact_rows _ _ _ (r0 :: l0)) as [|f0 fl] eqn:Hrows.
  { simpl. by rewrite app_nil_r. }
  done.
Qed.

(** C9, amended. Every fact row that the script inserts has its three
    foreign keys taken from the lookup maps built for the run, so each
    key belongs to a stored dimension row, a current one for customers;
    a source row with a natural key that a map does not hold is skipped
    and can never be inserted with a missing key.  The skip leaves no
    trace: nothing is written to the quarantine table. *)
Theorem fact_foreign_keys_resolved extract w :
  let out := load_fact_sales_incremental extract w in
  let wm := WatermarkManager.get_last_watermark (watermarks w) "fact_sales"
              (Some "RETAIL_OLTP") in
  let df := new_rows (wm ≫= WatermarkManager.date) extract in
  let product_map := dict (dim_product w) in
  let customer_map := dict (current_customers (dim_customer w)) in
  let store_map := dict (dim_store w) in
  let inserted := fact_rows product_map customer_map store_map df in
  fact_sales out.1 = fact_sales w ++ inserted
  /\ (forall f, f ∈ inserted ->
        exists row cid,
          row ∈ df /\ CustomerID row = Some cid
          /\ (StockCode row, f_product_key f) ∈ dim_product w
          /\ (Country row, f_store_key f) ∈ dim_store w
          /\ exists c, c ∈ dim_customer w /\ is_current c = true
                       /\ customer_id c = cid
                       /\ customer_key c = f_customer_key f)
  /\ (forall row cid,
        CustomerID row = Some cid ->
        product_map !! StockCode row = None \/ customer_map !! cid = None
        \/ store_map !! Country row = None ->
        fact_row product_map customer_map store_map row = None)
  /\ etl_rejected_records out.1 = etl_rejected_records w.
Proof.
  intros out wm df pm cm sm inserted.
  destruct (script_effects extract w) as (Hfacts&Hrej&_).
  split_and!; [done| |by apply fact_row_none|done].
  intros f Hf. unfold inserted, fact_rows in Hf.
  apply list_elem_of_omap in Hf as (row&Hrow&Hsome).
  apply fact_row_some in Hsome as (cid&t&Hcid&_&Hp&Hc&Hs&_).
  exists row, cid. split_and!; [done|done|by apply dict_lookup|by apply dict_lookup|].
  by apply current_customers_lookup.
Qed.

End FactKeys.

(* ===================================================================== *)
(** ** The anomaly check *)
(* ===================================================================== *)

Section Anomaly.

Import AdvancedDataQuality.


End Anomaly.

(* ===================================================================== *)
(** ** The z-score test *)
(* ===================================================================== *)

Section ZScore.

Import AdvancedDataQuality.

Lemma Qle_bool_false a b : Qle_bool a b = false <-> (b < a)%Q.
Proof.
  rewrite <- not_true_iff_false, Qle_bool_iff. split.
  - apply Qnot_le_lt.
  - intros H1 H2. by apply Qlt_not_le in H1.
Qed.

(** The test on the squares is the test of the source on the z-score:
    with [std] the positive square root of the variance,
    [is_anomaly] holds exactly when [|v - mean| / std > z_threshold]. *)
Lemma is_anomaly_zscore (mean_val var_val z_threshold v : Q) :
  (0 < var_val)%Q ->
  is_anomaly mean_val var_val z_threshold v = true
  <-> (Rabs ((Q2R v - Q2R mean_val) / sqrt (Q2R var_val)) > Q2R z_threshold)%R.
Proof.
  intros Hvar. unfold is_anomaly.
  assert (Hv : (0 < Q2R var_val)%R).
  { replace 0%R with (Q2R 0) by (unfold Q2R; simpl; lra). by apply Qlt_Rlt. }
  pose proof (sqrt_lt_R0 _ Hv) as Hs.
  pose proof (sqrt_sqrt (Q2R var_val) (Rlt_le _ _ Hv)) as Hss.
  set (s := sqrt (Q2R var_val)) in *.
  set (d := (Q2R v - Q2R mean_val)%R).
  assert (Habs : Rabs (d / s) = (Rabs d / s)%R).
  { unfold Rdiv. rewrite Rabs_mult, (Rabs_right (/ s)); [done|].
    apply Rle_ge, Rlt_le, Rinv_0_lt_compat, Hs. }
  rewrite Habs.
  destruct (Qle_bool 0 z_threshold) eqn:Hz; simpl.
  - apply Qle_bool_iff, Qle_Rle in Hz.
    replace (Q2R 0) with 0%R in Hz by (unfold Q2R; simpl; lra).
    rewrite negb_true_iff, Qle_bool_false.
    assert (Hsq : Q2R ((v - mean_val) * (v - mean_val)) = (Rabs d * Rabs d)%R).
    { rewrite Q2R_mult, Q2R_minus. fold d.
      destruct (Rcase_abs d) as [Hd|Hd].
      - rewrite (Rabs_left _ Hd). lra.
      - rewrite (Rabs_right _ Hd). lra. }
    assert (Hzs : Q2R (z_threshold * z_threshold * var_val)
                  = ((Q2R z_threshold * s) * (Q2R z_threshold * s))%R).
    { rewrite !Q2R_mult, <- Hss. lra. }
    pose proof (Rabs_pos d) as Hd0.
    assert (Hzs0 : (0 <= Q2R z_threshold * s)%R) by (apply Rmult_le_pos; lra).
    split.
    + intros Hlt%Qlt_Rlt. rewrite Hsq, Hzs in Hlt.
      apply Rlt_gt. apply (Rmult_lt_reg_r s); [done|].
      unfold Rdiv. rewrite Rmult_assoc, Rinv_l, Rmult_1_r by lra.
      destruct (Rlt_le_dec (Q2R z_threshold * s) (Rabs d)) as [|Hle]; [done|].
      exfalso. pose proof (Rmult_le_compat _ _ _ _ Hd0 Hd0 Hle Hle). lra.
    + intros Hgt. apply Rlt_Qlt. rewrite Hsq, Hzs.
      apply Rgt_lt in Hgt. apply (Rmult_lt_compat_r s) in Hgt; [|done].
      unfold Rdiv in Hgt. rewrite Rmult_assoc, Rinv_l, Rmult_1_r in Hgt by lra.
      apply Rmult_le_0_lt_compat; done.
  - split; [intros _|done].
    apply Qle_bool_false, Qlt_Rlt in Hz.
    replace (Q2R 0) with 0%R in Hz by (unfold Q2R; simpl; lra).
    pose proof (Rabs_pos d). apply Rlt_gt.
    apply Rlt_le_trans with 0%R; [done|].
    apply Rmult_le_pos; [done|]. apply Rlt_le, Rinv_0_lt_compat, Hs.
Qed.

End ZScore.

(* ===================================================================== *)
(** ** Worked scenarios *)
(* ===================================================================== *)

Section Examples.

Import IncrementalLoader WatermarkManager Samples.

Lemma pair_eta {A B : Type} (p : A * B) : p = (p.1, p.2).
Proof. by destruct p. Qed.




(** C8 when the append fails: the exception comes out and the database
    is as before. *)
Lemma fact_load_failure_keeps_watermark_witness :
  let db0 := mkDB ∅ seeded in
  load_fact_sales_incremental append_fails sales oltp "transaction_date" db0
  = (Raised (DatabaseError (OpAppend "fact_sales")), db0).
Proof.
  intros db0.
  pose proof (fact_load_failure_keeps_watermark append_fails sales oltp
                "transaction_date" db0) as [_ H].
  destruct (H sales
              (_validate_records (sort_values "transaction_date" sales) "fact_sales").1
              (_validate_records (sort_values "transaction_date" sales) "fact_sales").2)
    as (_&Happend&_).
  - reflexivity.
  - vm_compute; reflexivity.
  - apply len_pos. vm_compute; reflexivity.
  - vm_compute; reflexivity.
  - apply pair_eta.
  - apply Happend.
    + reflexivity.
    + apply len_pos. vm_compute; reflexivity.
    + reflexivity.
Defined.

(** C6, as stated, fails: three successful loads of [fact_sales] for the
    source [RETAIL_OLTP] (the loader on day 2, the script on day 10, the
    loader on day 3) take the date of the watermark from day 10 back to
    day 3. *)
Lemma date_watermark_can_decrease :
  let db0 := mkDB ∅ seeded in
  let out1 := load_fact_sales_incremental (no_faults 0) sales_day2 oltp
                "InvoiceDate" db0 in
  let out2 := LoadFactSales.load_fact_sales_incremental [line "85123A" 10]
                (warehouse (etl_watermark out1.2)) in
  let out3 := load_fact_sales_incremental (no_faults 0) sales_day3 oltp
                "InvoiceDate"
                (mkDB (tables out1.2) (LoadFactSales.watermarks out2.1)) in
  out1.1 = Ok (mkFactStats 1 0 1)
  /\ length (LoadFactSales.fact_sales out2.1) = 1%nat
  /\ out3.1 = Ok (mkFactStats 1 0 1)
  /\ get_last_watermark (etl_watermark out1.2) "fact_sales" oltp
     = Some (mkWatermark (Some 172800) (Some 2) None 1 0)
  /\ get_last_watermark (LoadFactSales.watermarks out2.1) "fact_sales" oltp
     = Some (mkWatermark (Some 172800) (Some 10) (Some "536365") 2 0)
  /\ get_last_watermark (etl_watermark out3.2) "fact_sales" oltp
     = Some (mkWatermark (Some 259200) (Some 3) (Some "536365") 3 0).
Proof. vm_compute. by split_and!. Qed.

(** The same in one step of the loader, from a watermark whose date is
    ahead of its timestamp. *)
Lemma date_ahead_is_overwritten :
  let store := [mkWatermarkRow "fact_sales" oltp (Some 172800) (Some 10) None 0 0] in
  let out := load_fact_sales_incremental (no_faults 0) sales_day3 oltp
               "InvoiceDate" (mkDB ∅ store) in
  out.1 = Ok (mkFactStats 1 0 1)
  /\ get_last_watermark (etl_watermark out.2) "fact_sales" oltp
     = Some (mkWatermark (Some 259200) (Some 3) None 1 0).
Proof. vm_compute. by split_and!. Qed.

(** C6 along two loads of the loader from the seeded watermark, and
    along the load of day 3 from the watermark that the script left,
    whose date (day 10) is ahead of its timestamp. *)
Lemma watermark_monotone_witness :
  let db0 := mkDB ∅ seeded in
  let load2 := load_fact_sales_incremental (no_faults 0) sales_day2 oltp
                 "InvoiceDate" in
  let load3 := load_fact_sales_incremental (no_faults 0) sales_day3 oltp
                 "InvoiceDate" in
  let ahead :=
    mkDB ∅ [mkWatermarkRow "fact_sales" oltp (Some 172800) (Some 10)
              (Some "536365") 2 0] in
  (exists wm',
      get_last_watermark (etl_watermark (load3 (load2 db0).2).2) "fact_sales"
        oltp = Some wm'
      /\ opt_le None (timestamp wm') /\ opt_le None (date wm')
      /\ invoice wm' = None
      /\ wm_records_processed wm' = 0 + 2 /\ wm_records_rejected wm' = 0 + 0)
  /\ (exists wm',
        get_last_watermark (etl_watermark (load3 ahead).2) "fact_sales" oltp
          = Some wm'
        /\ opt_le (Some 172800) (timestamp wm')
        /\ invoice wm' = Some "536365"
        /\ wm_records_processed wm' = 2 + (1 + 0)
        /\ wm_records_rejected wm' = 0 + (0 + 0)).
Proof.
  intros db0 load2 load3 ahead.
  assert (H2 : (load2 db0).1 = Ok (mkFactStats 1 0 1)) by (vm_compute; reflexivity).
  assert (H3 : (load3 (load2 db0).2).1 = Ok (mkFactStats 1 0 1))
    by (vm_compute; reflexivity).
  assert (H4 : (load3 ahead).1 = Ok (mkFactStats 1 0 1))
    by (vm_compute; reflexivity).
  split.
  - destruct (watermark_monotone "RETAIL_OLTP" "InvoiceDate" db0
                [mkFactStats 1 0 1; mkFactStats 1 0 1] (load3 (load2 db0).2).2
                (mkWatermark None None None 0 0))
      as (wm'&Hget&Hts&Hi&Hp&Hr&_&_&Hdate).
    + done.
    + eapply fact_loads_cons; [rewrite <- H2; apply pair_eta|].
      eapply fact_loads_cons; [rewrite <- H3; apply pair_eta|].
      apply fact_loads_nil.
    + vm_compute; reflexivity.
    + destruct Hdate as [Hd _]; [intros t d Ht; discriminate Ht|].
      exists wm'. by split_and!.
  - destruct (watermark_monotone "RETAIL_OLTP" "InvoiceDate" ahead
                [mkFactStats 1 0 1] (load3 ahead).2
                (mkWatermark (Some 172800) (Some 10) (Some "536365") 2 0))
      as (wm'&Hget&Hts&Hi&Hp&Hr&_).
    + done.
    + eapply fact_loads_cons; [rewrite <- H4; apply pair_eta|].
      apply fact_loads_nil.
    + vm_compute; reflexivity.
    + exists wm'. by split_and!.
Defined.

(** C3 at the failing input: with a watermark that only has a date
    (day 5), fact mode drops a row of day 3 and dimension mode keeps it
    and writes it. *)
Theorem dimension_mode_ignores_date_watermark :
  let db0 := mkDB {[ "dim_product" := [] ]} date_only in
  let wm := get_last_watermark (etl_watermark db0) "dim_product" oltp in
  wm = Some (mkWatermark None (Some 5) None 0 0)
  /\ (new_records_fact wm product_feed "modified_date" db0).1
     = Ok (mkDataFrame (columns product_feed) [])
  /\ (new_records_dimension wm product_feed "modified_date" db0).1
     = Ok product_feed
  /\ (load_dimension_incremental (no_faults 0) product_feed "dim_product"
        "modified_date" "product_key" oltp db0).1
     = Ok (mkDimStats 1 0 0).
Proof. vm_compute. by split_and!. Qed.

(** C2, as stated, fails: the stored California row of the customer is
    overwritten by the New York row; the table still has one row for the
    customer, none was closed and none was added. *)
Lemma upsert_overwrites_history :
  let db0 := mkDB {[ "dim_customer" := [customer_ca] ]} [] in
  let out := load_dimension_incremental (no_faults 0) customer_feed
               "dim_customer" "updated_at" "customer_id" oltp db0 in
  out.1 = Ok (mkDimStats 0 1 0)
  /\ tables out.2 !! "dim_customer" = Some [customer_ny]
  /\ customer_ca ∉ [customer_ny].
Proof.
  split_and!; [vm_compute; reflexivity..|].
  intros Hin%list_elem_of_singleton.
  apply (f_equal (fun r : Row => r !! "state")) in Hin. vm_compute in Hin.
  discriminate Hin.
Qed.

(** C2 on the customer that moves to New York: one update, no new
    row. *)
Lemma dimension_upsert_in_place_witness :
  (upsert_row "customer_id" ([customer_ca], (0, 0)) customer_ny).2 = (0, 0 + 1)
  /\ length (upsert_row "customer_id" ([customer_ca], (0, 0)) customer_ny).1
     = length [customer_ca].
Proof.
  destruct (dimension_upsert_in_place "customer_id" [customer_ca] 0 0 customer_ny)
    as (Hupd&_&_).
  destruct Hupd as (Hn&Hlen&_); [vm_compute; reflexivity|].
  by split.
Defined.

End Examples.

Section MoreExamples.

Import Samples.

Lemma one_current_k1 : one_current [k1_ca].
Proof. intros cid. simpl. destruct (current_of cid k1_ca); simpl; lia. Qed.

(** C4 on batches that change, repeat and add customers. *)
Lemma scd_exclusivity_witness :
  one_current
    (LoadCustomerMultisource.scd_load (Some "NaN") 20
       [k1_incoming "NY"; k1_incoming "NY"; k1_incoming "CA"] [k1_ca]).1
  /\ one_current
       (LoadCustomerScd.scd_load (Some "NaN") 20
          [(1, PyStr "NY"); (2, PyStr "TX")] [k1_ca]).
Proof.
  destruct (scd_exclusivity (Some "NaN") 20 [k1_ca] one_current_k1)
    as (_&_&Hm&Hs).
  split; [apply Hm|apply Hs].
Defined.

(** C7 at the failing input: the customer K1 with a demographics row
    that has no email, submitted on day 20 to an empty table and again,
    unchanged, on day 21.  Whatever the database stores for the [NaN]
    of the email, the second submission is not skipped: the row of day
    20 is closed and a second version with the same state, email and
    segment is inserted; one update is counted and no skip.  The
    customer read without the demographics columns ([None] in their
    place) is skipped when it comes again. *)
Theorem unchanged_row_without_email_is_reversioned nan_text :
  let n := mkScdCounts 0 0 0 in
  let row := k1_without_email in
  let v1 := LoadCustomerMultisource.new_row nan_text 20 1 row in
  let v2 := LoadCustomerMultisource.new_row nan_text 21 2 row in
  let first := LoadCustomerMultisource.scd_step nan_text 20 ([], n) row in
  let again := LoadCustomerMultisource.scd_step nan_text 21 (first.1, n) row in
  first = ([v1], mkScdCounts 1 0 0)
  /\ fetch_current 1 first.1 = Some v1
  /\ again = ([close_row 21 v1; v2], mkScdCounts 0 1 0)
  /\ state v2 = state v1 /\ email v2 = email v1
  /\ customer_segment v2 = customer_segment v1
  /\ LoadCustomerMultisource.scd_step nan_text 21
       ((LoadCustomerMultisource.scd_step nan_text 20 ([], n)
           (k1_incoming "CA")).1, n) (k1_incoming "CA")
     = ([LoadCustomerMultisource.new_row nan_text 20 1 (k1_incoming "CA")],
        mkScdCounts 0 0 1).
Proof. by split_and!. Qed.

(** C9, as stated, fails: a line whose product is not in [dim_product]
    is skipped without any record of it; nothing is inserted, nothing is
    written to the quarantine table, the watermark and its rejected
    counter stay as they were, and no printed line names the row or a
    reason. *)
Lemma unresolved_row_dropped_silently :
  let w := warehouse seeded in
  let out := LoadFactSales.load_fact_sales_incremental [line "UNKNOWN" 10] w in
  LoadFactSales.fact_sales out.1 = []
  /\ LoadFactSales.etl_rejected_records out.1 = []
  /\ LoadFactSales.watermarks out.1 = seeded
  /\ out.2 = [LoadFactSales.MsgLastLoadedDate None;
              LoadFactSales.MsgNewRecords 1;
              LoadFactSales.MsgLoadedKeys 1 1 1;
              LoadFactSales.MsgPrepared 0].
Proof. vm_compute. by split_and!. Qed.

(** C9 on two lines, one of which has an unknown product. *)
Lemma fact_foreign_keys_resolved_witness :
  let w := warehouse seeded in
  let out := LoadFactSales.load_fact_sales_incremental
               [line "85123A" 10; line "UNKNOWN" 11] w in
  exists f, LoadFactSales.fact_sales out.1 = [f]
            /\ LoadFactSales.f_product_key f = 11
            /\ LoadFactSales.f_customer_key f = 1
            /\ LoadFactSales.f_store_key f = 21
            /\ LoadFactSales.time_key f = 19700111.
Proof.
  intros w out.
  destruct (fact_foreign_keys_resolved [line "85123A" 10; line "UNKNOWN" 11] w)
    as (Hfacts&_).
  fold out in Hfacts. rewrite Hfacts. eexists. split; [vm_compute; reflexivity|].
  by split_and!.
Defined.


End MoreExamples.

Section AnomalyScenario.

Import AdvancedDataQuality.

Import Samples.




End AnomalyScenario.

(* ===================================================================== *)
(** ** The watermark store as a key-value store *)
(* ===================================================================== *)

Section WatermarkStore.

Import WatermarkManager.

Implicit Types (store : list WatermarkRow).

Lemma filter_map_miss (hit other : WatermarkRow -> bool)
    (f : WatermarkRow -> WatermarkRow) store :
  (forall w, other (f w) = other w) ->
  (forall w, hit w = true -> other w = false) ->
  List.filter other (map (fun w => if hit w then f w else w) store)
  = List.filter other store.
Proof.
  intros Hkeep Hmiss. induction store as [|w store IH]; simpl; [done|].
  destruct (hit w) eqn:Hw.
  - rewrite Hkeep, (Hmiss w Hw). done.
  - by rewrite IH.
Qed.

Lemma filter_map_within (hit other : WatermarkRow -> bool)
    (f : WatermarkRow -> WatermarkRow) store :
  (forall w, other (f w) = other w) ->
  (forall w, other w = true -> hit w = true) ->
  List.filter other (map (fun w => if hit w then f w else w) store)
  = map f (List.filter other store).
Proof.
  intros Hkeep Hin. induction store as [|w store IH]; simpl; [done|].
  destruct (other w) eqn:Hw.
  - rewrite (Hin w Hw), Hkeep, Hw. simpl. by rewrite IH.
  - destruct (hit w); rewrite ?Hkeep, Hw; done.
Qed.

Lemma truthy_named s : s <> "" -> truthy_source (Some s) = Some s.
Proof. intros Hs. unfold truthy_source. by rewrite bool_decide_eq_false_2. Qed.

(** X1. Reading a watermark back after an update made for a named
    source: the fields that were supplied replace the stored ones, the
    others are kept, and the two counters are the stored ones plus the
    counts of the call. *)
Theorem update_then_get store tname s wm nts nd ninv proc rej :
  s <> "" ->
  get_last_watermark store tname (Some s) = Some wm ->
  get_last_watermark (update_watermark store tname (Some s) nts nd ninv proc rej)
    tname (Some s)
  = Some {| timestamp := coalesce nts (timestamp wm);
            date := coalesce nd (date wm);
            invoice := coalesce ninv (invoice wm);
            wm_records_processed := wm_records_processed wm + proc;
            wm_records_rejected := wm_records_rejected wm + rej |}.
Proof. intros Hs Hget. by apply get_update_pair. Qed.

(** X2. An update made for a named source never adds or removes a
    record and leaves the watermark of every other (table, source) pair
    as it was. *)
Theorem update_leaves_other_pairs store tname s tname' s' nts nd ninv proc rej :
  s <> "" -> s' <> "" -> (tname', s') <> (tname, s) ->
  length (update_watermark store tname (Some s) nts nd ninv proc rej)
    = length store
  /\ get_last_watermark
       (update_watermark store tname (Some s) nts nd ninv proc rej)
       tname' (Some s')
     = get_last_watermark store tname' (Some s').
Proof.
  intros Hs Hs' Hne. unfold update_watermark, get_last_watermark.
  rewrite !truthy_named by done. split; [by rewrite length_map|].
  rewrite filter_map_miss; [done|done|].
  intros w [Ht Hsrc]%andb_true_iff.
  apply bool_decide_eq_true in Ht, Hsrc.
  unfold matches_pair. rewrite Ht, Hsrc.
  destruct (decide (tname = tname')) as [<-|Hnt].
  - rewrite bool_decide_eq_true_2 by done. simpl.
    apply bool_decide_eq_false. intros [= ->]. done.
  - by rewrite bool_decide_eq_false_2.
Qed.

(** X3. An update made without a source reaches the record of every
    source of the table: read back for any named source, the watermark
    has taken the supplied fields and counts. *)
Theorem update_without_source_reaches_all store tname s wm nts nd ninv proc rej :
  s <> "" ->
  get_last_watermark store tname (Some s) = Some wm ->
  get_last_watermark (update_watermark store tname None nts nd ninv proc rej)
    tname (Some s)
  = Some {| timestamp := coalesce nts (timestamp wm);
            date := coalesce nd (date wm);
            invoice := coalesce ninv (invoice wm);
            wm_records_processed := wm_records_processed wm + proc;
            wm_records_rejected := wm_records_rejected wm + rej |}.
Proof.
  intros Hs. unfold get_last_watermark, update_watermark.
  rewrite truthy_named by done. simpl.
  rewrite filter_map_within; [|done|].
  - destruct (List.filter _ store) as [|w l]; simpl; [done|]. by intros [= <-].
  - by intros w [? _]%andb_true_iff.
Qed.

(** X4. Two updates in a row are one update: the later supplied field
    wins, a field supplied only once is kept, and the counts add up. *)
Theorem update_twice store tname src ts1 d1 inv1 p1 r1 ts2 d2 inv2 p2 r2 :
  update_watermark
    (update_watermark store tname src ts1 d1 inv1 p1 r1)
    tname src ts2 d2 inv2 p2 r2
  = update_watermark store tname src (coalesce ts2 ts1) (coalesce d2 d1)
      (coalesce inv2 inv1) (p1 + p2) (r1 + r2).
Proof.
  unfold update_watermark. rewrite map_map. apply map_ext. intros w.
  destruct (truthy_source src) as [s|].
  - destruct (matches_pair tname s w) eqn:Hw.
    + change (matches_pair tname s (set_row ts1 d1 inv1 p1 r1 w))
        with (matches_pair tname s w). rewrite Hw.
      unfold set_row. simpl. f_equal; try lia.
      * by destruct ts2.
      * by destruct d2.
      * by destruct inv2.
    + by rewrite Hw.
  - destruct (matches_table tname w) eqn:Hw.
    + change (matches_table tname (set_row ts1 d1 inv1 p1 r1 w))
        with (matches_table tname w). rewrite Hw.
      unfold set_row. simpl. f_equal; try lia.
      * by destruct ts2.
      * by destruct d2.
      * by destruct inv2.
    + by rewrite Hw.
Qed.

End WatermarkStore.

(* ===================================================================== *)
(** ** Sorting by timestamp *)
(* ===================================================================== *)

Section Sorting.

Variable col : string.

Let le (a b : Row) : Prop := ts_le col a b = true.

Lemma ts_le_total a b : le a b \/ le b a.
Proof.
  unfold le, ts_le.
  destruct (ts_of (cell_at a col)), (ts_of (cell_at b col)); auto.
  rewrite !Z.leb_le. lia.
Qed.

Lemma ts_le_trans a b c : le a b -> le b c -> le a c.
Proof.
  unfold le, ts_le.
  destruct (ts_of (cell_at a col)), (ts_of (cell_at b col)),
    (ts_of (cell_at c col)); try done.
  rewrite !Z.leb_le. lia.
Qed.

Lemma insert_sorted_perm r l : insert_sorted col r l ≡ₚ r :: l.
Proof.
  induction l as [|x l IH]; simpl; [done|].
  destruct (_ && _); [done|]. rewrite IH. apply Permutation_swap.
Qed.

Lemma insert_sorted_sorted r l :
  ts_sorted col l -> ts_sorted col (insert_sorted col r l).
Proof.
  unfold ts_sorted. induction 1 as [|x l Hs IH Hx]; simpl.
  - repeat constructor.
  - destruct (ts_le col r x && negb (ts_le col x r)) eqn:Hlt.
    + apply andb_true_iff in Hlt as [Hrx _].
      constructor; [by constructor|]. constructor; [done|].
      eapply Forall_impl; [exact Hx|]. intros y Hy. by eapply ts_le_trans.
    + constructor; [done|].
      rewrite insert_sorted_perm. constructor; [|done].
      destruct (ts_le_total x r) as [|Hrx]; [done|].
      fold (le r x) in Hrx. unfold le in Hrx. rewrite Hrx in Hlt. simpl in Hlt.
      by apply negb_false_iff in Hlt.
Qed.

Lemma sort_rows_from acc l :
  ts_sorted col acc ->
  ts_sorted col (fold_left (fun acc r => insert_sorted col r acc) l acc)
  /\ fold_left (fun acc r => insert_sorted col r acc) l acc ≡ₚ l ++ acc.
Proof.
  revert acc. induction l as [|r l IH]; intros acc Hacc; simpl; [done|].
  destruct (IH (insert_sorted col r acc)) as [Hs Hp].
  { by apply insert_sorted_sorted. }
  split; [done|]. rewrite Hp, insert_sorted_perm.
  by rewrite Permutation_middle.
Qed.

Lemma sort_rows_sorted l : ts_sorted col (sort_rows col l).
Proof. apply sort_rows_from. constructor. Qed.

Lemma sort_rows_perm l : sort_rows col l ≡ₚ l.
Proof.
  unfold sort_rows. destruct (sort_rows_from [] l) as [_ Hp]; [constructor|].
  by rewrite app_nil_r in Hp.
Qed.

Lemma ts_sorted_filter p l :
  ts_sorted col l -> ts_sorted col (List.filter p l).
Proof.
  unfold ts_sorted. induction 1 as [|x l Hs IH Hx]; simpl; [constructor|].
  destruct (p x); [|done]. constructor; [done|].
  apply Forall_forall. intros y [Hy _]%elem_of_filter_bool.
  by eapply Forall_forall in Hx.
Qed.

End Sorting.

(* ===================================================================== *)
(** ** What a fact-mode load writes *)
(* ===================================================================== *)

Section FactEffects.

Import IncrementalLoader.

Lemma db_eta db : mkDB (tables db) (etl_watermark db) = db.
Proof. by destruct db. Qed.

Lemma log_rejected_run env rejected tname src db :
  (0 <? len rejected) = true ->
  _log_rejected_records env rejected tname src db
  = (Ok tt, mkDB (with_rejected env tname src rejected (tables db))
                 (etl_watermark db)).
Proof.
  intros Hpos. unfold _log_rejected_records, with_rejected, ret. rewrite Hpos.
  assert ((len rejected =? 0) = false) as -> by lia. simpl.
  destruct (fault env OpQuarantine); simpl; [by rewrite db_eta|done].
Qed.

(** The tail of a fact-mode load, case by case, with the database it
    leaves. *)
Lemma fact_load_tail_run env df src col new db :
  let '(valid, rejected) :=
    _validate_records (sort_values col new) "fact_sales" in
  let tabs := with_rejected env "fact_sales" src rejected
                (with_valid valid (tables db)) in
  fact_load_tail env df src col new db
  = if fault env OpValidate
    then (Raised (DatabaseError OpValidate), db)
    else if (0 <? len valid) && fault env (OpAppend "fact_sales")
    then (Raised (DatabaseError (OpAppend "fact_sales")), db)
    else if fault env OpUpdateWatermark
    then (Raised (DatabaseError OpUpdateWatermark),
          mkDB tabs (etl_watermark db))
    else (Ok (mkFactStats (len valid) (len rejected) (len new)),
          mkDB tabs
            (WatermarkManager.update_watermark (etl_watermark db)
               "fact_sales" src (ts_max col df) (date_of <$> ts_max col df)
               None (len valid) (len rejected))).
Proof.
  destruct (_validate_records _ _) as [valid rejected] eqn:Hv.
  unfold fact_load_tail, validate, attempt, bind, raise, ret.
  destruct (fault env OpValidate); [done|]. rewrite Hv.
  unfold to_sql, attempt, bind, raise, ret, with_valid, appended.
  destruct (0 <? len valid) eqn:Hlen; simpl.
  - destruct (fault env (OpAppend "fact_sales")); [done|]. simpl.
    destruct (0 <? len rejected) eqn:Hrej.
    + rewrite log_rejected_run by done. simpl.
      unfold call_update_watermark, attempt, raise.
      destruct (fault env OpUpdateWatermark); [done|].
      by rewrite len_sort_values.
    + unfold with_rejected. rewrite Hrej. simpl.
      unfold call_update_watermark, attempt, raise.
      destruct (fault env OpUpdateWatermark); [done|].
      by rewrite len_sort_values.
  - assert (len valid = 0) as Hz by (pose proof (len_nonneg valid); lia).
    destruct (0 <? len rejected) eqn:Hrej.
    + rewrite log_rejected_run by done. simpl.
      unfold call_update_watermark, attempt, raise.
      destruct (fault env OpUpdateWatermark); [done|].
      by rewrite len_sort_values, Hz.
    + unfold with_rejected. rewrite Hrej. simpl.
      unfold call_update_watermark, attempt, raise. rewrite db_eta.
      destruct (fault env OpUpdateWatermark); [done|].
      by rewrite len_sort_values, Hz.
Qed.

Lemma validate_len df tname :
  len (_validate_records df tname).1 + len (_validate_records df tname).2
  = len df.
Proof.
  unfold _validate_records, len, select; simpl.
  rewrite <- Nat2Z.inj_add. f_equal. apply filter_split_length.
Qed.

Lemma validate_perm df tname :
  rows (_validate_records df tname).1 ++ rows (_validate_records df tname).2
  ≡ₚ rows df.
Proof. unfold _validate_records, select; simpl. apply filter_split_perm. Qed.

Lemma lookup_total_appended table new_rows (tabs : gmap string (list Row)) t :
  appended table new_rows tabs !!! t
  = if decide (table = t) then (tabs !!! t) ++ new_rows else tabs !!! t.
Proof.
  unfold appended. destruct (decide (table = t)) as [->|Hne].
  - by rewrite lookup_total_insert_eq.
  - by rewrite lookup_total_insert_ne.
Qed.

(** X5. A successful fact-mode load that found new rows returns the
    numbers of valid, rejected and new rows, which add up; it appends to
    [fact_sales] exactly the valid new rows, in ascending order of their
    timestamps, and the rows it took are the new rows in another
    order. *)
Theorem fact_load_appends_valid_rows env df src col db stats db' :
  load_fact_sales_incremental env df src col db = (Ok stats, db') ->
  total stats <> 0 ->
  exists new valid_df rejected_df,
    new_records_fact
      (WatermarkManager.get_last_watermark (etl_watermark db) "fact_sales" src)
      df col db = (Ok new, db)
    /\ _validate_records (sort_values col new) "fact_sales"
       = (valid_df, rejected_df)
    /\ stats = mkFactStats (len valid_df) (len rejected_df) (len new)
    /\ inserted stats + rejected stats = total stats
    /\ tables db' !!! "fact_sales"
       = (tables db !!! "fact_sales") ++ rows valid_df
    /\ ts_sorted col (rows valid_df)
    /\ rows valid_df ++ rows rejected_df ≡ₚ rows new.
Proof.
  intros Hload Htotal. rewrite load_unfold in Hload.
  destruct (fault env OpSelectWatermark); [done|].
  destruct (new_records_fact _ df col db) as [[new|e] db1] eqn:Hnew; [|done].
  pose proof (new_records_fact_db _ _ _ _ _ _ Hnew) as ->.
  destruct (len new =? 0).
  { injection Hload as <- <-. done. }
  destruct (has_column new col); [|done].
  pose proof (fact_load_tail_run env df src col new db) as Hrun.
  pose proof (validate_len (sort_values col new) "fact_sales") as Hlen.
  pose proof (validate_perm (sort_values col new) "fact_sales") as Hperm.
  destruct (_validate_records _ _) as [valid rejected_df] eqn:Hv.
  rewrite Hrun in Hload.
  destruct (fault env OpValidate); [done|].
  destruct (_ && _); [done|].
  destruct (fault env OpUpdateWatermark); [done|].
  injection Hload as <- <-. simpl in *.
  exists new, valid, rejected_df. rewrite len_sort_values in Hlen.
  split_and!; try done.
  - unfold with_rejected, with_valid.
    destruct (_ && _); rewrite ?lookup_total_appended; simpl.
    + destruct (0 <? len valid) eqn:Hpos; rewrite ?lookup_total_appended; simpl.
      * done.
      * apply Z.ltb_ge in Hpos. unfold len in Hpos.
        destruct (rows valid); [by rewrite app_nil_r|simpl in Hpos; lia].
    + destruct (0 <? len valid) eqn:Hpos; rewrite ?lookup_total_appended; simpl.
      * done.
      * apply Z.ltb_ge in Hpos. unfold len in Hpos.
        destruct (rows valid); [by rewrite app_nil_r|simpl in Hpos; lia].
  - injection Hv as <- _. apply ts_sorted_filter, sort_rows_sorted.
  - rewrite Hperm. apply sort_rows_perm.
Qed.

End FactEffects.

(* ===================================================================== *)
(** ** Edge cases of the two loads *)
(* ===================================================================== *)

Section LoadEdges.

Import IncrementalLoader.

(** X6. A failure of the quarantine write is tolerated: with or without
    it a fact-mode load ends the same way, with the same statistics or
    the same exception, the same watermark table and the same
    [fact_sales]. *)
Theorem quarantine_failure_is_tolerated env env' df src col db :
  same_but_quarantine env env' ->
  let out := load_fact_sales_incremental env df src col db in
  let out' := load_fact_sales_incremental env' df src col db in
  out'.1 = out.1
  /\ etl_watermark out'.2 = etl_watermark out.2
  /\ tables out'.2 !!! "fact_sales" = tables out.2 !!! "fact_sales".
Proof.
  intros [_ Hsame] out out'. subst out out'. rewrite !load_unfold.
  rewrite (Hsame OpSelectWatermark) by done.
  destruct (fault env OpSelectWatermark); [done|].
  destruct (new_records_fact _ df col db) as [[new|e] db1] eqn:Hnew; [|done].
  pose proof (new_records_fact_db _ _ _ _ _ _ Hnew) as ->.
  destruct (len new =? 0); [done|].
  destruct (has_column new col); [|done].
  pose proof (fact_load_tail_run env df src col new db) as Hrun.
  pose proof (fact_load_tail_run env' df src col new db) as Hrun'.
  destruct (_validate_records _ _) as [valid rejected_df].
  rewrite Hrun, Hrun'.
  rewrite (Hsame OpValidate), (Hsame (OpAppend "fact_sales")),
    (Hsame OpUpdateWatermark) by done.
  destruct (fault env OpValidate); [done|].
  destruct (_ && _); [done|].
  assert (Hfacts : forall e0 : Env,
             with_rejected e0 "fact_sales" src rejected_df
               (with_valid valid (tables db)) !!! "fact_sales"
             = with_valid valid (tables db) !!! "fact_sales").
  { intros e0. unfold with_rejected.
    destruct ((0 <? len rejected_df) && negb (fault e0 OpQuarantine)); [|done].
    rewrite lookup_total_appended. by simpl. }
  destruct (fault env OpUpdateWatermark); simpl; by rewrite !Hfacts.
Qed.

Lemma load_dimension_unfold env df tname col uk src db :
  load_dimension_incremental env df tname col uk src db
  = if has_column df col then
      if fault env OpSelectWatermark
      then (Raised (DatabaseError OpSelectWatermark), db)
      else
        match new_records_dimension
                (WatermarkManager.get_last_watermark (etl_watermark db) tname src)
                df col db with
        | (Ok new, _) =>
            if len new =? 0 then (Ok (mkDimStats 0 0 0), db)
            else
              let '(valid, rejected_df) :=
                _validate_records (sort_values col new) tname in
              if fault env OpValidate
              then (Raised (DatabaseError OpValidate), db)
              else
                match _upsert_dimension env valid tname uk db with
                | (Ok (ins, upd), db1) =>
                    let tabs := with_rejected env tname src rejected_df
                                  (tables db1) in
                    if fault env OpUpdateWatermark
                    then (Raised (DatabaseError OpUpdateWatermark),
                          mkDB tabs (etl_watermark db1))
                    else (Ok (mkDimStats ins upd (len rejected_df)),
                          mkDB tabs
                            (WatermarkManager.update_watermark (etl_watermark db1)
                               tname src (ts_max col df)
                               (date_of <$> ts_max col df) None
                               (ins + upd) (len rejected_df)))
                | (Raised e, db1) => (Raised e, db1)
                end
        | (Raised e, db1) => (Raised e, db1)
        end
    else (Raised (ValueError col), db).
Proof.
  unfold load_dimension_incremental, bind, raise, ret.
  destruct (has_column df col); [|done].
  unfold call_get_last_watermark, attempt, raise.
  destruct (fault env OpSelectWatermark); [done|]. cbv beta iota.
  destruct (new_records_dimension _ df col db) as [[new|e] db1] eqn:Hnew; [|done].
  pose proof (new_records_dimension_db _ _ _ _ _ _ Hnew) as ->.
  destruct (len new =? 0); [done|].
  unfold validate, attempt, raise, ret.
  destruct (_validate_records _ _) as [valid rejected_df].
  destruct (fault env OpValidate); [done|].
  destruct (_upsert_dimension env valid tname uk db) as [[[ins upd]|e] db1];
    [|done].
  destruct (0 <? len rejected_df) eqn:Hrej.
  - rewrite log_rejected_run by done. simpl.
    unfold call_update_watermark, attempt, raise.
    by destruct (fault env OpUpdateWatermark).
  - unfold with_rejected. rewrite Hrej. simpl.
    unfold call_update_watermark, attempt, raise. rewrite db_eta.
    by destruct (fault env OpUpdateWatermark).
Qed.

(** The upsert either changes one table and returns its counts, or
    raises and changes nothing. *)
Lemma upsert_dimension_run env df tname uk db :
  (exists e, _upsert_dimension env df tname uk db = (Raised e, db))
  \/ (rows df = [] /\ _upsert_dimension env df tname uk db = (Ok (0, 0), db))
  \/ (exists table,
        rows df <> [] /\ tables db !! tname = Some table
        /\ _upsert_dimension env df tname uk db
           = (Ok (upsert_rows uk table (rows df)).2,
              mkDB (<[tname := (upsert_rows uk table (rows df)).1]> (tables db))
                   (etl_watermark db))).
Proof.
  unfold _upsert_dimension.
  destruct (rows df) as [|r l] eqn:Hrows; [right; left; done|].
  unfold require_column, bind, ret, raise, attempt.
  destruct (has_column df uk); [|left; by eexists].
  destruct (fault env (OpUpsert tname)); [left; by eexists|].
  destruct (tables db !! tname) as [table|] eqn:Ht; [|left; by eexists].
  right. right. exists table. split_and!; [done..|].
  by destruct (upsert_rows uk table (r :: l)).
Qed.

(** X7. A load whose source has no row newer than the watermark is a
    success without effect, in both modes: it returns zero counts and
    leaves the database as it is, whatever would have failed later. *)
Theorem empty_batch_is_a_no_op env df tname col uk src db last wm :
  fault env OpSelectWatermark = false ->
  has_column df col = true ->
  WatermarkManager.timestamp wm = Some last ->
  (forall r t, r ∈ rows df -> cell_at r col = Ts t -> t <= last) ->
  (WatermarkManager.get_last_watermark (etl_watermark db) "fact_sales" src
     = Some wm ->
   load_fact_sales_incremental env df src col db
   = (Ok (mkFactStats 0 0 0), db))
  /\ (WatermarkManager.get_last_watermark (etl_watermark db) tname src
        = Some wm ->
      load_dimension_incremental env df tname col uk src db
      = (Ok (mkDimStats 0 0 0), db)).
Proof.
  intros Hsel Hcol Hts Hold.
  assert (Hempty : rows (after_timestamp col last df) = []).
  { destruct (rows (after_timestamp col last df)) as [|r l] eqn:Hr; [done|].
    assert (Hin : r ∈ rows (after_timestamp col last df)) by (rewrite Hr; by left).
    apply elem_of_after_timestamp in Hin as (Hin&t&Ht&Hlt).
    specialize (Hold r t Hin Ht). lia. }
  apply len_zero in Hempty.
  destruct wm as [ts d i p r]. simpl in Hts. subst ts. split; intros Hwm.
  - rewrite load_unfold, Hsel, Hwm.
    unfold new_records_fact, require_column, bind, ret. rewrite Hcol.
    by rewrite Hempty.
  - rewrite load_dimension_unfold, Hcol, Hsel, Hwm.
    unfold new_records_dimension, ret. by rewrite Hempty.
Qed.

(** X8. A source frame without the timestamp column: dimension mode
    raises [ValueError] before it touches the database, even before it
    reads the watermark; fact mode raises [KeyError] as soon as it has
    rows to look at, and writes nothing either. *)
Theorem missing_timestamp_column env df tname col uk src db :
  has_column df col = false ->
  load_dimension_incremental env df tname col uk src db
  = (Raised (ValueError col), db)
  /\ (fault env OpSelectWatermark = false -> rows df <> [] ->
      load_fact_sales_incremental env df src col db
      = (Raised (KeyError col), db)).
Proof.
  intros Hcol. split.
  - by rewrite load_dimension_unfold, Hcol.
  - intros Hsel Hne. rewrite load_unfold, Hsel.
    unfold new_records_fact, require_column, bind, ret, raise.
    destruct (WatermarkManager.get_last_watermark _ _ _)
      as [[[t|] [d|] ? ? ?]|]; rewrite ?Hcol; try done.
    all: destruct (len df =? 0) eqn:Hlen;
      [by apply len_zero in Hlen|done].
Qed.

(** X9. A dimension-mode load that raises never advances the watermark,
    and unless the exception comes from the watermark update itself it
    leaves the whole database as it was: a failed upsert writes no
    row. *)
Theorem dimension_load_failure_is_atomic env df tname col uk src db e :
  let out := load_dimension_incremental env df tname col uk src db in
  out.1 = Raised e ->
  etl_watermark out.2 = etl_watermark db
  /\ (e <> DatabaseError OpUpdateWatermark -> out.2 = db).
Proof.
  intros out. subst out. rewrite load_dimension_unfold.
  destruct (has_column df col); [|done].
  destruct (fault env OpSelectWatermark); [done|].
  destruct (new_records_dimension _ df col db) as [[new|e0] db1] eqn:Hnew.
  2:{ pose proof (new_records_dimension_db _ _ _ _ _ _ Hnew) as ->. done. }
  destruct (len new =? 0); [done|].
  destruct (_validate_records _ _) as [valid rejected_df].
  destruct (fault env OpValidate); [done|].
  destruct (upsert_dimension_run env valid tname uk db)
    as [[e0 ->]|[[_ ->]|(table&_&_&->)]]; [done| |].
  - destruct (fault env OpUpdateWatermark); [|done]. simpl.
    intros [= <-]. done.
  - destruct (upsert_rows uk table (rows valid)) as [table' [ins upd]]. simpl.
    destruct (fault env OpUpdateWatermark); [|done]. simpl.
    intros [= <-]. done.
Qed.

End LoadEdges.

(* ===================================================================== *)
(** ** The upsert, row by row *)
(* ===================================================================== *)

Section UpsertRows.

Import IncrementalLoader.

Variable unique_key : string.

Lemma count_where_zero p (table : list Row) :
  count_where p table = 0 <-> forall r, r ∈ table -> p r = false.
Proof.
  unfold count_where. split.
  - intros Hz r Hr. destruct (p r) eqn:Hp; [|done].
    assert (Hin : r ∈ List.filter p table) by (by apply elem_of_filter_bool).
    destruct (List.filter p table); [by apply elem_of_nil in Hin|].
    simpl in Hz. lia.
  - intros Hall. induction table as [|x table IH]; simpl; [done|].
    rewrite (Hall x) by (by left). apply IH. intros r Hr. apply Hall. by right.
Qed.

Lemma upsert_row_from table i u row :
  let out := upsert_row unique_key (table, (i, u)) row in
  out.2.1 + out.2.2 = i + u + 1
  /\ Z.of_nat (length out.1) = Z.of_nat (length table) + (out.2.1 - i)
  /\ i <= out.2.1 /\ u <= out.2.2.
Proof.
  unfold upsert_row. destruct (0 <? _); simpl.
  - rewrite length_map. lia.
  - rewrite length_app. simpl. lia.
Qed.

Lemma upsert_rows_from table i u df_rows :
  let out := fold_left (upsert_row unique_key) df_rows (table, (i, u)) in
  out.2.1 + out.2.2 = i + u + Z.of_nat (length df_rows)
  /\ Z.of_nat (length out.1) = Z.of_nat (length table) + (out.2.1 - i)
  /\ i <= out.2.1 /\ u <= out.2.2.
Proof.
  revert table i u. induction df_rows as [|row l IH]; intros table i u.
  - simpl. lia.
  - cbn [fold_left].
    pose proof (upsert_row_from table i u row) as Hstep.
    destruct (upsert_row unique_key (table, (i, u)) row) as [t1 [i1 u1]].
    specialize (IH t1 i1 u1). simpl in *.
    destruct (fold_left _ l _) as [t2 [i2 u2]]. simpl in *. lia.
Qed.

(** X10. The upsert accounts for every row it is given: the inserted and
    the updated counts add up to the number of rows, none is negative,
    and the table grows by exactly the inserted count. *)
Theorem upsert_counts_every_row table df_rows :
  let out := upsert_rows unique_key table df_rows in
  out.2.1 + out.2.2 = Z.of_nat (length df_rows)
  /\ Z.of_nat (length out.1) = Z.of_nat (length table) + out.2.1
  /\ 0 <= out.2.1 /\ 0 <= out.2.2.
Proof.
  unfold upsert_rows.
  pose proof (upsert_rows_from table 0 0 df_rows) as H. simpl in *. lia.
Qed.



Lemma overwrite_twice row r :
  overwrite unique_key row (overwrite unique_key row r)
  = overwrite unique_key row r.
Proof.
  unfold overwrite. by rewrite (assoc_L (∪)), (idemp_L (∪)).
Qed.

Lemma overwrite_self row : overwrite unique_key row row = row.
Proof.
  unfold overwrite. apply map_subseteq_union, delete_subseteq.
Qed.

(** X12. Submitting again a row whose key equals itself (any key that is
    not NULL) changes nothing more: the table is the one the first
    submission left, and the row counts as one more update. *)
Theorem upsert_again_changes_nothing table i u row :
  sql_eq (cell_at row unique_key) (cell_at row unique_key) = true ->
  let once := upsert_row unique_key (table, (i, u)) row in
  upsert_row unique_key once row = (once.1, (once.2.1, once.2.2 + 1)).
Proof.
  intros Hkey once. subst once. set (key := cell_at row unique_key) in *.
  destruct (0 <? count_where (key_matches unique_key key) table) eqn:Hex.
  - (* the row was there: it is overwritten twice with the same values *)
    assert (Hone : upsert_row unique_key (table, (i, u)) row
                   = (map (fun r => if key_matches unique_key key r
                                    then overwrite unique_key row r else r) table,
                      (i, u + 1))).
    { unfold upsert_row. fold key. by rewrite Hex. }
    rewrite Hone. simpl. unfold upsert_row. fold key.
    assert (Hsame : forall t : list Row,
               List.filter (key_matches unique_key key)
                 (map (fun r => if key_matches unique_key key r
                                then overwrite unique_key row r else r) t)
               = map (overwrite unique_key row)
                   (List.filter (key_matches unique_key key) t)).
    { induction t as [|r t IH]; simpl; [done|].
      destruct (key_matches unique_key key r) eqn:Hr.
      - rewrite key_matches_overwrite, Hr. simpl. by rewrite IH.
      - by rewrite Hr. }
    assert (Hcount : count_where (key_matches unique_key key)
                       (map (fun r => if key_matches unique_key key r
                                      then overwrite unique_key row r else r) table)
                     = count_where (key_matches unique_key key) table).
    { unfold count_where. by rewrite Hsame, length_map. }
    rewrite Hcount, Hex. f_equal. rewrite map_map. apply map_ext. intros r.
    destruct (key_matches unique_key key r) eqn:Hr.
    + by rewrite key_matches_overwrite, Hr, overwrite_twice.
    + by rewrite Hr.
  - (* the row was inserted: it is now the only one with its key *)
    assert (Hone : upsert_row unique_key (table, (i, u)) row
                   = (table ++ [row], (i + 1, u))).
    { unfold upsert_row. fold key. by rewrite Hex. }
    rewrite Hone. simpl. unfold upsert_row. fold key.
    assert (Hnone : forall r, r ∈ table -> key_matches unique_key key r = false).
    { apply count_where_zero. apply Z.ltb_ge in Hex.
      pose proof (count_where_nonneg (key_matches unique_key key) table).
      lia. }
    assert (Hcount : count_where (key_matches unique_key key) (table ++ [row]) = 1).
    { unfold count_where. rewrite List.filter_app, length_app. simpl.
      unfold key_matches at 2. fold key. rewrite Hkey. simpl.
      assert (count_where (key_matches unique_key key) table = 0) as Hz
        by (by apply count_where_zero).
      unfold count_where in Hz. lia. }
    rewrite Hcount. simpl. f_equal. rewrite map_app. simpl.
    unfold key_matches at 2. fold key. rewrite Hkey, overwrite_self. f_equal.
    rewrite <- (map_id table) at 2. apply map_ext_in. intros r Hr.
    by rewrite Hnone by (by apply list_elem_of_In).
Qed.

End UpsertRows.

Section DimensionAccounts.

Import IncrementalLoader.

(** X13. A successful dimension-mode load that found new rows accounts
    for each of them: a valid row is either inserted or updated, the
    others are rejected, and the watermark is advanced to the latest
    timestamp of the source with the number of rows written and the
    number rejected. *)
Theorem dimension_load_accounts env df tname col uk src db stats db' :
  load_dimension_incremental env df tname col uk src db = (Ok stats, db') ->
  exists new valid_df rejected_df,
    new_records_dimension
      (WatermarkManager.get_last_watermark (etl_watermark db) tname src)
      df col db = (Ok new, db)
    /\ _validate_records (sort_values col new) tname = (valid_df, rejected_df)
    /\ (rows new = [] -> stats = mkDimStats 0 0 0 /\ db' = db)
    /\ (rows new <> [] ->
        dim_inserted stats + dim_updated stats = len valid_df
        /\ dim_rejected stats = len rejected_df
        /\ dim_inserted stats + dim_updated stats + dim_rejected stats = len new
        /\ 0 <= dim_inserted stats /\ 0 <= dim_updated stats
        /\ etl_watermark db'
           = WatermarkManager.update_watermark (etl_watermark db) tname src
               (ts_max col df) (date_of <$> ts_max col df) None
               (dim_inserted stats + dim_updated stats) (dim_rejected stats)).
Proof.
  intros Hload. rewrite load_dimension_unfold in Hload.
  destruct (has_column df col); [|done].
  destruct (fault env OpSelectWatermark); [done|].
  destruct (new_records_dimension _ df col db) as [[new|e] db1] eqn:Hnew; [|done].
  pose proof (new_records_dimension_db _ _ _ _ _ _ Hnew) as ->.
  pose proof (validate_len (sort_values col new) tname) as Hlen.
  rewrite len_sort_values in Hlen.
  destruct (_validate_records _ _) as [valid rejected_df] eqn:Hv.
  exists new, valid, rejected_df. split; [done|]. split; [done|].
  destruct (len new =? 0) eqn:Hz.
  { injection Hload as <- <-. split; [done|]. intros Hne.
    by apply len_zero in Hz. }
  split; [intros Hnil%len_zero; congruence|]. intros _.
  destruct (fault env OpValidate); [done|].
  simpl in Hlen.
  destruct (upsert_dimension_run env valid tname uk db)
    as [[e0 Hu]|[[Hnil Hu]|(table&Hne&Ht&Hu)]]; rewrite Hu in Hload; [done| |].
  - destruct (fault env OpUpdateWatermark); [done|].
    injection Hload as <- <-. simpl.
    assert (len valid = 0) by (unfold len; by rewrite Hnil).
    split_and!; try done; lia.
  - pose proof (upsert_rows_from uk table 0 0 (rows valid)) as Hcount.
    fold (upsert_rows uk table (rows valid)) in Hcount.
    destruct (upsert_rows uk table (rows valid)) as [table' [ins upd]].
    simpl in *.
    destruct (fault env OpUpdateWatermark); [done|].
    injection Hload as <- <-. simpl. unfold len in *.
    split_and!; try done; lia.
Qed.

End DimensionAccounts.

(* ===================================================================== *)
(** ** Further worked scenarios *)
(* ===================================================================== *)

Section MoreScenarios.

Import IncrementalLoader WatermarkManager Samples MoreSamples.

(** X1 on the seeded watermark. *)
Lemma update_then_get_witness :
  get_last_watermark
    (update_watermark seeded "fact_sales" oltp (Some 200) (Some 0) None 2 0)
    "fact_sales" oltp
  = Some (mkWatermark (Some 200) (Some 0) None (0 + 2) (0 + 0)).
Proof.
  apply (update_then_get seeded "fact_sales" "RETAIL_OLTP"
           (mkWatermark None None None 0 0) (Some 200) (Some 0) None 2 0).
  - done.
  - reflexivity.
Defined.

(** X2: the watermark of the product dimension is not touched by an
    update of the sales facts. *)
Lemma update_leaves_other_pairs_witness :
  length (update_watermark two_tables "fact_sales" oltp (Some 200) (Some 0)
            None 2 0) = length two_tables
  /\ get_last_watermark
       (update_watermark two_tables "fact_sales" oltp (Some 200) (Some 0)
          None 2 0)
       "dim_product" oltp
     = get_last_watermark two_tables "dim_product" oltp.
Proof.
  apply (update_leaves_other_pairs two_tables "fact_sales" "RETAIL_OLTP"
           "dim_product" "RETAIL_OLTP" (Some 200) (Some 0) None 2 0).
  - done.
  - done.
  - discriminate.
Defined.

(** X3: an update without a source reaches the record of the source. *)
Lemma update_without_source_reaches_all_witness :
  get_last_watermark
    (update_watermark seeded "fact_sales" None (Some 200) (Some 0) None 2 0)
    "fact_sales" oltp
  = Some (mkWatermark (Some 200) (Some 0) None (0 + 2) (0 + 0)).
Proof.
  apply (update_without_source_reaches_all seeded "fact_sales" "RETAIL_OLTP"
           (mkWatermark None None None 0 0) (Some 200) (Some 0) None 2 0).
  - done.
  - reflexivity.
Defined.

(** X5 on the frame with a null key, a negative price and a clean row. *)
Lemma fact_load_appends_valid_rows_witness :
  let db0 := mkDB ∅ seeded in
  let out := load_fact_sales_incremental (no_faults 0) mixed_sales oltp
               "transaction_date" db0 in
  exists new valid_df rejected_df,
    new_records_fact
      (get_last_watermark (etl_watermark db0) "fact_sales" oltp)
      mixed_sales "transaction_date" db0 = (Ok new, db0)
    /\ _validate_records (sort_values "transaction_date" new) "fact_sales"
       = (valid_df, rejected_df)
    /\ mkFactStats 1 2 3 = mkFactStats (len valid_df) (len rejected_df) (len new)
    /\ 1 + 2 = 3
    /\ tables out.2 !!! "fact_sales"
       = (tables db0 !!! "fact_sales") ++ rows valid_df
    /\ ts_sorted "transaction_date" (rows valid_df)
    /\ rows valid_df ++ rows rejected_df ≡ₚ rows new.
Proof.
  intros db0 out.
  assert (H1 : out.1 = Ok (mkFactStats 1 2 3)) by (vm_compute; reflexivity).
  apply (fact_load_appends_valid_rows (no_faults 0) mixed_sales oltp
           "transaction_date" db0 (mkFactStats 1 2 3) out.2).
  - rewrite <- H1. apply pair_eta.
  - discriminate.
Defined.

Lemma same_but_quarantine_sample : same_but_quarantine (no_faults 0) quarantine_fails.
Proof. split; [done|]. intros op Hop. by destruct op. Qed.

(** X6 on the same frame: two rows are rejected, their quarantine
    fails, and the load ends as if it had not. *)
Lemma quarantine_failure_is_tolerated_witness :
  let db0 := mkDB ∅ seeded in
  let out := load_fact_sales_incremental (no_faults 0) mixed_sales oltp
               "transaction_date" db0 in
  let out' := load_fact_sales_incremental quarantine_fails mixed_sales oltp
                "transaction_date" db0 in
  out'.1 = out.1
  /\ etl_watermark out'.2 = etl_watermark out.2
  /\ tables out'.2 !!! "fact_sales" = tables out.2 !!! "fact_sales".
Proof.
  apply (quarantine_failure_is_tolerated (no_faults 0) quarantine_fails
           mixed_sales oltp "transaction_date" (mkDB ∅ seeded)
           same_but_quarantine_sample).
Defined.

(** X7: the two sales are not newer than second 300. *)
Lemma empty_batch_is_a_no_op_witness :
  let db0 := mkDB ∅ at_300 in
  load_fact_sales_incremental append_fails sales oltp "transaction_date" db0
  = (Ok (mkFactStats 0 0 0), db0)
  /\ load_dimension_incremental append_fails sales "fact_sales"
       "transaction_date" "customer_id" oltp db0
     = (Ok (mkDimStats 0 0 0), db0).
Proof.
  intros db0.
  destruct (empty_batch_is_a_no_op append_fails sales "fact_sales"
              "transaction_date" "customer_id" oltp db0 300
              (mkWatermark (Some 300) (Some 0) None 2 0)) as [Hf Hd].
  - reflexivity.
  - vm_compute; reflexivity.
  - reflexivity.
  - intros r t Hr Ht. unfold sales, frame_of in Hr. simpl in Hr.
    apply elem_of_cons in Hr as [->|Hr].
    { vm_compute in Ht. injection Ht as <-. lia. }
    apply list_elem_of_singleton in Hr as ->.
    vm_compute in Ht. injection Ht as <-. lia.
  - split; [apply Hf|apply Hd]; vm_compute; reflexivity.
Defined.

(** X8: the sales frame has no column [loaded_at]. *)
Lemma missing_timestamp_column_witness :
  let db0 := mkDB ∅ seeded in
  load_dimension_incremental (no_faults 0) sales "dim_customer" "loaded_at"
    "customer_id" oltp db0
  = (Raised (ValueError "loaded_at"), db0)
  /\ load_fact_sales_incremental (no_faults 0) sales oltp "loaded_at" db0
     = (Raised (KeyError "loaded_at"), db0).
Proof.
  intros db0.
  destruct (missing_timestamp_column (no_faults 0) sales "dim_customer"
              "loaded_at" "customer_id" oltp db0) as [Hd Hf].
  - vm_compute; reflexivity.
  - split; [exact Hd|]. apply Hf; [reflexivity|].
    apply len_pos. vm_compute; reflexivity.
Defined.

(** X9 when the upsert fails. *)
Lemma dimension_load_failure_is_atomic_witness :
  let db0 := mkDB {[ "dim_product" := [] ]} date_only in
  let out := load_dimension_incremental upsert_fails product_feed "dim_product"
               "modified_date" "product_key" oltp db0 in
  etl_watermark out.2 = etl_watermark db0 /\ out.2 = db0.
Proof.
  intros db0 out.
  destruct (dimension_load_failure_is_atomic upsert_fails product_feed
              "dim_product" "modified_date" "product_key" oltp db0
              (DatabaseError (OpUpsert "dim_product"))) as [Hwm Hdb].
  - vm_compute; reflexivity.
  - split; [exact Hwm|]. apply Hdb. discriminate.
Defined.


(** X12 on the customer that moved to New York. *)
Lemma upsert_again_changes_nothing_witness :
  let once := upsert_row "customer_id" ([customer_ca], (0, 0)) customer_ny in
  upsert_row "customer_id" once customer_ny
  = (once.1, (once.2.1, once.2.2 + 1)).
Proof.
  apply (upsert_again_changes_nothing "customer_id" [customer_ca] 0 0 customer_ny).
  vm_compute; reflexivity.
Defined.

(** X13 on the product feed: one product is inserted. *)
Lemma dimension_load_accounts_witness :
  let db0 := mkDB {[ "dim_product" := [] ]} date_only in
  let out := load_dimension_incremental (no_faults 0) product_feed
               "dim_product" "modified_date" "product_key" oltp db0 in
  out.1 = Ok (mkDimStats 1 0 0)
  /\ exists new valid_df rejected_df,
       new_records_dimension
         (get_last_watermark (etl_watermark db0) "dim_product" oltp)
         product_feed "modified_date" db0 = (Ok new, db0)
       /\ _validate_records (sort_values "modified_date" new) "dim_product"
          = (valid_df, rejected_df)
       /\ (rows new <> [] -> 1 + 0 = len valid_df /\ 0 = len rejected_df).
Proof.
  intros db0 out.
  assert (H1 : out.1 = Ok (mkDimStats 1 0 0)) by (vm_compute; reflexivity).
  split; [exact H1|].
  destruct (dimension_load_accounts (no_faults 0) product_feed "dim_product"
              "modified_date" "product_key" oltp db0 (mkDimStats 1 0 0) out.2)
    as (new&valid_df&rejected_df&Hnew&Hv&_&Hsome).
  - rewrite <- H1. apply pair_eta.
  - exists new, valid_df, rejected_df. split_and!; [done|done|].
    intros Hne. destruct (Hsome Hne) as (Hi&Hr&_). by split.
Defined.

End MoreScenarios.

(* ===================================================================== *)
(** ** The history that the Type-2 loops keep *)
(* ===================================================================== *)

Section ScdHistory.

(** What the database stores for a [NaN] parameter. *)
Variable nan_text : option string.

Implicit Types (table : list DimCustomerRow) (r : DimCustomerRow).

(** The versions stored for a customer. *)
Let versions (cid : Z) table : nat :=
  length (List.filter (fun r => customer_id r =? cid) table).

(** [r] is still stored, as it was or closed. *)
Let kept (today : Z) r table : Prop :=
  r ∈ table \/ close_row today r ∈ table.

Lemma close_row_twice today r :
  close_row today (close_row today r) = close_row today r.
Proof. done. Qed.

Lemma expire_keeps today ck table r :
  r ∈ table -> kept today r (expire today ck table).
Proof.
  intros Hr. unfold kept, expire.
  destruct (customer_key r =? ck) eqn:Hk; [right|left];
    apply list_elem_of_fmap; exists r; by rewrite Hk.
Qed.

Lemma expire_versions today ck cid table :
  versions cid (expire today ck table) = versions cid table.
Proof.
  unfold versions, expire. induction table as [|x table IH]; simpl; [done|].
  destruct (customer_key x =? ck); simpl;
    destruct (customer_id x =? cid); simpl; by rewrite IH.
Qed.

Lemma expire_length today ck table :
  length (expire today ck table) = length table.
Proof. unfold expire. apply length_map. Qed.

Lemma kept_step today (step : list DimCustomerRow -> list DimCustomerRow)
    table r :
  (forall x, x ∈ table -> kept today x (step table)) ->
  kept today r table -> kept today r (step table).
Proof.
  intros Hstep [Hr|Hr]; [by apply Hstep|].
  destruct (Hstep _ Hr) as [H|H]; right; [done|]. by rewrite close_row_twice in H.
Qed.

Lemma multisource_step_keeps today table n row r :
  r ∈ table ->
  kept today r (LoadCustomerMultisource.scd_step nan_text today (table, n) row).1.
Proof.
  intros Hr. unfold LoadCustomerMultisource.scd_step,
    LoadCustomerMultisource.insert_customer.
  destruct (fetch_current _ table) as [result|].
  - destruct (LoadCustomerMultisource.changed result row); simpl; [|by left].
    destruct (expire_keeps today (customer_key result) table r Hr) as [H|H];
      [left|right]; apply elem_of_app; by left.
  - simpl. left. apply elem_of_app. by left.
Qed.

Lemma multisource_step_versions today table n row cid :
  (versions cid table
   <= versions cid (LoadCustomerMultisource.scd_step nan_text today (table, n) row).1)%nat
  /\ (length table
      <= length (LoadCustomerMultisource.scd_step nan_text today (table, n) row).1)%nat.
Proof.
  unfold LoadCustomerMultisource.scd_step,
    LoadCustomerMultisource.insert_customer.
  destruct (fetch_current _ table) as [result|].
  - destruct (LoadCustomerMultisource.changed result row); simpl; [|done].
    unfold versions. rewrite List.filter_app, !length_app.
    fold (versions cid (expire today (customer_key result) table)).
    rewrite expire_versions, expire_length. unfold versions. lia.
  - simpl. unfold versions. rewrite List.filter_app, !length_app. lia.
Qed.

Lemma scd_step_keeps today table row r :
  r ∈ table -> kept today r (LoadCustomerScd.scd_step nan_text today table row).
Proof.
  intros Hr. unfold LoadCustomerScd.scd_step, LoadCustomerScd.insert_customer.
  destruct row as [cid country].
  destruct (fetch_current cid table) as [result|].
  - destruct (differs (state result) country); [|by left].
    destruct (expire_keeps today (customer_key result) table r Hr) as [H|H];
      [left|right]; apply elem_of_app; by left.
  - left. apply elem_of_app. by left.
Qed.

Lemma scd_step_versions today table row cid :
  (versions cid table <= versions cid (LoadCustomerScd.scd_step nan_text today table row))%nat
  /\ (length table <= length (LoadCustomerScd.scd_step nan_text today table row))%nat.
Proof.
  unfold LoadCustomerScd.scd_step, LoadCustomerScd.insert_customer.
  destruct row as [c country].
  destruct (fetch_current c table) as [result|].
  - destruct (differs (state result) country); [|done].
    unfold versions. rewrite List.filter_app, !length_app.
    fold (versions cid (expire today (customer_key result) table)).
    rewrite expire_versions, expire_length. unfold versions. lia.
  - unfold versions. rewrite List.filter_app, !length_app. lia.
Qed.

Lemma multisource_load_keeps today l r :
  forall t n,
    kept today r t ->
    kept today r (fold_left (LoadCustomerMultisource.scd_step nan_text today) l (t, n)).1.
Proof.
  induction l as [|row l IH]; intros t n Hk; [done|]. cbn [fold_left].
  assert (Hk' : kept today r (LoadCustomerMultisource.scd_step nan_text today (t, n) row).1).
  { apply (kept_step today
             (fun t => (LoadCustomerMultisource.scd_step nan_text today (t, n) row).1));
      [|done]. intros x Hx. by apply multisource_step_keeps. }
  destruct (LoadCustomerMultisource.scd_step nan_text today (t, n) row) as [t' n'].
  by apply IH.
Qed.

Lemma multisource_load_versions today l cid :
  forall t n,
    (versions cid t
     <= versions cid (fold_left (LoadCustomerMultisource.scd_step nan_text today) l (t, n)).1)%nat
    /\ (length t
        <= length (fold_left (LoadCustomerMultisource.scd_step nan_text today) l (t, n)).1)%nat.
Proof.
  induction l as [|row l IH]; intros t n; [simpl; lia|]. cbn [fold_left].
  pose proof (multisource_step_versions today t n row cid) as [Hv Hl].
  destruct (LoadCustomerMultisource.scd_step nan_text today (t, n) row) as [t' n'].
  specialize (IH t' n'). simpl in *. lia.
Qed.

Lemma scd_load_keeps today l r :
  forall t, kept today r t ->
            kept today r (fold_left (LoadCustomerScd.scd_step nan_text today) l t).
Proof.
  induction l as [|row l IH]; intros t Hk; [done|]. cbn [fold_left]. apply IH.
  apply (kept_step today (fun t => LoadCustomerScd.scd_step nan_text today t row));
    [|done]. intros x Hx. by apply scd_step_keeps.
Qed.

Lemma scd_load_versions today l cid :
  forall t,
    (versions cid t
     <= versions cid (fold_left (LoadCustomerScd.scd_step nan_text today) l t))%nat
    /\ (length t <= length (fold_left (LoadCustomerScd.scd_step nan_text today) l t))%nat.
Proof.
  induction l as [|row l IH]; intros t; [simpl; lia|]. cbn [fold_left].
  pose proof (scd_step_versions today t row cid) as [Hv Hl].
  specialize (IH (LoadCustomerScd.scd_step nan_text today t row)). lia.
Qed.

(** X14. The Type-2 loops keep the history: whatever batch they process,
    every row that was stored is still stored afterwards, unchanged or
    closed (expiry date set, not current) and otherwise identical; no
    row is deleted, and for every customer the number of stored versions
    never decreases. *)
Theorem scd_keeps_history today table :
  (forall merged_customers r cid,
      let final := (LoadCustomerMultisource.scd_load nan_text today merged_customers table).1 in
      (r ∈ table -> r ∈ final \/ close_row today r ∈ final)
      /\ (length (List.filter (fun x => (customer_id x =? cid)%Z) table)
          <= length (List.filter (fun x => (customer_id x =? cid)%Z) final))%nat
      /\ (length table <= length final)%nat)
  /\ (forall customers r cid,
      let final := LoadCustomerScd.scd_load nan_text today customers table in
      (r ∈ table -> r ∈ final \/ close_row today r ∈ final)
      /\ (length (List.filter (fun x => (customer_id x =? cid)%Z) table)
          <= length (List.filter (fun x => (customer_id x =? cid)%Z) final))%nat
      /\ (length table <= length final)%nat).
Proof.
  split.
  - intros l r cid final. subst final.
    unfold LoadCustomerMultisource.scd_load. split_and!.
    + intros Hr. apply (multisource_load_keeps today l r). by left.
    + apply (multisource_load_versions today l cid).
    + apply (multisource_load_versions today l cid).
  - intros l r cid final. subst final. unfold LoadCustomerScd.scd_load.
    split_and!.
    + intros Hr. apply (scd_load_keeps today l r). by left.
    + apply (scd_load_versions today l cid).
    + apply (scd_load_versions today l cid).
Qed.

End ScdHistory.

Section ScdResubmission.

(** What the database stores for a [NaN] parameter. *)
Variable nan_text : option string.

Implicit Types (table : list DimCustomerRow) (r : DimCustomerRow).






End ScdResubmission.

(* ===================================================================== *)
(** ** The fact loading script and its watermark *)
(* ===================================================================== *)

Section FactScript.

Import LoadFactSales.

Lemma dict_fold_last `{Countable K} {V : Type} (pairs : list (K * V))
    (m : gmap K V) k :
  fold_left (fun m kv => <[kv.1 := kv.2]> m) pairs m !! k
  = match last (List.filter (fun kv => bool_decide (kv.1 = k)) pairs) with
    | Some kv => Some kv.2
    | None => m !! k
    end.
Proof.
  revert m. induction pairs as [|[k' v'] l IH]; intros m; simpl; [done|].
  rewrite IH. destruct (decide (k' = k)) as [->|Hne].
  - rewrite bool_decide_eq_true_2 by done. rewrite last_cons.
    destruct (last (List.filter _ l)); [done|]. by rewrite lookup_insert_eq.
  - rewrite bool_decide_eq_false_2 by done.
    destruct (last _); [done|]. by rewrite lookup_insert_ne.
Qed.

Lemma current_customers_filter cid table :
  List.filter (fun kv : Z * Z => bool_decide (kv.1 = cid)) (current_customers table)
  = map (fun r => (customer_id r, customer_key r))
        (List.filter (current_of cid) table).
Proof.
  unfold current_customers. induction table as [|r table IH]; simpl; [done|].
  unfold current_of at 1.
  destruct (is_current r); simpl.
  - destruct (customer_id r =? cid) eqn:Hc; simpl.
    + apply Z.eqb_eq in Hc. rewrite bool_decide_eq_true_2 by done.
      simpl. by rewrite IH.
    + apply Z.eqb_neq in Hc. rewrite bool_decide_eq_false_2 by done. done.
  - rewrite andb_false_r. done.
Qed.

(** X17. When a customer has at most one current row, the customer map
    of the fact load resolves the customer to the surrogate key of that
    current row, the one the Type-2 loop fetches, and holds no key for a
    customer without a current row. *)
Theorem customer_map_is_current_version table cid :
  (length (List.filter (current_of cid) table) <= 1)%nat ->
  dict (current_customers table) !! cid
  = customer_key <$> fetch_current cid table.
Proof.
  intros Hone. unfold dict, fetch_current.
  rewrite dict_fold_last, current_customers_filter, lookup_empty.
  destruct (List.filter (current_of cid) table) as [|r [|r' l]]; simpl in *;
    [done|done|lia].
Qed.

Lemma max_day_from df m :
  exists m', fold_left (fun acc r => match invoice_day r with
                                     | Some d => opt_max acc d
                                     | None => acc
                                     end) df (Some m) = Some m'
             /\ m <= m'
             /\ (forall r d, r ∈ df -> invoice_day r = Some d -> d <= m')
             /\ (m' = m \/ exists r, r ∈ df /\ invoice_day r = Some m').
Proof.
  revert m. induction df as [|x df IH]; intros m; simpl.
  - exists m. split_and!; [done|lia| |by left].
    intros r d Hr. by apply elem_of_nil in Hr.
  - destruct (invoice_day x) as [dx|] eqn:Hx; simpl.
    + destruct (IH (Z.max m dx)) as (m'&->&Hle&Hall&Hatt). exists m'.
      split_and!; [done|lia| |].
      * intros r d [->|Hr]%elem_of_cons Hd; [|by eapply Hall].
        rewrite Hx in Hd. injection Hd as <-. lia.
      * destruct Hatt as [->|(r&Hr&Hd)].
        -- destruct (Z.max_spec m dx) as [[_ ->]|[_ ->]].
           ++ right. exists x. split; [by left|done].
           ++ by left.
        -- right. exists r. split; [by right|done].
    + destruct (IH m) as (m'&->&Hle&Hall&Hatt). exists m'.
      split_and!; [done|lia| |].
      * intros r d [->|Hr]%elem_of_cons Hd; [|by eapply Hall].
        rewrite Hx in Hd. done.
      * destruct Hatt as [->|(r&Hr&Hd)]; [by left|].
        right. exists r. split; [by right|done].
Qed.

(** The latest day of a frame in which every row has a date: it is the
    day of one of the rows and no row is later. *)
Lemma max_day_spec df r0 :
  r0 ∈ df -> (forall r, r ∈ df -> is_Some (invoice_day r)) ->
  exists m, max_day df = Some m
            /\ (forall r d, r ∈ df -> invoice_day r = Some d -> d <= m)
            /\ exists r, r ∈ df /\ invoice_day r = Some m.
Proof.
  intros Hin Hall. unfold max_day. destruct df as [|x df]; [by apply elem_of_nil in Hin|].
  simpl. destruct (Hall x) as [dx Hx]; [by left|]. rewrite Hx. simpl.
  destruct (max_day_from df dx) as (m&->&Hle&Hbound&Hatt). exists m.
  split_and!; [done| |].
  - intros r d [->|Hr]%elem_of_cons Hd; [|by eapply Hbound].
    rewrite Hx in Hd. injection Hd as <-. lia.
  - destruct Hatt as [->|(r&Hr&Hd)].
    + exists x. split; [by left|done].
    + exists r. split; [by right|done].
Qed.

Lemma cleaned_has_day r : cleaned r = true -> is_Some (invoice_day r).
Proof.
  unfold cleaned, invoice_day. destruct (CustomerID r); [|done].
  destruct (InvoiceDate r); [by eexists|done].
Qed.

Lemma new_rows_elem last_date extract r :
  r ∈ new_rows last_date extract -> r ∈ extract /\ cleaned r = true.
Proof.
  unfold new_rows. destruct last_date as [d|].
  - destruct (1900 <? year_of d).
    + intros [H _]%elem_of_filter_bool. by apply elem_of_filter_bool in H.
    + by intros H%elem_of_filter_bool.
  - by intros H%elem_of_filter_bool.
Qed.

(** A cleaned line is taken, unless the filter on the watermark applies
    and the line is not later than the watermark. *)
Lemma new_rows_cases last_date extract r d :
  r ∈ extract -> cleaned r = true -> invoice_day r = Some d ->
  r ∈ new_rows last_date extract
  \/ exists d0, last_date = Some d0 /\ d <= d0
                /\ (1900 <? year_of d0) = true.
Proof.
  intros Hr Hc Hd. unfold new_rows.
  assert (Hin : r ∈ List.filter cleaned extract) by (by apply elem_of_filter_bool).
  destruct last_date as [d0|]; [|by left].
  destruct (1900 <? year_of d0) eqn:Hy; [|by left].
  destruct (after_day d0 r) eqn:Ha.
  - left. by apply elem_of_filter_bool.
  - right. exists d0. split_and!; [done| |done].
    unfold after_day in Ha. rewrite Hd in Ha. by apply Z.ltb_ge in Ha.
Qed.

(** A run either changes nothing or appends the prepared rows and
    advances the watermark. *)
Lemma script_run extract w :
  let wm := WatermarkManager.get_last_watermark (watermarks w) "fact_sales"
              (Some "RETAIL_OLTP") in
  let df := new_rows (wm ≫= WatermarkManager.date) extract in
  let prepared := fact_rows (dict (dim_product w))
                    (dict (current_customers (dim_customer w)))
                    (dict (dim_store w)) df in
  (prepared = [] -> (load_fact_sales_incremental extract w).1 = w)
  /\ (prepared <> [] ->
      (load_fact_sales_incremental extract w).1
      = mkWarehouse (dim_product w) (dim_customer w) (dim_store w)
          (fact_sales w ++ prepared) (etl_rejected_records w)
          (WatermarkManager.update_watermark (watermarks w) "fact_sales"
             (Some "RETAIL_OLTP") None (max_day df) (max_invoice df)
             (Z.of_nat (length prepared)) 0)).
Proof.
  intros wm df prepared. unfold load_fact_sales_incremental.
  fold wm. fold df. fold prepared.
  destruct df as [|r0 l0] eqn:Hdf.
  { assert (prepared = []) as -> by done. split; [done|]. by intros []. }
  destruct prepared as [|f0 fl]; [split; [done|by intros []]|].
  split; [done|]. done.
Qed.

(** X18. The watermark of the fact loading script: a run that prepared
    fact rows sets the date of its watermark to the latest invoice day of
    the lines it took and adds the number of rows to the processed
    count, leaving the timestamp and the rejected count alone; a run
    whose lines all failed to resolve leaves the warehouse and the
    watermark untouched, so the same lines are taken again next time. *)
Theorem script_watermark_after_run extract w wm :
  WatermarkManager.get_last_watermark (watermarks w) "fact_sales"
    (Some "RETAIL_OLTP") = Some wm ->
  let df := new_rows (WatermarkManager.date wm) extract in
  let prepared := fact_rows (dict (dim_product w))
                    (dict (current_customers (dim_customer w)))
                    (dict (dim_store w)) df in
  let out := load_fact_sales_incremental extract w in
  (prepared = [] -> out.1 = w)
  /\ (prepared <> [] ->
      exists day,
        max_day df = Some day
        /\ (forall r d, r ∈ df -> invoice_day r = Some d -> d <= day)
        /\ WatermarkManager.get_last_watermark (watermarks out.1) "fact_sales"
             (Some "RETAIL_OLTP")
           = Some {| WatermarkManager.timestamp := WatermarkManager.timestamp wm;
                     WatermarkManager.date := Some day;
                     WatermarkManager.invoice :=
                       WatermarkManager.coalesce (max_invoice df)
                         (WatermarkManager.invoice wm);
                     WatermarkManager.wm_records_processed :=
                       WatermarkManager.wm_records_processed wm
                       + Z.of_nat (length prepared);
                     WatermarkManager.wm_records_rejected :=
                       WatermarkManager.wm_records_rejected wm + 0 |}).
Proof.
  intros Hwm df prepared out.
  pose proof (script_run extract w) as [Hnone Hsome].
  rewrite Hwm in Hnone, Hsome. simpl in Hnone, Hsome.
  fold df in Hnone, Hsome. fold prepared in Hnone, Hsome. fold out in Hnone, Hsome.
  split; [done|]. intros Hne. rewrite (Hsome Hne). simpl.
  assert (Hdf : exists r0, r0 ∈ df).
  { destruct df as [|r0 l0]; [done|]. exists r0. by left. }
  destruct Hdf as [r0 Hr0].
  destruct (max_day_spec df r0 Hr0) as (day&Hday&Hbound&_).
  { intros r [_ Hc]%new_rows_elem. by apply cleaned_has_day. }
  exists day. split; [done|]. split; [done|].
  rewrite (get_update_pair "fact_sales" None (max_day df) (max_invoice df)
             (Z.of_nat (length prepared)) 0 (watermarks w) "RETAIL_OLTP" wm);
    [|done|done].
  by rewrite Hday.
Qed.

(** X19. Running the script twice on the same extract inserts nothing
    the second time, provided its watermark record exists and the
    invoices are later than 1900: the first run leaves the latest day of
    what it took in the watermark and the second run finds no later
    line. *)
Theorem script_second_run_inserts_nothing extract w wm :
  WatermarkManager.get_last_watermark (watermarks w) "fact_sales"
    (Some "RETAIL_OLTP") = Some wm ->
  (forall r d, r ∈ extract -> invoice_day r = Some d -> 1900 < year_of d) ->
  let once := (load_fact_sales_incremental extract w).1 in
  (load_fact_sales_incremental extract once).1 = once.
Proof.
  intros Hwm Hyear once.
  pose proof (script_run extract w) as [Hnone Hsome].
  rewrite Hwm in Hnone, Hsome. simpl in Hnone, Hsome.
  set (df := new_rows (WatermarkManager.date wm) extract) in *.
  set (prepared := fact_rows _ _ _ df) in *.
  destruct prepared as [|f0 fl] eqn:Hprep.
  { subst once. rewrite (Hnone eq_refl). by apply Hnone. }
  assert (Hne : f0 :: fl <> []) by done.
  assert (Hdf : exists r0, r0 ∈ df).
  { destruct df as [|r0 l0]; [done|]. exists r0. by left. }
  destruct Hdf as [r0 Hr0].
  destruct (max_day_spec df r0 Hr0) as (day&Hday&Hbound&(rd&Hrd&Hdd)).
  { intros r [_ Hc]%new_rows_elem. by apply cleaned_has_day. }
  subst once. rewrite (Hsome Hne).
  set (w1 := mkWarehouse _ _ _ _ _ _).
  pose proof (script_run extract w1) as [Hnone1 _].
  assert (Hget1 : WatermarkManager.get_last_watermark (watermarks w1)
                    "fact_sales" (Some "RETAIL_OLTP") ≫= WatermarkManager.date
                  = Some day).
  { unfold w1. cbn [watermarks].
    rewrite (get_update_pair "fact_sales" None (max_day df) (max_invoice df)
               (Z.of_nat (length (f0 :: fl))) 0 (watermarks w) "RETAIL_OLTP" wm);
      [|done|done].
    simpl. by rewrite Hday. }
  rewrite Hget1 in Hnone1. apply Hnone1.
  assert (Hempty : new_rows (Some day) extract = []); [|by rewrite Hempty].
  unfold new_rows.
  assert (Hy : (1900 <? year_of day) = true).
  { apply Z.ltb_lt. apply new_rows_elem in Hrd as [Hrd _]. by eapply Hyear. }
  rewrite Hy.
  destruct (List.filter (after_day day) (List.filter cleaned extract))
    as [|r l] eqn:Hf; [done|].
  assert (Hin : r ∈ List.filter (after_day day) (List.filter cleaned extract))
    by (rewrite Hf; by left).
  apply elem_of_filter_bool in Hin as [Hin Hafter].
  apply elem_of_filter_bool in Hin as [Hin Hc].
  unfold after_day in Hafter. destruct (invoice_day r) as [d|] eqn:Hd; [|done].
  apply Z.ltb_lt in Hafter.
  destruct (new_rows_cases (WatermarkManager.date wm) extract r d Hin Hc Hd)
    as [Hr|(d0&Hd0&Hle&Hcase)].
  - specialize (Hbound r d Hr Hd). lia.
  - (* the line of the latest day was taken, so it is later than [d0] *)
    assert (Hlate : d0 < day).
    { unfold df, new_rows in Hrd. rewrite Hd0, Hcase in Hrd.
      apply elem_of_filter_bool in Hrd as [_ Ha].
      unfold after_day in Ha. rewrite Hdd in Ha. by apply Z.ltb_lt in Ha. }
    lia.
Qed.

End FactScript.

(* ===================================================================== *)
(** ** The report of the anomaly check *)
(* ===================================================================== *)

Section AnomalyReport.

Import AdvancedDataQuality.

Lemma percentage_lt (c n k : Z) :
  0 < n -> 0 < k ->
  (inject_Z c / inject_Z n * 100 < inject_Z k)%Q <-> 100 * c < k * n.
Proof.
  intros Hn Hk. destruct n as [|p|p]; try lia.
  unfold Qlt, Qdiv, Qmult, Qinv, inject_Z. simpl.
  rewrite ?Pos.mul_1_r, ?Z.mul_1_r, ?Pos2Z.inj_mul. lia.
Qed.

Lemma band_pass c n :
  0 < n -> band (inject_Z c / inject_Z n * 100) = PASS <-> 100 * c < n.
Proof.
  intros Hn. rewrite <- (Z.mul_1_l n) at 2.
  rewrite <- (percentage_lt c n 1) by lia. unfold band.
  destruct (Qle_bool 1 _) eqn:H1; simpl.
  - apply Qle_bool_iff in H1. split.
    + by destruct (negb (Qle_bool 5 _)).
    + intros Hlt. by apply Qlt_not_le in Hlt.
  - apply Qle_bool_false in H1. done.
Qed.

Lemma band_fail c n :
  0 < n -> band (inject_Z c / inject_Z n * 100) = FAIL <-> 5 * n <= 100 * c.
Proof.
  intros Hn. unfold band.
  destruct (Qle_bool 1 _) eqn:H1; simpl.
  - destruct (Qle_bool 5 _) eqn:H5; simpl.
    + apply Qle_bool_iff in H5. split; [intros _|done].
      destruct (Z_le_gt_dec (5 * n) (100 * c)) as [|Hgt]; [done|].
      apply Qle_not_lt in H5. destruct H5.
      apply (percentage_lt c n 5); lia.
    + apply Qle_bool_false in H5. apply (percentage_lt c n 5) in H5; [|lia..].
      split; [done|lia].
  - apply Qle_bool_false in H1. apply (percentage_lt c n 1) in H1; [|lia..].
    split; [done|lia].
Qed.

(** X20. What the anomaly check reports: the total is the number of
    values and the anomaly count lies between zero and the total; the
    status is PASS exactly when fewer than 1 value in 100 is flagged and
    FAIL exactly when at least 5 in 100 are; the report is appended to
    the details and exactly one of the three counters goes up by one, the
    counter of the status, while the two others stay as they are.  A
    skipped column (no value, or no variation) leaves the quality results
    untouched. *)
Theorem anomaly_report_accounts values z_threshold q :
  let out := detect_numerical_anomalies values z_threshold q in
  match out.1 with
  | Skip _ => out.2 = q /\ (values = [] \/ (variance values == 0)%Q)
  | Report total_records anomaly_count _ st =>
      total_records = Z.of_nat (length values)
      /\ 0 <= anomaly_count <= total_records
      /\ (st = PASS <-> 100 * anomaly_count < total_records)
      /\ (st = FAIL <-> 5 * total_records <= 100 * anomaly_count)
      /\ details out.2 = details q ++ [out.1]
      /\ (checks_passed out.2, checks_failed out.2, checks_warning out.2)
         = match st with
           | PASS => (checks_passed q + 1, checks_failed q, checks_warning q)
           | FAIL => (checks_passed q, checks_failed q + 1, checks_warning q)
           | WARNING =>
               (checks_passed q, checks_failed q, checks_warning q + 1)
           end
  end.
Proof.
  unfold detect_numerical_anomalies.
  destruct values as [|v l] eqn:Hvalues; [simpl; by split; [|left]|].
  rewrite <- Hvalues.
  destruct (Qeq_bool (variance values) 0) eqn:Hvar.
  { simpl. split; [done|]. right. by apply Qeq_bool_iff. }
  set (flagged := List.filter _ values).
  assert (Hlen : (length flagged <= length values)%nat).
  { unfold flagged. apply List.filter_length_le. }
  assert (Hpos : 0 < Z.of_nat (length values)) by (rewrite Hvalues; simpl; lia).
  cbn [fst snd]. unfold count.
  split_and!; [done|lia|lia| | | |].
  - by apply band_pass.
  - by apply band_fail.
  - unfold record_result. by destruct (band _).
  - unfold record_result. by destruct (band _).
Qed.

End AnomalyReport.

(* ===================================================================== *)
(** ** How large a z-score can be *)
(* ===================================================================== *)

Section ZBound.

Import AdvancedDataQuality.

Local Open Scope Q_scope.


Let size (l : list Q) : Q := inject_Z (Z.of_nat (length l)).















End ZBound.

Section MoreScenarios2.

Import WatermarkManager Samples MoreSamples.


(** X17: the customer 1 resolves to the key of its current row. *)
Lemma customer_map_is_current_version_witness :
  LoadFactSales.dict (LoadFactSales.current_customers [k1_ca]) !! 1 = Some 1.
Proof.
  apply (customer_map_is_current_version [k1_ca] 1). simpl. lia.
Defined.

(** X18: one line of day 10 on the seeded watermark. *)
Lemma script_watermark_after_run_witness :
  let w := warehouse seeded in
  let out := LoadFactSales.load_fact_sales_incremental [line "85123A" 10] w in
  get_last_watermark (LoadFactSales.watermarks out.1) "fact_sales" oltp
  = Some (mkWatermark None (Some 10) (Some "536365") 1 0).
Proof.
  intros w out.
  destruct (script_watermark_after_run [line "85123A" 10] w
              (mkWatermark None None None 0 0)) as [_ Hsome].
  - reflexivity.
  - destruct (Hsome ltac:(discriminate)) as (day&Hday&_&Hwm).
    injection Hday as <-. exact Hwm.
Defined.

(** X19 on the same line. *)
Lemma script_second_run_inserts_nothing_witness :
  let once := (LoadFactSales.load_fact_sales_incremental [line "85123A" 10]
                 (warehouse seeded)).1 in
  (LoadFactSales.load_fact_sales_incremental [line "85123A" 10] once).1 = once.
Proof.
  apply (script_second_run_inserts_nothing [line "85123A" 10] (warehouse seeded)
           (mkWatermark None None None 0 0)).
  - reflexivity.
  - intros r d Hr Hd. apply list_elem_of_singleton in Hr as ->.
    injection Hd as <-. vm_compute. reflexivity.
Defined.


End MoreScenarios2.

(* ===================================================================== *)
(** ** The check for new data and the load it guards *)
(* ===================================================================== *)

Section NewDataCheck.

Import WatermarkManager IncrementalLoader LoaderQueries.

Lemma check_for_new_data_run env df tname col src db :
  check_for_new_data env df tname col src db
  = (Ok (if fault env OpSelectWatermark then (false, 0)
         else match get_last_watermark (etl_watermark db) tname src with
              | Some {| timestamp := Some last |} =>
                  if has_column df col
                  then (0 <? len (after_timestamp col last df),
                        len (after_timestamp col last df))
                  else (false, 0)
              | _ => (true, len df)
              end), db).
Proof.
  unfold check_for_new_data, try_except, call_get_last_watermark, attempt,
    bind, raise, ret, require_column.
  destruct (fault env OpSelectWatermark); [done|].
  destruct (get_last_watermark _ _ _) as [[[t|] ? ? ? ?]|]; try done.
  by destruct (has_column df col).
Qed.

Lemma len_after_date col d df : len (after_date col d df) <= len df.
Proof.
  unfold len, after_date, select. simpl.
  pose proof (filter_length_le (fun r => date_gt (cell_at r col) d) (rows df)).
  lia.
Qed.

Lemma load_fact_total env df src col db stats db' :
  load_fact_sales_incremental env df src col db = (Ok stats, db') ->
  exists new,
    new_records_fact (get_last_watermark (etl_watermark db) "fact_sales" src)
      df col db = (Ok new, db)
    /\ total stats = len new.
Proof.
  intros Hload.
  destruct (load_fact_outcome env df src col db)
    as [(e&He&_)|(_&new&Hnew&[[Hnil Hout]|(_&_&ins&rej&Hout&_)])];
    rewrite Hload in *; simpl in *.
  - done.
  - exists new. split; [done|]. injection Hout as ->. simpl.
    unfold len. by rewrite Hnil.
  - exists new. split; [done|]. by injection Hout as ->.
Qed.

(** X22. The check for new data never raises and never writes.  Set
    against the fact-mode load of the same frame in the same state: a
    negative answer is reliable, the load would leave the database as it
    is; a count is an upper bound of the rows the load takes, and it is
    their exact number as soon as the watermark holds a timestamp. *)
Theorem check_for_new_data_bounds_the_load env df col src db :
  exists has_new count,
    check_for_new_data env df "fact_sales" col src db
      = (Ok (has_new, count), db)
    /\ 0 <= count
    /\ (has_new = false ->
        count = 0
        /\ (load_fact_sales_incremental env df src col db).2 = db)
    /\ (forall stats db',
          load_fact_sales_incremental env df src col db = (Ok stats, db') ->
          total stats <= count
          /\ (forall wm last,
                get_last_watermark (etl_watermark db) "fact_sales" src = Some wm ->
                timestamp wm = Some last -> total stats = count)).
Proof.
  rewrite check_for_new_data_run.
  match goal with
  | |- exists has_new count, (Ok ?a, db) = _ /\ _ => exists a.1, a.2
  end.
  split; [by rewrite <- surjective_pairing|]. split_and!.
  - destruct (fault env OpSelectWatermark); [done|].
    destruct (get_last_watermark _ _ _) as [[[t|] ? ? ? ?]|];
      try apply len_nonneg.
    destruct (has_column df col); [apply len_nonneg|done].
  - rewrite load_unfold.
    destruct (fault env OpSelectWatermark); [done|].
    destruct (get_last_watermark _ _ _) as [[[t|] ? ? ? ?]|]; try done.
    unfold new_records_fact, require_column, bind, ret, raise.
    destruct (has_column df col); [|done].
    intros [= Hz%Z.ltb_ge].
    pose proof (len_nonneg (after_timestamp col t df)).
    assert (len (after_timestamp col t df) = 0) as Hlen by lia.
    cbn [fst snd]. rewrite Hlen. done.
  - intros stats db' Hload.
    destruct (load_fact_total _ _ _ _ _ _ _ Hload) as (new&Hnew&->).
    rewrite load_unfold in Hload.
    destruct (fault env OpSelectWatermark); [done|]. clear Hload.
    destruct (get_last_watermark _ _ _) as [[[t|] [d|] i p r]|];
      unfold new_records_fact, require_column, bind, ret, raise in Hnew;
      destruct (has_column df col); try done;
      injection Hnew as <-.
    all: cbn [fst snd].
    all: split;
      [first [lia|apply len_after_date]
      |first [done|by intros ? ? [= <-]]].
Qed.

End NewDataCheck.

Section LoadStatistics.

Import WatermarkManager IncrementalLoader LoaderQueries.

(** X23. The all-time totals that [get_load_statistics] reports for a
    named source are the sums of what the fact-mode loads returned: after
    a successful load they have grown by its inserted and by its rejected
    count, whether the load found rows or not. *)
Theorem statistics_accumulate_load_counts env df s col db wm stats db' :
  s <> "" ->
  get_last_watermark (etl_watermark db) "fact_sales" (Some s) = Some wm ->
  load_fact_sales_incremental env df (Some s) col db = (Ok stats, db') ->
  exists st,
    get_load_statistics env "fact_sales" (Some s) db' = (Ok (Some st), db')
    /\ total_records_processed st = wm_records_processed wm + inserted stats
    /\ total_records_rejected st = wm_records_rejected wm + rejected stats.
Proof.
  intros Hs Hwm Hload.
  unfold get_load_statistics, try_except, call_get_last_watermark, attempt,
    bind, raise, ret.
  destruct (load_fact_outcome env df (Some s) col db)
    as [(e&He&_)|(Hsel&new&_&[[_ Hout]|(_&_&ins&rej&Hout&_&_&Hstore)])];
    rewrite Hload in *; simpl in *; [done| |]; rewrite Hsel.
  - injection Hout as -> ->. rewrite Hwm. eexists. split; [done|].
    simpl. lia.
  - injection Hout as ->. rewrite Hstore.
    rewrite (get_update_pair _ _ _ _ _ _ _ _ _ Hs Hwm).
    eexists. split; [done|]. done.
Qed.

End LoadStatistics.

(* ===================================================================== *)
(** ** The referential-integrity check *)
(* ===================================================================== *)

Section ReferentialIntegrity.

Import IncrementalLoader QualityChecks.

Lemma sql_eq_sym a b : sql_eq a b = sql_eq b a.
Proof.
  destruct a, b; simpl; try done.
  - apply eq_true_iff_eq. rewrite !Qeq_bool_iff. split; intros H; by symmetry.
  - apply bool_decide_ext. naive_solver.
  - apply Z.eqb_sym.
Qed.

Lemma same_value_sym a b : same_value a b = same_value b a.
Proof. destruct a, b; cbn [same_value]; try done; apply sql_eq_sym. Qed.

Lemma elem_of_orphaned k fks pks :
  k ∈ orphaned fks pks
  <-> k ∈ fks /\ forall p, p ∈ pks -> sql_eq k p = false.
Proof.
  unfold orphaned. rewrite elem_of_filter_bool, negb_true_iff.
  split; intros [Hk Hp]; (split; [done|]).
  - intros p Hin. by eapply existsb_false_elem.
  - destruct (existsb _ pks) eqn:Hex; [|done].
    apply existsb_exists in Hex as (p&Hin%list_elem_of_In&Heq).
    rewrite Hp in Heq; done.
Qed.

Lemma orphaned_nil fks pks :
  orphaned fks pks = []
  <-> forall k, k ∈ fks -> exists p, p ∈ pks /\ sql_eq k p = true.
Proof.
  split.
  - intros Hnil k Hk.
    destruct (existsb (sql_eq k) pks) eqn:Hex.
    + apply existsb_exists in Hex as (p&Hin%list_elem_of_In&Heq). eauto.
    + assert (k ∈ orphaned fks pks) as Hin.
      { apply elem_of_orphaned. split; [done|].
        intros p Hp. by eapply existsb_false_elem. }
      rewrite Hnil in Hin. by apply elem_of_nil in Hin.
  - intros Hall. destruct (orphaned fks pks) as [|k l] eqn:Ho; [done|].
    assert (k ∈ orphaned fks pks) as Hin by (rewrite Ho; by left).
    apply elem_of_orphaned in Hin as [Hk Hno].
    destruct (Hall k Hk) as (p&Hp&Heq). rewrite (Hno p Hp) in Heq. done.
Qed.

Lemma all_different_filter f l : all_different l -> all_different (List.filter f l).
Proof.
  induction 1 as [|a l Hs IH Hall]; simpl; [constructor|].
  destruct (f a); [|done]. constructor; [done|].
  rewrite Forall_forall in *. intros x [Hx _]%elem_of_filter_bool. by apply Hall.
Qed.

Lemma elem_of_take_elem {A} (x : A) n l : x ∈ take n l -> x ∈ l.
Proof.
  intros (i&Hi&_)%elem_of_take. by eapply list_elem_of_lookup_2.
Qed.

Lemma all_different_take n l : all_different l -> all_different (take n l).
Proof.
  intros H. revert n. induction H as [|a l Hs IH Hall]; intros [|n]; simpl;
    try constructor; [by apply IH|].
  rewrite Forall_forall in *. intros x Hx.
  apply Hall. by eapply elem_of_take_elem.
Qed.

Lemma all_different_lookup l i j a b :
  all_different l -> l !! i = Some a -> l !! j = Some b -> i <> j ->
  same_value a b = false.
Proof.
  intros H. revert i j. induction H as [|x l Hs IH Hall]; intros i j; [done|].
  rewrite Forall_forall in Hall.
  destruct i as [|i], j as [|j]; simpl; intros Ha Hb Hne; try done.
  - injection Ha as <-. apply Hall. by eapply list_elem_of_lookup_2.
  - injection Hb as <-. rewrite same_value_sym.
    apply Hall. by eapply list_elem_of_lookup_2.
  - eapply IH; eauto.
Qed.

Lemma distinct_elem k l : k ∈ distinct l -> k ∈ l.
Proof.
  induction l as [|x l IH]; simpl; [done|].
  intros [->|Hin]%elem_of_cons; [by left|].
  right. apply IH. by apply elem_of_filter_bool in Hin as [? _].
Qed.

Lemma distinct_different l : all_different (distinct l).
Proof.
  induction l as [|x l IH]; simpl; [constructor|].
  constructor; [by apply all_different_filter|].
  rewrite Forall_forall. intros y [_ Hy]%elem_of_filter_bool.
  by apply negb_true_iff in Hy.
Qed.

Lemma distinct_nil l : distinct l = [] <-> l = [].
Proof. by destruct l. Qed.

(** X24. The verdict of the referential-integrity check, for columns
    that exist.  The check passes exactly when every foreign key of the
    fact table equals the key of some dimension row, so one [NULL]
    foreign key fails it; it never warns; the count is zero exactly when
    it passes; the sample holds at most ten keys, each a foreign key of
    the fact table without a partner, no two of them the same, and is
    empty only when the check passes.  One check is counted and one
    detail added. *)
Theorem referential_integrity_verdict db fact_table dim_table fact_fk dim_pk
    q fact_keys dim_keys :
  column db fact_table fact_fk = Some fact_keys ->
  column db dim_table dim_pk = Some dim_keys ->
  exists rel n samples st,
    let r := ReferentialIntegrity rel n samples st in
    check_referential_integrity db fact_table dim_table fact_fk dim_pk q
      = (r, appended_detail r (counted st q))
    /\ (st = PASS <->
        forall k, k ∈ fact_keys ->
                  exists p, p ∈ dim_keys /\ sql_eq k p = true)
    /\ (Null ∈ fact_keys -> st = FAIL)
    /\ (st = PASS \/ st = FAIL)
    /\ (n = 0 <-> st = PASS)
    /\ 0 <= n <= Z.of_nat (length fact_keys)
    /\ (length samples <= 10)%nat
    /\ (samples = [] <-> st = PASS)
    /\ (forall s, s ∈ samples ->
                  s ∈ fact_keys /\ forall p, p ∈ dim_keys -> sql_eq s p = false)
    /\ (forall i j a b, samples !! i = Some a -> samples !! j = Some b ->
                        i <> j -> same_value a b = false).
Proof.
  intros Hf Hd. unfold check_referential_integrity. rewrite Hf, Hd.
  eexists _, _, _, _. split; [reflexivity|].
  pose proof (orphaned_nil fact_keys dim_keys) as Hnil.
  pose proof (filter_length_le
                (fun k => negb (existsb (sql_eq k) dim_keys)) fact_keys) as Hle.
  fold (orphaned fact_keys dim_keys) in Hle.
  destruct (orphaned fact_keys dim_keys) as [|k0 l0] eqn:Ho.
  - simpl. split_and!; try done; try lia.
    + split; [intros _; by apply Hnil|done].
    + intros Hnull. destruct (proj1 Hnil eq_refl Null Hnull) as (p&_&Hp). done.
    + by left.
    + intros s Hs. by apply elem_of_nil in Hs.
  - assert (Hpos : (0 <? Z.of_nat (length (k0 :: l0))) = true)
      by (apply Z.ltb_lt; simpl; lia).
    assert (Hz : (Z.of_nat (length (k0 :: l0)) =? 0) = false)
      by (apply Z.eqb_neq; simpl; lia).
    rewrite Hpos, Hz. split_and!.
    + split; [done|]. intros Hall. by apply Hnil in Hall.
    + done.
    + by right.
    + split; [simpl; lia|done].
    + lia.
    + lia.
    + rewrite length_take. lia.
    + split; [|done]. simpl. done.
    + intros s Hs%elem_of_take_elem%distinct_elem. rewrite <- Ho in Hs.
      by apply elem_of_orphaned in Hs.
    + intros i j a b. apply all_different_lookup, all_different_take,
        distinct_different.
Qed.

End ReferentialIntegrity.

Section IntegrityOfTheFactScript.

Import IncrementalLoader LoadFactSales QualityChecks.

Lemma orphaned_app a b dim_keys :
  orphaned (a ++ b) dim_keys = orphaned a dim_keys ++ orphaned b dim_keys.
Proof. unfold orphaned. apply List.filter_app. Qed.

Lemma keys_of_partner {A} (key : A -> Z) (table : list A) a k :
  a ∈ table -> key a = k ->
  exists p, p ∈ keys_of key table /\ sql_eq (Num (inject_Z k)) p = true.
Proof.
  intros Hin <-. exists (Num (inject_Z (key a))). split.
  - unfold keys_of. apply list_elem_of_fmap. by exists a.
  - simpl. by apply Qeq_bool_iff.
Qed.

Lemma orphaned_keys_of_nil {A B} (fk : A -> Z) (pk : B -> Z) facts dims :
  (forall f, f ∈ facts -> exists d, d ∈ dims /\ pk d = fk f) ->
  orphaned (keys_of fk facts) (keys_of pk dims) = [].
Proof.
  intros Hall. apply orphaned_nil. intros k Hk.
  apply list_elem_of_fmap in Hk as (f&->&Hf).
  destruct (Hall f Hf) as (d&Hd&Heq). by eapply keys_of_partner.
Qed.

(** X25. The fact loading script keeps the warehouse referentially
    intact for customers, products and stores: when the orphan query of
    the quality gate finds no fact row without its customer (product,
    store) before a run, it finds none after it. *)
Theorem fact_script_keeps_referential_integrity extract w :
  let w' := (load_fact_sales_incremental extract w).1 in
  (orphaned (keys_of f_customer_key (fact_sales w))
            (keys_of customer_key (dim_customer w)) = [] ->
   orphaned (keys_of f_customer_key (fact_sales w'))
            (keys_of customer_key (dim_customer w')) = [])
  /\ (orphaned (keys_of f_product_key (fact_sales w))
               (keys_of snd (dim_product w)) = [] ->
      orphaned (keys_of f_product_key (fact_sales w'))
               (keys_of snd (dim_product w')) = [])
  /\ (orphaned (keys_of f_store_key (fact_sales w))
               (keys_of snd (dim_store w)) = [] ->
      orphaned (keys_of f_store_key (fact_sales w'))
               (keys_of snd (dim_store w')) = []).
Proof.
  intros w'. subst w'.
  destruct (script_run extract w) as [Hnone Hsome].
  set (df := new_rows _ extract) in *.
  set (prepared := fact_rows _ _ _ df) in *.
  destruct prepared as [|f0 fl] eqn:Hprep.
  { by rewrite (Hnone eq_refl). }
  rewrite (Hsome ltac:(done)). cbn [fact_sales dim_customer dim_product dim_store].
  rewrite <- Hprep. clear Hnone Hsome.
  assert (Hrow : forall f, f ∈ prepared ->
            exists row cid,
              dict (dim_product w) !! StockCode row = Some (f_product_key f)
              /\ dict (current_customers (dim_customer w)) !! cid
                 = Some (f_customer_key f)
              /\ dict (dim_store w) !! Country row = Some (f_store_key f)).
  { intros f Hf. apply list_elem_of_omap in Hf as (row&_&Hrow).
    apply fact_row_some in Hrow as (cid&t&_&_&Hp&Hc&Hs&_).
    by exists row, cid. }
  clearbody prepared. clear Hprep.
  unfold keys_of. rewrite !map_app. fold (keys_of f_customer_key (fact_sales w)).
  split_and!; intros Hold; rewrite orphaned_app, Hold; simpl;
    apply orphaned_keys_of_nil; intros f Hf;
    destruct (Hrow f Hf) as (row&cid&Hp&Hc&Hs).
  - apply current_customers_lookup in Hc as (r&Hr&_&_&Hk). by exists r.
  - apply dict_lookup in Hp. by eexists (_, _).
  - apply dict_lookup in Hs. by eexists (_, _).
Qed.

End IntegrityOfTheFactScript.

(* ===================================================================== *)
(** ** The duplicate check *)
(* ===================================================================== *)

Section DuplicateCheck.

Import IncrementalLoader QualityChecks.

Lemma same_value_refl a : same_value a a = true.
Proof.
  destruct a; simpl; [done| | |].
  - by apply Qeq_bool_iff.
  - by apply bool_decide_eq_true.
  - apply Z.eqb_refl.
Qed.

Lemma same_value_trans a b c :
  same_value a b = true -> same_value b c = true -> same_value a c = true.
Proof.
  destruct a, b, c; simpl; try done.
  - rewrite !Qeq_bool_iff. intros H1 H2. by rewrite H1.
  - rewrite !bool_decide_eq_true. congruence.
  - rewrite !Z.eqb_eq. lia.
Qed.

Lemma same_key_refl k : same_key k k = true.
Proof. induction k as [|a k IH]; simpl; [done|]. by rewrite same_value_refl. Qed.

Lemma same_key_sym a b : same_key a b = same_key b a.
Proof.
  revert b. induction a as [|x a IH]; intros [|y b]; simpl; try done.
  by rewrite same_value_sym, IH.
Qed.

Lemma same_key_trans a b c :
  same_key a b = true -> same_key b c = true -> same_key a c = true.
Proof.
  revert b c. induction a as [|x a IH]; intros [|y b] [|z c]; simpl; try done.
  intros [H1 H2]%andb_true_iff [H3 H4]%andb_true_iff.
  apply andb_true_iff. split; [by eapply same_value_trans|by eapply IH].
Qed.

(** Keys of one group are the same for every other key. *)
Lemma same_key_congr a b x :
  same_key a b = true -> same_key a x = same_key b x.
Proof.
  intros Hab. destruct (same_key b x) eqn:Hbx.
  - by eapply same_key_trans.
  - destruct (same_key a x) eqn:Hax; [|done].
    rewrite <- Hbx. symmetry. eapply same_key_trans; [|done].
    by rewrite same_key_sym.
Qed.

Let occ (k : list cell) (keys : list (list cell)) : nat :=
  length (List.filter (same_key k) keys).

Lemma occ_snoc k keys x :
  occ k (keys ++ [x]) = (occ k keys + if same_key k x then 1 else 0)%nat.
Proof.
  unfold occ. rewrite List.filter_app, length_app. simpl.
  by destruct (same_key k x).
Qed.

Lemma occ_zero k keys :
  (forall x, x ∈ keys -> same_key k x = false) -> occ k keys = 0%nat.
Proof.
  intros Hall. unfold occ.
  destruct (List.filter (same_key k) keys) as [|x l] eqn:Hf; [done|].
  assert (x ∈ List.filter (same_key k) keys) as Hin by (rewrite Hf; by left).
  apply elem_of_filter_bool in Hin as [Hin Hx]. by rewrite Hall in Hx.
Qed.

Lemma filter_two {A} (f : A -> bool) l :
  (2 <= length (List.filter f l))%nat
  <-> exists i j a b, (i < j)%nat /\ l !! i = Some a /\ l !! j = Some b
                      /\ f a = true /\ f b = true.
Proof.
  split.
  - induction l as [|x l IH]; simpl; [lia|].
    destruct (f x) eqn:Hx; simpl.
    + intros Hlen.
      destruct (List.filter f l) as [|b l'] eqn:Hf; simpl in Hlen; [lia|].
      assert (b ∈ List.filter f l) as Hin by (rewrite Hf; by left).
      apply elem_of_filter_bool in Hin as [Hin Hb].
      apply list_elem_of_lookup_1 in Hin as [j Hj].
      exists 0%nat, (S j), x, b. split_and!; [lia|done..].
    + intros (i&j&a&b&Hij&Ha&Hb&Hfa&Hfb)%IH.
      exists (S i), (S j), a, b. split_and!; [lia|done..].
  - intros (i&j&a&b&Hij&Ha&Hb&Hfa&Hfb).
    revert i j Hij Ha Hb. induction l as [|x l IH]; intros i j Hij Ha Hb; [done|].
    destruct j as [|j]; [lia|]. simpl in Hb.
    destruct i as [|i]; simpl in Ha.
    + injection Ha as ->. simpl. rewrite Hfa. simpl.
      assert (b ∈ List.filter f l) as Hin.
      { apply elem_of_filter_bool. split; [by eapply list_elem_of_lookup_2|done]. }
      destruct (List.filter f l); [by apply elem_of_nil in Hin|simpl; lia].
    + specialize (IH i j ltac:(lia) Ha Hb). simpl.
      destruct (f x); simpl; lia.
Qed.

Lemma filter_map_length {A B} (f : B -> bool) (g : A -> B) l :
  length (List.filter f (map g l))
  = length (List.filter (fun a => f (g a)) l).
Proof.
  induction l as [|a l IH]; simpl; [done|].
  destruct (f (g a)); simpl; by rewrite IH.
Qed.

(** What the groups are after the keys [seen]: every group holds the
    number of seen keys that are the same as its key, which is not
    zero; no two groups have the same key; every seen key has its
    group. *)
Let groups_of (seen : list (list cell)) (groups : list (list cell * Z))
  : Prop :=
  (forall k c, (k, c) ∈ groups ->
               c = Z.of_nat (occ k seen) /\ (1 <= occ k seen)%nat)
  /\ StronglySorted (fun a b => same_key a b = false) groups.*1
  /\ (forall x, x ∈ seen -> exists g, g ∈ groups /\ same_key g.1 x = true).

Lemma add_to_groups_cases k groups :
  (exists g1 k' n g2,
      groups = g1 ++ (k', n) :: g2
      /\ same_key k' k = true
      /\ (forall g, g ∈ g1 -> same_key g.1 k = false)
      /\ add_to_groups k groups = g1 ++ (k', n + 1) :: g2)
  \/ ((forall g, g ∈ groups -> same_key g.1 k = false)
      /\ add_to_groups k groups = groups ++ [(k, 1)]).
Proof.
  induction groups as [|[k' n] groups IH]; simpl.
  - right. split; [|done]. intros g Hg. by apply elem_of_nil in Hg.
  - destruct (same_key k' k) eqn:Hk.
    + left. exists [], k', n, groups. split_and!; [done|done| |done].
      intros g Hg. by apply elem_of_nil in Hg.
    + destruct IH as [(g1&k''&m&g2&->&Hhit&Hmiss&->)|[Hmiss ->]].
      * left. exists ((k', n) :: g1), k'', m, g2. split_and!; [done|done| |done].
        intros g [->|Hg]%elem_of_cons; [done|by apply Hmiss].
      * right. split; [|done].
        intros g [->|Hg]%elem_of_cons; [done|by apply Hmiss].
Qed.

Lemma add_to_groups_spec seen groups k :
  groups_of seen groups -> groups_of (seen ++ [k]) (add_to_groups k groups).
Proof.
  intros (Hcount&Hsorted&Hcover).
  destruct (add_to_groups_cases k groups)
    as [(g1&k'&n&g2&->&Hhit&Hmiss&->)|[Hmiss ->]].
  - (* the key joins the group of [k'] *)
    rewrite fmap_app, fmap_cons in Hsorted. simpl in Hsorted.
    assert (Hlater : forall g, g ∈ g2 -> same_key g.1 k = false).
    { intros g Hg. apply StronglySorted_app in Hsorted as (_&_&Hs2).
      apply StronglySorted_cons in Hs2 as [Hall _].
      rewrite Forall_forall in Hall.
      assert (same_key k' g.1 = false) as Hne.
      { apply Hall. apply list_elem_of_fmap. by exists g. }
      by rewrite (same_key_sym g.1 k), <- (same_key_congr k' k g.1 Hhit). }
    split_and!.
    + intros k0 c Hin. rewrite occ_snoc.
      apply elem_of_app in Hin as [Hin|[[= -> ->]|Hin]%elem_of_cons].
      * pose proof (Hmiss _ Hin) as Hm. simpl in Hm. rewrite Hm.
        destruct (Hcount k0 c) as [-> ?]; [|lia].
        apply elem_of_app. by left.
      * rewrite Hhit. destruct (Hcount k' n) as [-> ?]; [|lia].
        apply elem_of_app. right. by left.
      * pose proof (Hlater _ Hin) as Hm. simpl in Hm. rewrite Hm.
        destruct (Hcount k0 c) as [-> ?]; [|lia].
        apply elem_of_app. right. by right.
    + by rewrite fmap_app, fmap_cons.
    + intros x [Hx| ->%list_elem_of_singleton]%elem_of_app.
      * destruct (Hcover x Hx) as (g&Hg&Hsame).
        apply elem_of_app in Hg as [Hg|[->|Hg]%elem_of_cons].
        -- exists g. split; [|done]. apply elem_of_app. by left.
        -- exists (k', n + 1). split; [|done].
           apply elem_of_app. right. by left.
        -- exists g. split; [|done]. apply elem_of_app. right. by right.
      * exists (k', n + 1). split; [|done].
        apply elem_of_app. right. by left.
  - (* a new group *)
    assert (Hnone : occ k seen = 0%nat).
    { apply occ_zero. intros x Hx.
      destruct (same_key k x) eqn:Hkx; [|done].
      destruct (Hcover x Hx) as (g&Hg&Hsame).
      rewrite <- (Hmiss g Hg). symmetry. eapply same_key_trans; [done|].
      by rewrite same_key_sym. }
    split_and!.
    + intros k0 c Hin. rewrite occ_snoc.
      apply elem_of_app in Hin as [Hin|[= -> ->]%list_elem_of_singleton].
      * pose proof (Hmiss _ Hin) as Hm. simpl in Hm. rewrite Hm.
        destruct (Hcount k0 c Hin) as [-> ?]. lia.
      * rewrite same_key_refl, Hnone. lia.
    + rewrite fmap_app. apply StronglySorted_app. split_and!.
      * intros a b Ha [= ->]%list_elem_of_singleton.
        apply list_elem_of_fmap in Ha as (g&->&Hg). by apply Hmiss.
      * done.
      * repeat constructor.
    + intros x [Hx| ->%list_elem_of_singleton]%elem_of_app.
      * destruct (Hcover x Hx) as (g&Hg&Hsame). exists g.
        split; [|done]. apply elem_of_app. by left.
      * exists (k, 1). split; [|apply same_key_refl].
        apply elem_of_app. right. by left.
Qed.

Lemma group_by_spec keys : groups_of keys (group_by keys).
Proof.
  unfold group_by.
  assert (Hgen : forall l seen groups,
             groups_of seen groups ->
             groups_of (seen ++ l)
               (fold_left (fun groups k => add_to_groups k groups) l groups)).
  { induction l as [|k l IH]; intros seen groups H; simpl.
    - by rewrite app_nil_r.
    - rewrite (cons_middle k seen l), app_assoc.
      by apply IH, add_to_groups_spec. }
  apply (Hgen keys [] []). split_and!.
  - intros k c Hin. by apply elem_of_nil in Hin.
  - constructor.
  - intros x Hx. by apply elem_of_nil in Hx.
Qed.

Lemma insert_desc_perm g l : insert_desc g l ≡ₚ g :: l.
Proof.
  induction l as [|h l IH]; simpl; [done|].
  destruct (h.2 <? g.2); [done|]. by rewrite IH, Permutation_swap.
Qed.

Lemma order_desc_perm l : order_desc l ≡ₚ l.
Proof.
  induction l as [|g l IH]; simpl; [done|].
  by rewrite insert_desc_perm, IH.
Qed.

Lemma duplicates_query_elem unique_columns table_rows k c :
  (k, c) ∈ duplicates_query unique_columns table_rows ->
  2 <= c
  /\ c = Z.of_nat (length (List.filter
                             (fun r => same_key k (key_of unique_columns r))
                             table_rows)).
Proof.
  unfold duplicates_query. intros Hin%elem_of_take_elem.
  rewrite order_desc_perm in Hin.
  apply elem_of_filter_bool in Hin as [Hin Hbig]. simpl in Hbig.
  destruct (group_by_spec (map (key_of unique_columns) table_rows))
    as (Hcount&_&_).
  destruct (Hcount k c Hin) as [Hc _]. split; [lia|].
  rewrite Hc. unfold occ. by rewrite filter_map_length.
Qed.

Lemma duplicates_query_nil unique_columns table_rows :
  duplicates_query unique_columns table_rows = []
  <-> forall i j r r',
        table_rows !! i = Some r -> table_rows !! j = Some r' -> i <> j ->
        same_key (key_of unique_columns r) (key_of unique_columns r') = false.
Proof.
  unfold duplicates_query.
  set (keys := map (key_of unique_columns) table_rows).
  destruct (group_by_spec keys) as (Hcount&_&Hcover).
  set (big := List.filter (fun g => 1 <? g.2) (group_by keys)).
  assert (Hnil : take 10 (order_desc big) = [] <-> big = []).
  { split; [|by intros ->].
    intros H. destruct big as [|g l]; [done|].
    assert (Hlen : length (order_desc (g :: l)) = length (g :: l))
      by (by rewrite order_desc_perm).
    destruct (order_desc (g :: l)); simpl in *; [lia|done]. }
  rewrite Hnil. split.
  - intros Hbig.
    assert (Hlt : forall i j r r',
               (i < j)%nat -> table_rows !! i = Some r ->
               table_rows !! j = Some r' ->
               same_key (key_of unique_columns r) (key_of unique_columns r')
               = false).
    { intros i j r r' Hij Hi Hj.
      destruct (same_key _ _) eqn:Hsame; [|done].
      destruct (Hcover (key_of unique_columns r)) as ([k c]&Hg&Hk).
      { apply list_elem_of_fmap. exists r.
        split; [done|by eapply list_elem_of_lookup_2]. }
      simpl in Hk. destruct (Hcount k c Hg) as [Hc _].
      assert (2 <= occ k keys)%nat as Htwo.
      { apply filter_two.
        exists i, j, (key_of unique_columns r), (key_of unique_columns r').
        split_and!; [done| | |done|by eapply same_key_trans].
        - unfold keys. by rewrite list_lookup_fmap, Hi.
        - unfold keys. by rewrite list_lookup_fmap, Hj. }
      assert ((k, c) ∈ big) as Hin.
      { apply elem_of_filter_bool. split; [done|]. simpl. apply Z.ltb_lt. lia. }
      rewrite Hbig in Hin. by apply elem_of_nil in Hin. }
    intros i j r r' Hi Hj Hne.
    destruct (decide (i < j)%nat); [by eapply Hlt|].
    rewrite same_key_sym. eapply (Hlt j i); [lia|done..].
  - intros Hno. destruct big as [|[k c] l] eqn:Hbig; [done|].
    assert ((k, c) ∈ big) as Hin by (rewrite Hbig; by left).
    apply elem_of_filter_bool in Hin as [Hin Hc]. simpl in Hc.
    apply Z.ltb_lt in Hc. destruct (Hcount k c Hin) as [Hocc _].
    assert (2 <= occ k keys)%nat as Htwo by lia.
    apply filter_two in Htwo as (i&j&a&b&Hij&Ha&Hb&Hka&Hkb).
    unfold keys in Ha, Hb. rewrite list_lookup_fmap in Ha, Hb.
    destruct (table_rows !! i) as [r|] eqn:Hi; [|done].
    destruct (table_rows !! j) as [r'|] eqn:Hj; [|done].
    injection Ha as <-. injection Hb as <-.
    specialize (Hno i j r r' Hi Hj ltac:(lia)).
    assert (same_key (key_of unique_columns r) (key_of unique_columns r')
            = true) as Hsame.
    { eapply same_key_trans; [|exact Hkb]. by rewrite same_key_sym. }
    congruence.
Qed.

(** X26. The verdict of the duplicate check, for a table that has the
    columns.  It passes exactly when no two rows of the table have the
    same values in the columns, [NULL] being the same as [NULL]; it never
    warns; the number of groups it reports is capped at ten, and is zero
    exactly when it passes; the sample holds at most five groups, each
    with the number of rows of the table that carry its key, which is at
    least two.  One check is counted and one detail added. *)
Theorem duplicate_check_verdict db table_name unique_columns q t :
  db !! table_name = Some t ->
  unique_columns <> [] ->
  (forall c, c ∈ unique_columns -> c ∈ (t_columns t).*1) ->
  exists n samples st,
    let r := DuplicateDetection table_name unique_columns n samples st in
    check_duplicates db table_name unique_columns q
      = (r, appended_detail r (counted st q))
    /\ (st = PASS <->
        forall i j r1 r2,
          t_rows t !! i = Some r1 -> t_rows t !! j = Some r2 -> i <> j ->
          same_key (key_of unique_columns r1) (key_of unique_columns r2)
          = false)
    /\ (st = PASS \/ st = FAIL)
    /\ (n = 0 <-> st = PASS)
    /\ 0 <= n <= 10
    /\ (length samples <= 5)%nat
    /\ (samples = [] <-> st = PASS)
    /\ (forall k c, (k, c) ∈ samples ->
          2 <= c
          /\ c = Z.of_nat (length (List.filter
                                     (fun r => same_key k (key_of unique_columns r))
                                     (t_rows t)))).
Proof.
  intros Ht Hne Hcols. unfold check_duplicates. rewrite Ht.
  destruct unique_columns as [|c0 cols] eqn:Hu; [done|]. rewrite <- Hu in *.
  assert (forallb (fun c => bool_decide (c ∈ (t_columns t).*1)) unique_columns
          = true) as ->.
  { apply forallb_forall. intros c Hc%list_elem_of_In.
    by apply bool_decide_eq_true, Hcols. }
  eexists _, _, _. split; [reflexivity|].
  pose proof (duplicates_query_nil unique_columns (t_rows t)) as Hnil.
  pose proof (duplicates_query_elem unique_columns (t_rows t)) as Helem.
  assert (Hlen : (length (duplicates_query unique_columns (t_rows t)) <= 10)%nat).
  { unfold duplicates_query. rewrite length_take. lia. }
  destruct (duplicates_query unique_columns (t_rows t)) as [|g l] eqn:Hq.
  - simpl. split_and!; try done; try lia.
    + split; [intros _; by apply Hnil|done].
    + by left.
  - assert (Hz : (Z.of_nat (length (g :: l)) =? 0) = false)
      by (apply Z.eqb_neq; simpl; lia).
    rewrite Hz. split_and!.
    + split; [done|]. intros Hno. by apply Hnil in Hno.
    + by right.
    + split; [simpl; lia|done].
    + lia.
    + lia.
    + rewrite length_take. lia.
    + split; [done|done].
    + intros k c Hin%elem_of_take_elem. by apply Helem.
Qed.

End DuplicateCheck.

(* ===================================================================== *)
(** ** The schema validation *)
(* ===================================================================== *)

Section SchemaValidation.

Import IncrementalLoader QualityChecks.

Lemma elements_nil (X : gset string) : elements X = [] <-> X = ∅.
Proof.
  split; [|intros ->; apply elements_empty].
  intros H. apply leibniz_equiv. by apply elements_empty_iff.
Qed.

Lemma omap_nil {A B} (f : A -> option B) l :
  omap f l = [] <-> forall a, a ∈ l -> f a = None.
Proof.
  induction l as [|x l IH]; simpl.
  - split; [|done]. intros _ a Ha. by apply elem_of_nil in Ha.
  - destruct (f x) eqn:Hx.
    + split; [done|]. intros H. specialize (H x ltac:(by left)). congruence.
    + rewrite IH. split.
      * intros H a [->|Ha]%elem_of_cons; [done|by apply H].
      * intros H a Ha. apply H. by right.
Qed.

(** X27. The verdict of the schema validation.  For a table that does
    not exist one failure is counted and no detail is kept.  For a table
    that exists the validation passes exactly when every expected column
    is a column of the table whose type name contains the expected one or
    is contained in it, letter case apart; the columns reported missing
    are the expected ones the table lacks, the columns reported extra
    the ones nobody expected, and these never fail the validation; it
    never warns; one check is counted and one detail added. *)
Theorem schema_validation_verdict db table_name expected_columns q :
  match db !! table_name with
  | None =>
      validate_schema db table_name expected_columns q
      = (TableNotFound,
         mkQualityResults (checks_passed q) (checks_failed q + 1)
           (checks_warning q) (details q))
  | Some t =>
      let actual := col_dict (t_columns t) in
      exists n_expected n_actual missing extra mismatches st,
        let r := SchemaValidation table_name n_expected n_actual missing
                   extra mismatches st in
        validate_schema db table_name expected_columns q
          = (r, appended_detail r (counted st q))
        /\ (st = PASS <->
            forall col ty,
              expected_columns !! col = Some ty ->
              exists actual_ty,
                actual !! col = Some actual_ty
                /\ type_matches ty actual_ty = true)
        /\ (st = PASS \/ st = FAIL)
        /\ (forall col, col ∈ missing <->
                        is_Some (expected_columns !! col) /\ actual !! col = None)
        /\ (forall col, col ∈ extra <->
                        is_Some (actual !! col) /\ expected_columns !! col = None)
        /\ (forall col e a, (col, e, a) ∈ mismatches ->
              exists ty actual_ty,
                expected_columns !! col = Some ty
                /\ actual !! col = Some actual_ty
                /\ e = upper ty /\ a = upper actual_ty
                /\ type_matches ty actual_ty = false)
  end.
Proof.
  unfold validate_schema.
  destruct (db !! table_name) as [t|]; [|done].
  set (actual := col_dict (t_columns t)).
  set (f := fun col_name : string =>
              let expected_type := upper (expected_columns !!! col_name) in
              let actual_type := upper (actual !!! col_name) in
              if negb (contains expected_type actual_type)
                 && negb (contains actual_type expected_type)
              then Some (col_name, expected_type, actual_type)
              else None).
  set (missing := elements (dom expected_columns ∖ dom actual)).
  set (mism := omap f (elements (dom expected_columns ∩ dom actual))).
  eexists _, _, _, _, _, _. split; [reflexivity|].
  assert (Hf : forall col ty aty,
             expected_columns !! col = Some ty -> actual !! col = Some aty ->
             f col = if type_matches ty aty then None
                     else Some (col, upper ty, upper aty)).
  { intros col ty aty He Ha. unfold f, type_matches.
    rewrite (lookup_total_correct _ _ _ He), (lookup_total_correct _ _ _ Ha).
    cbv zeta. rewrite <- negb_orb. by destruct (_ || _). }
  assert (Hmissing : forall col, col ∈ missing <->
             is_Some (expected_columns !! col) /\ actual !! col = None).
  { intros col. unfold missing.
    rewrite elem_of_elements, elem_of_difference, elem_of_dom,
      not_elem_of_dom. done. }
  assert (Hpass : missing = [] /\ mism = [] <->
             forall col ty,
               expected_columns !! col = Some ty ->
               exists actual_ty,
                 actual !! col = Some actual_ty
                 /\ type_matches ty actual_ty = true).
  { split.
    - intros [Hm Hmm] col ty He.
      destruct (actual !! col) as [aty|] eqn:Ha.
      + exists aty. split; [done|].
        unfold mism in Hmm. rewrite omap_nil in Hmm.
        specialize (Hmm col). rewrite (Hf col ty aty He Ha) in Hmm.
        destruct (type_matches ty aty); [done|].
        discriminate Hmm.
        rewrite elem_of_elements, elem_of_intersection, !elem_of_dom.
        by rewrite He, Ha.
      + assert (col ∈ missing) as Hin by (apply Hmissing; by rewrite He).
        rewrite Hm in Hin. by apply elem_of_nil in Hin.
    - intros Hall. split.
      + destruct missing as [|c l] eqn:Hm; [done|].
        assert (c ∈ c :: l) as Hin by (by left).
        apply Hmissing in Hin as [[ty He] Ha].
        destruct (Hall c ty He) as (aty&Ha'&_). congruence.
      + apply omap_nil. intros col.
        rewrite elem_of_elements, elem_of_intersection, !elem_of_dom.
        intros [[ty He] [aty Ha]]. rewrite (Hf col ty aty He Ha).
        destruct (Hall col ty He) as (aty'&Ha'&Hm).
        assert (aty' = aty) as -> by congruence. by rewrite Hm. }
  split_and!.
  - rewrite <- Hpass. destruct missing, mism; split; try done;
      intros [? ?]; done.
  - destruct missing, mism; by eauto.
  - exact Hmissing.
  - intros col.
    rewrite elem_of_elements, elem_of_difference, elem_of_dom,
      not_elem_of_dom. done.
  - intros col e a Hin. apply list_elem_of_omap in Hin as (c&Hc&Hfc).
    apply elem_of_elements, elem_of_intersection in Hc as [He Ha].
    apply elem_of_dom in He as [ty He]. apply elem_of_dom in Ha as [aty Ha].
    rewrite (Hf c ty aty He Ha) in Hfc.
    destruct (type_matches ty aty) eqn:Hm; [done|].
    injection Hfc as <- <- <-. by exists ty, aty.
Qed.

End SchemaValidation.

(* ===================================================================== *)
(** ** Reconciling the customer sources *)
(* ===================================================================== *)

Section Reconciliation.

Import IncrementalLoader ReconcileCustomers.

Lemma list_to_map_relabel (label : string -> string) (value : string -> cell)
    cols on v :
  on ∈ cols -> label on = on ->
  (forall c, c ∈ cols -> label c = on -> value c = v) ->
  (list_to_map (map (fun c => (label c, value c)) cols) : Row) !! on = Some v.
Proof.
  intros Hin Hon. induction cols as [|a cols IH]; intros Hall;
    [by apply elem_of_nil in Hin|].
  simpl. destruct (decide (label a = on)) as [Heq|Hne].
  - rewrite Heq, lookup_insert_eq. f_equal. apply Hall; [by left|done].
  - rewrite lookup_insert_ne by done. apply IH.
    + apply elem_of_cons in Hin as [->|Hin]; [congruence|done].
    + intros c Hc. apply Hall. by right.
Qed.

Lemma list_to_map_absent (label : string -> string) (value : string -> cell)
    cols x :
  (forall c, c ∈ cols -> label c <> x) ->
  (list_to_map (map (fun c => (label c, value c)) cols) : Row) !! x = None.
Proof.
  induction cols as [|a cols IH]; intros Hall; simpl; [done|].
  rewrite lookup_insert_ne by (apply Hall; by left).
  apply IH. intros c Hc. apply Hall. by right.
Qed.

Lemma dtype_at_col df c d : dtype_at df c = Some d -> c ∈ col_names df.
Proof.
  unfold dtype_at. destruct (List.find _ (columns df)) as [[c' d']|] eqn:Hf;
    [|done].
  intros _. apply find_some in Hf as [Hin Hc]. simpl in Hc.
  apply bool_decide_eq_true in Hc as <-.
  unfold col_names. apply list_elem_of_fmap. exists (c', d').
  split; [done|by apply list_elem_of_In].
Qed.

Lemma key_not_shared on left right : on ∉ overlap on left right.
Proof.
  unfold overlap. intros [_ H]%elem_of_filter_bool.
  apply andb_true_iff in H as [H _].
  by rewrite bool_decide_eq_true_2 in H.
Qed.

Lemma suffixed_key suffix on left right :
  suffixed suffix (overlap on left right) on = on.
Proof.
  unfold suffixed. rewrite bool_decide_eq_false_2; [done|].
  apply key_not_shared.
Qed.

Lemma joined_key on ls rs left right l r d :
  dtype_at left on = Some d ->
  (forall c, c +:+ ls <> on) ->
  cell_at (joined on ls rs left right l r) on = cell_at l on.
Proof.
  intros Hd Hsuf. unfold joined.
  set (m2 := relabel rs _ _ _). unfold cell_at at 1.
  rewrite (lookup_union_Some_l _ m2 _ (default Null (l !! on))); [done|].
  unfold relabel. apply list_to_map_relabel.
  - by eapply dtype_at_col.
  - apply suffixed_key.
  - intros c _. unfold suffixed.
    destruct (bool_decide _); [by intros ?%Hsuf|by intros ->].
Qed.

Lemma joined_absent on ls rs left right l r x :
  x ∉ (merged_columns on ls rs left right).*1 ->
  cell_at (joined on ls rs left right l r) x = Null.
Proof.
  unfold merged_columns. rewrite fmap_app, elem_of_app.
  intros Hno. unfold joined, cell_at.
  rewrite (proj2 (lookup_union_None _ _ _)); [done|].
  split; apply list_to_map_absent; intros c Hc Heq; apply Hno.
  - left. unfold col_names in Hc.
    apply list_elem_of_fmap in Hc as (cd&->&Hcd).
    rewrite <- list_fmap_compose. apply list_elem_of_fmap. by exists cd.
  - right. apply list_elem_of_fmap in Hc as (cd&->&Hcd).
    rewrite <- list_fmap_compose. apply list_elem_of_fmap. by exists cd.
Qed.

Lemma not_oltp_suffix c : c +:+ "_oltp" <> "customer_id".
Proof.
  intros H.
  do 11 (destruct c as [|? c];
         [vm_compute in H; congruence
         |cbv beta iota delta [String.append] in H; fold String.append in H;
          injection H as _ H]).
  destruct c; cbv beta iota delta [String.append] in H; discriminate H.
Qed.

Lemma has_column_assign name dt value df label :
  has_column (assign name dt value df) label
  = has_column df label || bool_decide (label = name).
Proof.
  unfold has_column at 1 2, col_names, assign. cbn [columns].
  destruct (has_column df name) eqn:Hname.
  - apply eq_true_iff_eq.
    rewrite orb_true_iff, !bool_decide_eq_true, !list_elem_of_fmap. split.
    + intros ([c d]&->&Hin). left.
      apply list_elem_of_fmap in Hin as ([c' d']&Heq&Hin).
      simpl in *. destruct (bool_decide (c' = name)) eqn:Hcs.
      * injection Heq as -> ->. apply bool_decide_eq_true in Hname.
        unfold col_names in Hname. by apply list_elem_of_fmap in Hname.
      * injection Heq as -> ->. by exists (c', d').
    + intros [([c d]&->&Hin)| ->].
      * destruct (decide (c = name)) as [->|Hne].
        -- exists (name, dt). split; [done|].
           apply list_elem_of_fmap. exists (name, d). split; [|done].
           simpl. by rewrite bool_decide_eq_true_2.
        -- exists (c, d). split; [done|].
           apply list_elem_of_fmap. exists (c, d). split; [|done].
           simpl. by rewrite bool_decide_eq_false_2.
      * apply bool_decide_eq_true in Hname. unfold col_names in Hname.
        apply list_elem_of_fmap in Hname as ([c d]&->&Hin).
        exists (c, dt). split; [done|].
        apply list_elem_of_fmap. exists (c, d). split; [|done].
        simpl. by rewrite bool_decide_eq_true_2.
  - apply eq_true_iff_eq.
    rewrite orb_true_iff, !bool_decide_eq_true, fmap_app, elem_of_app.
    simpl. by rewrite list_elem_of_singleton.
Qed.

(** The rows that [reconcile_customer_data] makes of the merged rows. *)
Let finished (merged : DataFrame) (x : Row) : Row :=
  let x1 := <["state" := if notna (get merged x "Country" Null)
                         then cell_at x "Country"
                         else get merged x "state_oltp" Null]> x in
  let x2 := if isnull (cell_at x1 "customer_name")
            then <["customer_name" := Str "Unknown"]> x1 else x1 in
  <["source_system" :=
      if notna (if has_column merged "email" then cell_at x2 "email"
                else Null)
      then Str "MULTI_SOURCE" else Str "RETAIL_OLTP"]> x2.

Lemma reconcile_run oltp demo merged3 log :
  reconcile_customer_data oltp demo = Ok (merged3, log) ->
  exists merged,
    merge_left "customer_id" "_oltp" "_demo" oltp demo = Ok merged
    /\ rows merged3 = map (finished merged) (rows merged)
    /\ log = omap (conflict_of merged) (rows merged).
Proof.
  unfold reconcile_customer_data.
  destruct (merge_left _ _ _ oltp demo) as [merged|e]; [|done].
  set (state_of := fun x => if notna (get merged x "Country" Null)
                            then cell_at x "Country"
                            else get merged x "state_oltp" Null).
  set (m1 := assign "state" DObject state_of merged).
  destruct (has_column m1 "customer_name") eqn:Hname; [|done].
  intros [= <- <-]. exists merged. split; [done|]. split; [|done].
  unfold get.
  change (has_column (fillna "customer_name" (Str "Unknown") m1) "email")
    with (has_column m1 "email").
  unfold m1 at 1. rewrite has_column_assign, orb_false_r.
  unfold assign at 1. cbn [rows]. unfold fillna. cbn [rows].
  unfold m1, assign. cbn [rows]. rewrite !map_map.
  apply map_ext. intros x. reflexivity.
Qed.

Lemma finished_other merged x label :
  label <> "state" -> label <> "customer_name" -> label <> "source_system" ->
  cell_at (finished merged x) label = cell_at x label.
Proof.
  intros H1 H2 H3. unfold finished, cell_at.
  rewrite lookup_insert_ne by done.
  destruct (isnull _); rewrite ?lookup_insert_ne by done; done.
Qed.

Lemma merge_rows on ls rs left right merged :
  merge_left on ls rs left right = Ok merged ->
  (exists d, dtype_at left on = Some d)
  /\ columns merged = merged_columns on ls rs left right
  /\ rows merged
     = flat_map
         (fun l => match partners on right l with
                   | [] => [joined on ls rs left right l None]
                   | rs_ => map (fun r => joined on ls rs left right l (Some r)) rs_
                   end) (rows left).
Proof.
  unfold merge_left. destruct (dtype_at left on) as [a|]; [|done].
  destruct (dtype_at right on) as [b|]; [|done].
  destruct (same_dtype a b); [|done]. intros [= <-]. eauto.
Qed.

Lemma partners_unique on right l :
  (forall i j r r', rows right !! i = Some r -> rows right !! j = Some r' ->
                    i <> j ->
                    same_value (cell_at r on) (cell_at r' on) = false) ->
  (length (partners on right l) <= 1)%nat.
Proof.
  intros Huniq. destruct (decide (2 <= length (partners on right l))%nat)
    as [Htwo|]; [|lia].
  apply filter_two in Htwo as (i&j&a&b&Hij&Ha&Hb&Hka&Hkb).
  specialize (Huniq i j a b Ha Hb ltac:(lia)).
  assert (same_value (cell_at a on) (cell_at b on) = true) as Hsame.
  { eapply same_value_trans; [|exact Hkb]. by rewrite same_value_sym. }
  congruence.
Qed.

(** X28. Reconciliation, when it succeeds, neither loses nor invents a
    customer: every OLTP row gives at least one reconciled row with its
    customer id, and every reconciled row carries the customer id of an
    OLTP row.  When no two demographics rows share a customer id there is
    exactly one reconciled row for each OLTP row, in the same order.
    In every reconciled row the
    customer name is filled in, and the source is [MULTI_SOURCE] exactly
    when an email is present, [RETAIL_OLTP] otherwise. *)
Theorem reconcile_keeps_every_customer oltp demo merged log :
  reconcile_customer_data oltp demo = Ok (merged, log) ->
  (forall l, l ∈ rows oltp ->
     exists m, m ∈ rows merged
               /\ cell_at m "customer_id" = cell_at l "customer_id")
  /\ (forall m, m ∈ rows merged ->
        exists l, l ∈ rows oltp
                  /\ cell_at m "customer_id" = cell_at l "customer_id")
  /\ (length (rows oltp) <= length (rows merged))%nat
  /\ ((forall i j r r',
         rows demo !! i = Some r -> rows demo !! j = Some r' -> i <> j ->
         same_value (cell_at r "customer_id") (cell_at r' "customer_id")
         = false) ->
      map (fun m => cell_at m "customer_id") (rows merged)
      = map (fun l => cell_at l "customer_id") (rows oltp))
  /\ (forall m, m ∈ rows merged ->
        cell_at m "customer_name" <> Null
        /\ (cell_at m "source_system" = Str "MULTI_SOURCE"
            \/ cell_at m "source_system" = Str "RETAIL_OLTP")
        /\ (cell_at m "source_system" = Str "MULTI_SOURCE"
            <-> cell_at m "email" <> Null)).
Proof.
  intros (merged0&Hmerge&Hrows&_)%reconcile_run.
  apply merge_rows in Hmerge as ([d Hd]&Hcolumns&Hrows0).
  rewrite Hrows, Hrows0. clear Hrows Hrows0.
  set (step := fun l => match partners "customer_id" demo l with
                        | [] => [joined "customer_id" "_oltp" "_demo" oltp demo l None]
                        | rs_ => map (fun r => joined "customer_id" "_oltp" "_demo"
                                                 oltp demo l (Some r)) rs_
                        end).
  assert (Hkey : forall l m, m ∈ step l ->
             cell_at (finished merged0 m) "customer_id"
             = cell_at l "customer_id").
  { intros l m Hm. rewrite finished_other by done.
    unfold step in Hm. destruct (partners _ demo l) as [|r0 rs_].
    - apply list_elem_of_singleton in Hm as ->.
      eapply joined_key; [done|apply not_oltp_suffix].
    - apply list_elem_of_fmap in Hm as (r&->&_).
      eapply joined_key; [done|apply not_oltp_suffix]. }
  assert (Hsome : forall l, exists m, m ∈ step l).
  { intros l. unfold step. destruct (partners _ demo l) as [|r0 rs_].
    - eexists. by left.
    - eexists. simpl. by left. }
  split_and!.
  - intros l Hl. destruct (Hsome l) as [m Hm].
    exists (finished merged0 m). split; [|by eapply Hkey].
    apply list_elem_of_fmap. exists m. split; [done|].
    apply list_elem_of_In, in_flat_map. exists l.
    split; by apply list_elem_of_In.
  - intros m' ( m&->&Hm)%list_elem_of_fmap.
    apply list_elem_of_In, in_flat_map in Hm as (l&Hl&Hm).
    exists l. split; [by apply list_elem_of_In|].
    apply Hkey. by apply list_elem_of_In.
  - rewrite length_map. induction (rows oltp) as [|l ls IH]; simpl; [lia|].
    rewrite length_app. destruct (Hsome l) as [m Hm].
    destruct (step l); [by apply elem_of_nil in Hm|simpl; lia].
  - intros Huniq. rewrite map_map.
    induction (rows oltp) as [|l ls IH]; simpl; [done|].
    rewrite map_app, IH. f_equal.
    pose proof (partners_unique "customer_id" demo l Huniq) as Hone.
    assert (Hk : forall m, m ∈ step l ->
               cell_at (finished merged0 m) "customer_id"
               = cell_at l "customer_id") by (intros; by apply Hkey).
    unfold step in *.
    destruct (partners "customer_id" demo l) as [|r0 [|r1 rs_]];
      simpl in *; [| |lia].
    + f_equal. apply Hk. by left.
    + f_equal. apply Hk. by left.
  - intros m' (m&->&Hm)%list_elem_of_fmap. split; [|split].
    + unfold finished, cell_at.
      rewrite lookup_insert_ne by done.
      destruct (isnull _) eqn:Hnull.
      * by rewrite lookup_insert_eq.
      * unfold cell_at in Hnull. by destruct (default Null _).
    + unfold finished, cell_at. rewrite lookup_insert_eq. simpl.
      match goal with
      | |- (if ?b then _ else _) = _ \/ _ => destruct b
      end; by eauto.
    + rewrite (finished_other merged0 m "email") by done.
      assert (Hemail : (if has_column merged0 "email"
                        then cell_at m "email" else Null)
                       = cell_at m "email").
      { destruct (has_column merged0 "email") eqn:Hcol; [done|].
        apply list_elem_of_In, in_flat_map in Hm as (l&_&Hm).
        unfold has_column, col_names in Hcol. rewrite Hcolumns in Hcol.
        apply bool_decide_eq_false in Hcol. symmetry.
        destruct (step l) as [|? ?] eqn:Hstep; [done|].
        unfold step in Hstep.
        destruct (partners "customer_id" demo l) as [|r0 rs_].
        - injection Hstep as <- <-. destruct Hm as [<-|[]].
          by apply joined_absent.
        - rewrite <- Hstep in Hm.
          apply list_elem_of_In, list_elem_of_fmap in Hm as (r&->&_).
          by apply joined_absent. }
      unfold finished. unfold cell_at at 1. rewrite lookup_insert_eq. simpl.
      assert (Hx2 : forall x2 : Row,
                x2 = <["state" := if notna (get merged0 m "Country" Null)
                                  then cell_at m "Country"
                                  else get merged0 m "state_oltp" Null]> m ->
                cell_at (if isnull (cell_at x2 "customer_name")
                         then <["customer_name" := Str "Unknown"]> x2 else x2)
                  "email" = cell_at m "email").
      { intros x2 ->. unfold cell_at at 1.
        destruct (isnull _); rewrite ?lookup_insert_ne by done; done. }
      rewrite (Hx2 _ eq_refl). clear Hx2.
      destruct (has_column merged0 "email").
      * destruct (cell_at m "email"); simpl; split; done.
      * rewrite <- Hemail. simpl. split; done.
Qed.


Lemma sql_eq_refl c : c <> Null -> sql_eq c c = true.
Proof.
  destruct c; simpl; [done| | |]; intros _.
  - by apply Qeq_bool_iff.
  - by apply bool_decide_eq_true.
  - apply Z.eqb_refl.
Qed.

Lemma without_key_names on df c :
  c ∈ (without_key on (columns df)).*1 -> c ∈ col_names df.
Proof.
  unfold without_key, col_names. rewrite !list_elem_of_fmap.
  intros (x&->&[Hx _]%elem_of_filter_bool). by exists x.
Qed.

(** X29. The reconciliation as the multi-source load calls it: the OLTP
    frame has the two columns [customer_id] and [Country], and the
    demographics file has no column of the names [Country] or
    [state_oltp].  Then no conflict is ever logged, and in every
    reconciled row the state is the country of its OLTP row, missing
    when that is missing: a state that the demographics file supplies is
    never used. *)
Theorem reconciliation_at_the_call_site oltp demo merged log :
  col_names oltp = ["customer_id"; "Country"] ->
  has_column demo "Country" = false ->
  has_column demo "state_oltp" = false ->
  reconcile_customer_data oltp demo = Ok (merged, log) ->
  log = []
  /\ forall m, m ∈ rows merged ->
       exists l, l ∈ rows oltp
                 /\ cell_at m "customer_id" = cell_at l "customer_id"
                 /\ cell_at m "Country" = cell_at l "Country"
                 /\ cell_at m "state" = cell_at l "Country".
Proof.
  intros Hcols Hcountry Hstate (merged0&Hmerge&Hrows&->)%reconcile_run.
  apply merge_rows in Hmerge as ([d Hd]&Hcolumns&Hrows0).
  assert (Hshared : overlap "customer_id" oltp demo = []).
  { unfold overlap. rewrite Hcols. simpl.
    unfold has_column in Hcountry. by rewrite Hcountry. }
  assert (Hnames : col_names merged0
                   = ["customer_id"; "Country"]
                     ++ (without_key "customer_id" (columns demo)).*1).
  { unfold col_names at 1. rewrite Hcolumns. unfold merged_columns.
    rewrite Hshared, fmap_app. f_equal.
    - rewrite <- Hcols. unfold col_names.
      rewrite <- list_fmap_compose. by apply list_fmap_ext.
    - rewrite <- list_fmap_compose. by apply list_fmap_ext. }
  assert (Hhas : has_column merged0 "Country" = true).
  { unfold has_column. rewrite Hnames. apply bool_decide_eq_true.
    right. by left. }
  assert (Hno : has_column merged0 "state_oltp" = false).
  { unfold has_column. rewrite Hnames. apply bool_decide_eq_false.
    intros [H|H]%elem_of_app.
    - apply elem_of_cons in H as [?|H]; [done|].
      by apply list_elem_of_singleton in H.
    - apply without_key_names in H. unfold has_column in Hstate.
      by apply bool_decide_eq_false in Hstate. }
  assert (Hjoined : forall l r,
             cell_at (joined "customer_id" "_oltp" "_demo" oltp demo l r)
               "Country" = cell_at l "Country").
  { intros l r. unfold joined. rewrite Hshared, Hcols.
    set (m2 := relabel "_demo" _ _ _). unfold cell_at at 1.
    by rewrite (lookup_union_Some_l _ m2 _ (cell_at l "Country")). }
  assert (Hfrom : forall m, m ∈ rows merged0 ->
             exists l, l ∈ rows oltp
                       /\ cell_at m "customer_id" = cell_at l "customer_id"
                       /\ cell_at m "Country" = cell_at l "Country").
  { intros m Hm. rewrite Hrows0 in Hm.
    apply list_elem_of_In, in_flat_map in Hm as (l&Hl&Hm).
    exists l. split; [by apply list_elem_of_In|].
    destruct (partners "customer_id" demo l) as [|r0 rs_].
    - destruct Hm as [<-|[]]. split; [|apply Hjoined].
      eapply joined_key; [done|apply not_oltp_suffix].
    - apply list_elem_of_In, list_elem_of_fmap in Hm as (r&->&_).
      split; [|apply Hjoined].
      eapply joined_key; [done|apply not_oltp_suffix]. }
  split.
  - apply omap_nil. intros m Hm. unfold conflict_of, get.
    rewrite Hhas, Hno.
    destruct (notna (cell_at m "Country")) eqn:Hc; [|done].
    unfold differs_from.
    rewrite sql_eq_refl; [cbn [negb andb]; match goal with |- context [if ?b then None else None] => destruct b end; reflexivity|].
    intros Hnull. by rewrite Hnull in Hc.
  - intros m' Hm'. rewrite Hrows in Hm'.
    apply list_elem_of_fmap in Hm' as (m&->&Hm).
    destruct (Hfrom m Hm) as (l&Hl&Hid&Hc). exists l.
    rewrite !finished_other by done. split_and!; [done..|].
    rewrite <- Hc. unfold finished, get. rewrite Hhas, Hno.
    unfold cell_at at 1. rewrite lookup_insert_ne by done.
    destruct (isnull _); rewrite ?lookup_insert_ne by done;
      rewrite lookup_insert_eq; simpl;
      by destruct (cell_at m "Country").
Qed.

End Reconciliation.

Section MoreScenarios3.

Import WatermarkManager IncrementalLoader LoaderQueries Samples MoreSamples.

(** X23 on the two sales and the seeded watermark. *)
Lemma statistics_accumulate_load_counts_witness :
  let db0 := mkDB ∅ seeded in
  let out := load_fact_sales_incremental (no_faults 0) sales oltp
               "transaction_date" db0 in
  exists st,
    get_load_statistics (no_faults 0) "fact_sales" oltp out.2
      = (Ok (Some st), out.2)
    /\ total_records_processed st = 0 + 2
    /\ total_records_rejected st = 0 + 0.
Proof.
  intros db0 out.
  assert (H1 : out.1 = Ok (mkFactStats 2 0 2)) by (vm_compute; reflexivity).
  apply (statistics_accumulate_load_counts (no_faults 0) sales "RETAIL_OLTP"
           "transaction_date" db0 (mkWatermark None None None 0 0)
           (mkFactStats 2 0 2) out.2).
  - done.
  - reflexivity.
  - rewrite <- H1. apply pair_eta.
Defined.

End MoreScenarios3.

Section GateScenarios.

Import IncrementalLoader QualityChecks ReconcileCustomers GateSamples.

(** X24 on the shop: one sale without its customer. *)
Lemma referential_integrity_verdict_witness :
  exists samples,
    check_referential_integrity shop "fact_sales" "dim_customer"
      "customer_key" "customer_key" no_results
    = (ReferentialIntegrity
         "fact_sales.customer_key -> dim_customer.customer_key" 1 samples FAIL,
       mkQualityResults 0 1 0
         [ReferentialIntegrity
            "fact_sales.customer_key -> dim_customer.customer_key" 1
            samples FAIL])
    /\ (length samples <= 10)%nat
    /\ forall s, s ∈ samples -> s ∈ [Num (1 # 1); Num (7 # 1)].
Proof.
  destruct (referential_integrity_verdict shop "fact_sales" "dim_customer"
              "customer_key" "customer_key" no_results
              [Num (1 # 1); Num (7 # 1)] [Num (1 # 1)])
    as (rel&n&samples&st&Hrun&_&_&_&_&_&Hlen&_&Helem&_).
  - reflexivity.
  - reflexivity.
  - exists samples. split_and!; [|done|by intros s [? _]%Helem].
    assert (Hfst : (check_referential_integrity shop "fact_sales"
                      "dim_customer" "customer_key" "customer_key"
                      no_results).1
                   = ReferentialIntegrity
                       "fact_sales.customer_key -> dim_customer.customer_key"
                       1 [Num (7 # 1)] FAIL)
      by (vm_compute; reflexivity).
    rewrite Hrun in Hfst. simpl in Hfst. injection Hfst as -> -> -> ->.
    exact Hrun.
Defined.

(** X26 on the shop: the two sales share their day. *)
Lemma duplicate_check_verdict_witness :
  exists n samples st,
    (check_duplicates shop "fact_sales" ["time_key"] no_results).1
    = DuplicateDetection "fact_sales" ["time_key"] n samples st
    /\ (n = 0 <-> st = PASS)
    /\ 0 <= n <= 10.
Proof.
  destruct (duplicate_check_verdict shop "fact_sales" ["time_key"] no_results
              (mkTable [("customer_key", "INTEGER"); ("time_key", "INTEGER")]
                 [ {[ "customer_key" := Num (1 # 1);
                      "time_key" := Num (20240101 # 1) ]};
                   {[ "customer_key" := Num (7 # 1);
                      "time_key" := Num (20240101 # 1) ]} ]))
    as (n&samples&st&Hrun&_&_&Hn&Hcap&_).
  - reflexivity.
  - discriminate.
  - intros c ->%list_elem_of_singleton. simpl. right. by left.
  - exists n, samples, st. by rewrite Hrun.
Defined.

(** X28 on two customers, one of them with demographics. *)
Lemma reconcile_keeps_every_customer_witness :
  match reconcile_customer_data customers_oltp df_demo with
  | Ok (merged, _) =>
      map (fun m => cell_at m "customer_id") (rows merged)
      = [Num (1 # 1); Num (2 # 1)]
  | Raised _ => False
  end.
Proof.
  destruct (reconcile_customer_data customers_oltp df_demo)
    as [[merged log]|e] eqn:Hrun.
  - destruct (reconcile_keeps_every_customer customers_oltp df_demo merged
                log Hrun) as (_&_&_&Hsame&_).
    apply Hsame. intros [|[|i]] [|[|j]] r r' Hr Hr' Hne; done.
  - vm_compute in Hrun. discriminate Hrun.
Defined.

(** X29 on the same frames: Kent is dropped. *)
Lemma reconciliation_at_the_call_site_witness :
  match reconcile_customer_data customers_oltp df_demo with
  | Ok (merged, log) =>
      log = []
      /\ forall m, m ∈ rows merged ->
           exists l, l ∈ rows customers_oltp
                     /\ cell_at m "customer_id" = cell_at l "customer_id"
                     /\ cell_at m "Country" = cell_at l "Country"
                     /\ cell_at m "state" = cell_at l "Country"
  | Raised _ => False
  end.
Proof.
  destruct (reconcile_customer_data customers_oltp df_demo)
    as [[merged log]|e] eqn:Hrun.
  - apply (reconciliation_at_the_call_site customers_oltp df_demo merged log);
      [reflexivity|vm_compute; reflexivity|vm_compute; reflexivity|exact Hrun].
  - vm_compute in Hrun. discriminate Hrun.
Defined.

End GateScenarios.

(* ===================================================================== *)
(** ** The four referential-integrity checks of the gate *)
(* ===================================================================== *)

Section AllReferentialIntegrity.

Import IncrementalLoader QualityChecks.

Lemma referential_integrity_step db fact dim fk pk q :
  let out := check_referential_integrity db fact dim fk pk q in
  (out.1 = Error /\ out.2 = q)
  \/ (has_status PASS out.1 = true
      /\ out.2 = appended_detail out.1 (counted PASS q))
  \/ (has_status FAIL out.1 = true
      /\ out.2 = appended_detail out.1 (counted FAIL q)).
Proof.
  unfold check_referential_integrity.
  destruct (column db fact fk) as [fks|]; [|by left].
  destruct (column db dim pk) as [pks|]; [|by left].
  cbv zeta. destruct (_ =? 0); simpl; by eauto.
Qed.

Lemma count_status_app st a b :
  count_status st (a ++ b) = count_status st a + count_status st b.
Proof.
  unfold count_status. rewrite List.filter_app, length_app. lia.
Qed.

Lemma count_status_one st r :
  count_status st [r] = if has_status st r then 1 else 0.
Proof. unfold count_status. simpl. by destruct (has_status st r). Qed.

(** X30. The four referential-integrity checks of the gate report four
    results.  A check that could not
    run, for a table or a column that does not exist, is counted nowhere
    and leaves no detail: the passed and failed counters grow by the
    number of results with that status, the details by the results that
    are not errors, and the warning counter stays as it is. *)
Theorem referential_integrity_checks_account db q :
  let out := check_all_referential_integrity db q in
  length out.1 = 4%nat
  /\ details out.2
     = details q ++ List.filter (fun r => negb (is_error r)) out.1
  /\ checks_passed out.2 = checks_passed q + count_status PASS out.1
  /\ checks_failed out.2 = checks_failed q + count_status FAIL out.1
  /\ checks_warning out.2 = checks_warning q
  /\ count_status PASS out.1 + count_status FAIL out.1
     = Z.of_nat (length (details out.2)) - Z.of_nat (length (details q)).
Proof.
  cbv zeta. unfold check_all_referential_integrity.
  match goal with |- context [fold_left ?f _ _] => set (step := f) end.
  assert (Hgen : forall rels results q0,
             let out := fold_left step rels (results, q0) in
             exists news,
               out.1 = results ++ news
               /\ length news = length rels
               /\ details out.2
                  = details q0 ++ List.filter (fun r => negb (is_error r)) news
               /\ checks_passed out.2 = checks_passed q0 + count_status PASS news
               /\ checks_failed out.2 = checks_failed q0 + count_status FAIL news
               /\ checks_warning out.2 = checks_warning q0
               /\ count_status PASS news + count_status FAIL news
                  = Z.of_nat (length (List.filter
                                        (fun r => negb (is_error r)) news))).
  { induction rels as [|[[[fact dim] fk] pk] rels IH]; intros results q0.
    - exists []. simpl. rewrite !app_nil_r. split_and!; try done;
        unfold count_status; simpl; lia.
    - cbn [fold_left].
      assert (Hs : step (results, q0) (fact, dim, fk, pk)
                   = let '(result, q') :=
                       check_referential_integrity db fact dim fk pk q0 in
                     (results ++ [result], q')) by reflexivity.
      pose proof (referential_integrity_step db fact dim fk pk q0) as Hstep.
      destruct (check_referential_integrity db fact dim fk pk q0)
        as [r q1]. simpl in Hstep. rewrite Hs. clear Hs.
      destruct (IH (results ++ [r]) q1)
        as (news&Hres&Hlen&Hdet&Hp&Hf&Hw&Hc).
      exists (r :: news). rewrite Hres, Hdet, Hp, Hf, Hw.
      rewrite <- app_assoc. split; [done|]. split; [simpl; lia|].
      change (r :: news) with ([r] ++ news).
      rewrite !count_status_app, !count_status_one.
      destruct Hstep as [[-> ->]|[[Hst ->]|[Hst ->]]].
      + simpl. split_and!; [done|lia|lia|done|lia].
      + assert (is_error r = false /\ has_status FAIL r = false) as [He Hnf].
        { destruct r as [| | ? ? ? st|? ? ? ? ? ? st|? ? ? ? st];
            try destruct st; done. }
        simpl. rewrite He, Hst, Hnf. simpl.
        rewrite <- app_assoc. split_and!; [done|lia|lia|done|lia].
      + assert (is_error r = false /\ has_status PASS r = false) as [He Hnf].
        { destruct r as [| | ? ? ? st|? ? ? ? ? ? st|? ? ? ? st];
            try destruct st; done. }
        simpl. rewrite He, Hst, Hnf. simpl.
        rewrite <- app_assoc. split_and!; [done|lia|lia|done|lia]. }
  destruct (Hgen relationships [] q) as (news&Hres&Hlen&Hdet&Hp&Hf&Hw&Hc).
  change ([] ++ news) with news in Hres.
  rewrite Hres, Hdet, Hp, Hf, Hw, length_app.
  split_and!; [done..|lia].
Qed.

End AllReferentialIntegrity.
